(** * Tangram: shader program compilation and tile geometry building

    A shallow embedding of [src/gl/gl_program.js] (the [GLProgram] wrapper:
    compile-time shader pre-processing and the uniform cache) and of the
    [Tile] class (geometry source resolution, the per-tile build loop and
    [merge]) and of the event mixin ([on], [off], [trigger]), followed by
    the properties proved about them.

    Conventions of the embedding.
    - A JavaScript string is a [list ascii]: a sequence of code units in the
      Latin-1 range.  Character classes are those of ECMAScript restricted to
      that range.
    - A JavaScript object used as an ordered dictionary ([for .. in] walks it)
      is an association list in insertion order ([Obj.t]); an object used only
      through lookups and updates is a [gmap].
      A lookup [o[k]] finds the properties the object was given and, under
      the names every object inherits ([constructor], [toString], ...), the
      inherited value.  [Tile.getGeometryForSource] is embedded with both.
      The tables of [GLProgram] are embedded with the properties they were
      given: those names are not used as keys of the define and uniform
      tables, and the statements on the transform tables ask it of their
      keys ([own_name]).
    - A method that mutates [this], the module-level registries or the
      graphics context is a computation in a state-and-exception monad.
    - A function the code receives or imports (a filter, a style method, the
      functions of [./glsl]) is a total function of its arguments. *)

From Stdlib Require Import Ascii String ZArith DecimalString.
From Stdlib Require DecimalPos DecimalZ.
From stdpp Require Import base tactics option list strings gmap.

Local Open Scope list_scope.

(** ** Text *)

Abbreviation text := (list ascii).

(** A string literal as text. *)
Notation "'t<' s '>'" := (list_ascii_of_string s%string)
  (at level 0, s at level 0, format "'t<' s '>'").

Module Text.

Definition code (c : ascii) : N := N_of_ascii c.

(** ECMAScript [LineTerminator], Latin-1 part: LF and CR. *)
Definition is_line_terminator (c : ascii) : bool :=
  (code c =? 10)%N || (code c =? 13)%N.

(** ECMAScript [\s], Latin-1 part: TAB, LF, VT, FF, CR, SP, NBSP. *)
Definition is_space (c : ascii) : bool :=
  ((9 <=? code c)%N && (code c <=? 13)%N) || (code c =? 32)%N || (code c =? 160)%N.

(** ECMAScript [\w]: [A-Za-z0-9_]. *)
Definition is_word (c : ascii) : bool :=
  ((48 <=? code c)%N && (code c <=? 57)%N)
  || ((65 <=? code c)%N && (code c <=? 90)%N)
  || ((97 <=? code c)%N && (code c <=? 122)%N)
  || (code c =? 95)%N.

(** [Array.prototype.join]. *)
Fixpoint join (sep : text) (l : list text) : text :=
  match l with
  | [] => []
  | [x] => x
  | x :: l' => x ++ sep ++ join sep l'
  end.

(** The lines of a text: the pieces between line terminators. *)
Fixpoint lines (s : text) : list text :=
  match s with
  | [] => [[]]
  | c :: s' =>
      if is_line_terminator c then [] :: lines s'
      else match lines s' with
           | l :: ls => (c :: l) :: ls
           | [] => [[c]]
           end
  end.

(** Decimal rendering of a number, as [Number.prototype.toString] gives for
    an integer. *)
Definition of_Z (z : Z) : text :=
  list_ascii_of_string (NilZero.string_of_int (Z.to_int z)).

Definition of_nat (n : nat) : text := of_Z (Z.of_nat n).

End Text.

(** ** Regular expressions

    The two patterns of [compile] are sequences of literal characters and of
    greedy repetitions of a character class, anchored by [^] and [$] under the
    [m] flag.  The matcher below is the backtracking matcher of ECMAScript for
    that fragment: a repetition first takes as many characters as it can and
    gives them back one at a time while the rest of the pattern fails. *)

Module RegExp.
Import Text.

Inductive cclass := ClassSpace | ClassWord.

Definition in_class (k : cclass) : ascii -> bool :=
  match k with
  | ClassSpace => is_space
  | ClassWord => is_word
  end.

Inductive atom :=
| Lit (c : ascii)           (* a pattern character *)
| Star (k : cclass)         (* [\s*], [\w*] *)
| Plus (k : cclass).        (* [\s+], [\w+] *)

(** The body of a pattern [^ ... $]; both anchors are implied. *)
Definition regexp := list atom.

Definition lits (s : text) : regexp := map Lit s.

(** [$] with the [m] flag: end of input, or a line terminator follows. *)
Definition at_eol (s : text) : bool :=
  match s with
  | [] => true
  | c :: _ => is_line_terminator c
  end.

(** Greedy repetition of a class followed by the continuation [k]. The
    result is the number of characters consumed. *)
Fixpoint star (p : ascii -> bool) (k : text -> option nat) (s : text) : option nat :=
  match s with
  | c :: s' =>
      if p c then
        match star p k s' with
        | Some n => Some (S n)
        | None => k s
        end
      else k s
  | [] => k []
  end.

(** Match the pattern body and the closing [$] at the head of [s]. *)
Fixpoint match_here (r : regexp) : text -> option nat :=
  match r with
  | [] => fun s => if at_eol s then Some 0 else None
  | Lit c :: r' => fun s =>
      match s with
      | c' :: s' => if bool_decide (c = c') then S <$> match_here r' s' else None
      | [] => None
      end
  | Star k :: r' => star (in_class k) (match_here r')
  | Plus k :: r' => fun s =>
      match s with
      | c :: s' => if in_class k c then S <$> star (in_class k) (match_here r') s' else None
      | [] => None
      end
  end.

(** [^] with the [m] flag holds at the start of the input and after a line
    terminator; [bol] carries that fact for the current position. *)
Definition match_at (r : regexp) (bol : bool) (s : text) : option nat :=
  if bol then match_here r s else None.

(** [RegExp.prototype.exec] without the [g] flag: the leftmost position where
    the pattern matches, and the length of the match there. *)
Fixpoint exec_from (r : regexp) (bol : bool) (s : text) : option (nat * nat) :=
  match match_at r bol s with
  | Some n => Some (0, n)
  | None =>
      match s with
      | [] => None
      | c :: s' => (fun '(i, n) => (S i, n)) <$> exec_from r (is_line_terminator c) s'
      end
  end.

Definition exec (r : regexp) (s : text) : option (nat * nat) := exec_from r true s.

(** [String.prototype.match(regexp) != null]. *)
Definition matches (r : regexp) (s : text) : bool := bool_decide (is_Some (exec r s)).

(** ECMAScript [GetSubstitution] for a pattern without capture groups:
    [$$], [$&], [$`] and [$'] are expanded, everything else is literal. *)
Fixpoint GetSubstitution (matched before after : text) (replacement : text) : text :=
  match replacement with
  | [] => []
  | c :: r =>
      if bool_decide (c = "$"%char) then
        match r with
        | d :: r' =>
            if bool_decide (d = "$"%char) then "$"%char :: GetSubstitution matched before after r'
            else if bool_decide (d = "&"%char) then matched ++ GetSubstitution matched before after r'
            else if bool_decide (d = "`"%char) then before ++ GetSubstitution matched before after r'
            else if bool_decide (d = "'"%char) then after ++ GetSubstitution matched before after r'
            else c :: GetSubstitution matched before after r
        | [] => [c]
        end
      else c :: GetSubstitution matched before after r
  end.

(** [String.prototype.replace(regexp, string)] without the [g] flag. *)
Definition replace (r : regexp) (replacement : text) (s : text) : text :=
  match exec r s with
  | None => s
  | Some (i, n) =>
      let before := take i s in
      let matched := take n (drop i s) in
      let after := drop (i + n) s in
      before ++ GetSubstitution matched before after replacement ++ after
  end.

(** [String.prototype.replace(regexp, '')] with the [g] flag: every match,
    left to right, is dropped; the search resumes where the match ended.
    [skip] counts the characters of the current match still to drop.  An
    empty match leaves the text alone and the search moves one character
    on. *)
Fixpoint remove_from (r : regexp) (bol : bool) (skip : nat) (s : text) : text :=
  match s with
  | [] => []
  | c :: s' =>
      match skip with
      | S k => remove_from r (is_line_terminator c) k s'
      | 0 =>
          match match_at r bol s with
          | Some (S k) => remove_from r (is_line_terminator c) k s'
          | _ => c :: remove_from r (is_line_terminator c) 0 s'
          end
      end
  end.

Definition remove_all (r : regexp) (s : text) : text := remove_from r true 0 s.

(** The texts a pattern body denotes. *)
Inductive lang : regexp -> text -> Prop :=
| lang_nil : lang [] []
| lang_lit c r m : lang r m -> lang (Lit c :: r) (c :: m)
| lang_star k r w m :
    Forall (fun c => in_class k c = true) w -> lang r m -> lang (Star k :: r) (w ++ m)
| lang_plus k r c w m :
    in_class k c = true -> Forall (fun c => in_class k c = true) w -> lang r m ->
    lang (Plus k :: r) (c :: w ++ m).

End RegExp.

(** ** Objects walked by [for .. in]

    An association list in insertion order with one entry per property name.
    (ECMAScript moves property names that are canonical array indices to the
    front; the names used here, injection points, macro and uniform names, are
    not of that form.) *)

Module Obj.
Section Obj.
Context {V : Type}.

Definition t := list (text * V).

(** [o[k]] *)
Fixpoint get (o : list (text * V)) (k : text) : option V :=
  match o with
  | [] => None
  | (k', v) :: o' => if bool_decide (k = k') then Some v else get o' k
  end.

(** [o[k] = v]: an existing property keeps its place, a new one goes last. *)
Fixpoint set (o : list (text * V)) (k : text) (v : V) : list (text * V) :=
  match o with
  | [] => [(k, v)]
  | (k', v') :: o' =>
      if bool_decide (k = k') then (k, v) :: o' else (k', v') :: set o' k v
  end.

Definition keys (o : list (text * V)) : list text := map fst o.

(** One entry per property name. *)
Definition wf (o : list (text * V)) : Prop := NoDup (keys o).
End Obj.
Arguments t : clear implicits.
End Obj.

(** ** Inherited properties

    The properties of [Object.prototype], which a lookup finds on every
    plain object that has no property of that name of its own. *)

Definition prototype_names : list string :=
  ["constructor"; "__defineGetter__"; "__defineSetter__"; "hasOwnProperty";
   "__lookupGetter__"; "__lookupSetter__"; "isPrototypeOf"; "propertyIsEnumerable";
   "toString"; "valueOf"; "__proto__"; "toLocaleString"]%string.

Definition inherited (name : string) : bool := bool_decide (name ∈ prototype_names).

(** ** GLProgram *)

Module GLProgram.
Import Text.

Definition LF : ascii := "010"%char.

(** A value of the [defines] tables. *)
Inductive define_value :=
| DefBool (b : bool)
| DefInt (z : Z)        (* a number [x] with [Math.floor(x) === x] *)
| DefOther (s : text).  (* any other float or string value, as its string conversion *)

(** A value of the [transforms] tables: one source string or an array. *)
Inductive transform :=
| TransformSource (s : text)
| TransformArray (l : list text).

Definition WebGLProgram := nat.
Definition WebGLUniformLocation := nat.

(** An entry of [GLSL.parseUniforms]. *)
Record ParsedUniform (Value : Type) := {
  parsed_type : text;
  parsed_method : text;
  parsed_name : text;
  parsed_value : Value;
}.
Arguments parsed_type {Value}.
Arguments parsed_method {Value}.
Arguments parsed_name {Value}.
Arguments parsed_value {Value}.

(** A call made on the graphics context (directly, through [GL.updateProgram]
    or through a [GLTexture]). *)
Inductive GLCall (Value : Type) :=
| Call_useProgram (program : option WebGLProgram)
| Call_getUniformLocation (program : option WebGLProgram) (name : text)
| Call_uniform (method : text) (location : WebGLUniformLocation) (values : list Value)
| Call_updateProgram (program : option WebGLProgram) (vertex fragment : text)
| Call_newTexture (name : Value)
| Call_loadTexture (name : Value)
| Call_bindTexture (name : Value) (unit : nat).
Arguments Call_useProgram {Value}.
Arguments Call_getUniformLocation {Value}.
Arguments Call_uniform {Value}.
Arguments Call_updateProgram {Value}.
Arguments Call_newTexture {Value}.
Arguments Call_loadTexture {Value}.
Arguments Call_bindTexture {Value}.

(** What the module imports and the built-ins it calls: [strip-comments],
    [./glsl], [./gl], [./gl_texture], the graphics context and
    [String.prototype.toUpperCase].  None of them is part of the file. *)
Class Imports := {
  Value : Type;
  (* a number as a value handed to a uniform setter *)
  Value_of_number : nat -> Value;
  strip : text -> text;
  GLSL_isUniformDefined : text -> text -> bool;
  GLSL_isSymbolReferenced : text -> text -> bool;
  GLSL_defineUniform : text -> Value -> text;
  GLSL_parseUniforms : Obj.t Value -> list (ParsedUniform Value);
  (* [GL.updateProgram]: the linked program, or [None] when it throws *)
  GL_updateProgram : option WebGLProgram -> text -> text -> option WebGLProgram;
  gl_getUniformLocation : option WebGLProgram -> text -> option WebGLUniformLocation;
  (* whether the context has a method of that name *)
  gl_has_method : text -> bool;
  (* [GLTexture.textures[name] != null], given the calls made so far *)
  GLTexture_textures : list (GLCall Value) -> Value -> bool;
  toUpperCase : text -> text;
}.

Inductive error :=
| Error_already_compiling (id : nat) (name : option text)
| Error_compile (id : nat) (name : option text)
| Error_updateProgram   (* whatever [GL.updateProgram] throws *)
| TypeError_reduce_of_empty_array
| TypeError_not_a_function (method : text).

(** How a call completes: normally with a value, or by throwing. *)
Inductive completion (A : Type) :=
| Normal (a : A)
| Throw (e : error).
Arguments Normal {A}.
Arguments Throw {A}.

Section Program.
Context `{Imports}.

(** An entry of [this.uniforms]. *)
Record Uniform := {
  uniform_name : text;
  uniform_location : option WebGLUniformLocation;
  uniform_method : text;
  uniform_values : list Value;
}.

Record Program := {
  program : option WebGLProgram;
  compiled : bool;
  compiling : bool;
  defines : Obj.t define_value;
  transforms : Obj.t transform;
  dependent_uniforms : option (Obj.t Value);
  uniforms : Obj.t Uniform;
  attribs : Obj.t (option nat);
  vertex_shader : text;
  fragment_shader : text;
  id : nat;
  name : option text;
  computed_vertex_shader : text;
  computed_fragment_shader : text;
  texture_unit : nat;
}.

(** One program, the module-level state of [GLProgram] and the calls
    received by the graphics context so far (latest last). *)
Record World := {
  this : Program;
  GLProgram_current : option nat;
  GLProgram_defines : Obj.t define_value;
  GLProgram_transforms : Obj.t transform;
  gl : list (GLCall Value);
}.

Definition set_program v (p : Program) : Program :=
  {| program := v; compiled := compiled p; compiling := compiling p;
     defines := defines p; transforms := transforms p;
     dependent_uniforms := dependent_uniforms p; uniforms := uniforms p;
     attribs := attribs p; vertex_shader := vertex_shader p;
     fragment_shader := fragment_shader p; id := id p; name := name p;
     computed_vertex_shader := computed_vertex_shader p;
     computed_fragment_shader := computed_fragment_shader p;
     texture_unit := texture_unit p |}.

Definition set_compiled v (p : Program) : Program :=
  {| program := program p; compiled := v; compiling := compiling p;
     defines := defines p; transforms := transforms p;
     dependent_uniforms := dependent_uniforms p; uniforms := uniforms p;
     attribs := attribs p; vertex_shader := vertex_shader p;
     fragment_shader := fragment_shader p; id := id p; name := name p;
     computed_vertex_shader := computed_vertex_shader p;
     computed_fragment_shader := computed_fragment_shader p;
     texture_unit := texture_unit p |}.

Definition set_compiling v (p : Program) : Program :=
  {| program := program p; compiled := compiled p; compiling := v;
     defines := defines p; transforms := transforms p;
     dependent_uniforms := dependent_uniforms p; uniforms := uniforms p;
     attribs := attribs p; vertex_shader := vertex_shader p;
     fragment_shader := fragment_shader p; id := id p; name := name p;
     computed_vertex_shader := computed_vertex_shader p;
     computed_fragment_shader := computed_fragment_shader p;
     texture_unit := texture_unit p |}.

Definition set_uniforms v (p : Program) : Program :=
  {| program := program p; compiled := compiled p; compiling := compiling p;
     defines := defines p; transforms := transforms p;
     dependent_uniforms := dependent_uniforms p; uniforms := v;
     attribs := attribs p; vertex_shader := vertex_shader p;
     fragment_shader := fragment_shader p; id := id p; name := name p;
     computed_vertex_shader := computed_vertex_shader p;
     computed_fragment_shader := computed_fragment_shader p;
     texture_unit := texture_unit p |}.

Definition set_attribs v (p : Program) : Program :=
  {| program := program p; compiled := compiled p; compiling := compiling p;
     defines := defines p; transforms := transforms p;
     dependent_uniforms := dependent_uniforms p; uniforms := uniforms p;
     attribs := v; vertex_shader := vertex_shader p;
     fragment_shader := fragment_shader p; id := id p; name := name p;
     computed_vertex_shader := computed_vertex_shader p;
     computed_fragment_shader := computed_fragment_shader p;
     texture_unit := texture_unit p |}.

Definition set_computed_vertex_shader v (p : Program) : Program :=
  {| program := program p; compiled := compiled p; compiling := compiling p;
     defines := defines p; transforms := transforms p;
     dependent_uniforms := dependent_uniforms p; uniforms := uniforms p;
     attribs := attribs p; vertex_shader := vertex_shader p;
     fragment_shader := fragment_shader p; id := id p; name := name p;
     computed_vertex_shader := v;
     computed_fragment_shader := computed_fragment_shader p;
     texture_unit := texture_unit p |}.

Definition set_computed_fragment_shader v (p : Program) : Program :=
  {| program := program p; compiled := compiled p; compiling := compiling p;
     defines := defines p; transforms := transforms p;
     dependent_uniforms := dependent_uniforms p; uniforms := uniforms p;
     attribs := attribs p; vertex_shader := vertex_shader p;
     fragment_shader := fragment_shader p; id := id p; name := name p;
     computed_vertex_shader := computed_vertex_shader p;
     computed_fragment_shader := v;
     texture_unit := texture_unit p |}.

Definition set_texture_unit v (p : Program) : Program :=
  {| program := program p; compiled := compiled p; compiling := compiling p;
     defines := defines p; transforms := transforms p;
     dependent_uniforms := dependent_uniforms p; uniforms := uniforms p;
     attribs := attribs p; vertex_shader := vertex_shader p;
     fragment_shader := fragment_shader p; id := id p; name := name p;
     computed_vertex_shader := computed_vertex_shader p;
     computed_fragment_shader := computed_fragment_shader p;
     texture_unit := v |}.

(** *** The monad of methods *)

Definition M (A : Type) : Type := World -> completion A * World.

Definition ret {A} (a : A) : M A := fun w => (Normal a, w).

Definition bind {A B} (m : M A) (k : A -> M B) : M B :=
  fun w =>
    match m w with
    | (Normal a, w') => k a w'
    | (Throw e, w') => (Throw e, w')
    end.

Definition throw {A} (e : error) : M A := fun w => (Throw e, w).

(** [try { body } catch (error) { handler }] *)
Definition try_catch {A} (body : M A) (handler : error -> M A) : M A :=
  fun w =>
    match body w with
    | (Normal a, w') => (Normal a, w')
    | (Throw e, w') => handler e w'
    end.

Definition get_this : M Program := fun w => (Normal (this w), w).

Definition modify_this (f : Program -> Program) : M unit :=
  fun w =>
    (Normal tt,
     {| this := f (this w); GLProgram_current := GLProgram_current w;
        GLProgram_defines := GLProgram_defines w;
        GLProgram_transforms := GLProgram_transforms w; gl := gl w |}).

Definition get_world : M World := fun w => (Normal w, w).

Definition set_current (c : option nat) : M unit :=
  fun w =>
    (Normal tt,
     {| this := this w; GLProgram_current := c;
        GLProgram_defines := GLProgram_defines w;
        GLProgram_transforms := GLProgram_transforms w; gl := gl w |}).

(** A call on the graphics context. *)
Definition call (c : GLCall Value) : M unit :=
  fun w =>
    (Normal tt,
     {| this := this w; GLProgram_current := GLProgram_current w;
        GLProgram_defines := GLProgram_defines w;
        GLProgram_transforms := GLProgram_transforms w; gl := gl w ++ [c] |}).

Notation "'let*' x ':=' c 'in' k" := (bind c (fun x => k))
  (at level 10, x name, c at level 100, k at level 200).
Notation "c '>>>' k" := (bind c (fun _ => k))
  (at level 100, k at level 200, right associativity).

(** [for (x of l) { body }], the loop-carried local variable threaded
    through the iterations. *)
Fixpoint for_each {A S} (l : list A) (body : A -> S -> M S) (s : S) : M S :=
  match l with
  | [] => ret s
  | x :: l' => let* s' := body x s in for_each l' body s'
  end.

Definition when (b : bool) (m : M unit) : M unit := if b then m else ret tt.

(** *** [GLProgram.addTransform], [GLProgram.removeTransform] *)

Definition set_GLProgram_transforms (v : Obj.t transform) : M unit :=
  fun w =>
    (Normal tt,
     {| this := this w; GLProgram_current := GLProgram_current w;
        GLProgram_defines := GLProgram_defines w;
        GLProgram_transforms := v; gl := gl w |}).

(** The sources held under a key: arrays as they are, a single source as a
    one-element array. *)
Definition sources_of (t : transform) : list text :=
  match t with
  | TransformArray l => l
  | TransformSource s => [s]
  end.

(** [GLProgram.transforms[key] || []], for a key that is a property of
    the table or no name of an inherited property ([own_name]). *)
Definition addTransform (key : text) (new : list text) : M unit :=
  let* w := get_world in
  match Obj.get (GLProgram_transforms w) key with
  | Some (TransformArray l) =>
      set_GLProgram_transforms (Obj.set (GLProgram_transforms w) key (TransformArray (l ++ new)))
  | Some (TransformSource (_ :: _)) =>
      (* a non-empty string is kept, and has no [push] *)
      throw (TypeError_not_a_function t<"push">)
  | Some (TransformSource []) | None =>
      set_GLProgram_transforms (Obj.set (GLProgram_transforms w) key (TransformArray new))
  end.

Definition removeTransform (key : text) : M unit :=
  let* w := get_world in
  set_GLProgram_transforms (Obj.set (GLProgram_transforms w) key (TransformArray [])).

(** *** [use] *)

Definition use : M unit :=
  let* p := get_this in
  if negb (compiled p) then ret tt
  else
    let* w := get_world in
    when (negb (bool_decide (GLProgram_current w = Some (id p))))
         (call (Call_useProgram (program p))) >>>
    set_current (Some (id p)).

(** *** [buildDefineList]: global, then program-specific *)

Definition buildDefineList : M (Obj.t define_value) :=
  let* w := get_world in
  let defines0 := foldl (fun acc '(d, v) => Obj.set acc d v) [] (GLProgram_defines w) in
  ret (foldl (fun acc '(d, v) => Obj.set acc d v) defines0 (defines (this w))).

(** *** [buildShaderTransformList]: global, then program-specific

    [transforms[d] || []] is read on the table built so far, for keys
    that are no names of inherited properties ([own_name]). *)

Definition buildShaderTransformList : M (Obj.t (list text)) :=
  let* w := get_world in
  let transforms0 :=
    foldl (fun acc '(d, t) => Obj.set acc d ([] ++ sources_of t))
          [] (GLProgram_transforms w) in
  ret (foldl (fun acc '(d, t) =>
                Obj.set acc d (default [] (Obj.get acc d) ++ sources_of t))
             transforms0 (transforms (this w))).

(** *** [GLProgram.buildDefineString] *)

(** [toFixed(1)] of an integer (below 10^21 in absolute value). *)
Definition toFixed1 (z : Z) : text := of_Z z ++ t<".0">.

Definition define_line (d : text) (v : define_value) : text :=
  match v with
  | DefBool false => []
  | DefBool true => t<"#define "> ++ d ++ [LF]
  | DefInt z => t<"#define "> ++ d ++ t<" "> ++ toFixed1 z ++ [LF]
  | DefOther s => t<"#define "> ++ d ++ t<" "> ++ s ++ [LF]
  end.

Definition buildDefineString (defines : Obj.t define_value) : text :=
  foldl (fun define_str '(d, v) => define_str ++ define_line d v) [] defines.

(** *** [ensureUniforms]

    [log.trace] only writes to the log and is left out.  The local
    [inject] caches [GLSL.defineUniform(name, uniforms[name])] between the
    two checks; the function being pure, both uses are written as the
    call. *)

Definition missing_in (shader : text) (name : text) : bool :=
  negb (GLSL_isUniformDefined name shader) && GLSL_isSymbolReferenced name shader.

Definition ensureUniforms (uniforms : option (Obj.t Value)) : M unit :=
  match uniforms with
  | None => ret tt
  | Some uniforms =>
      let* p := get_this in
      let vs := strip (computed_vertex_shader p) in
      let fs := strip (computed_fragment_shader p) in
      let '(vs_injections, fs_injections) :=
        foldl (fun '(vi, fi) '(name, value) =>
                 let inject := GLSL_defineUniform name value in
                 (if missing_in vs name then vi ++ [inject] else vi,
                  if missing_in fs name then fi ++ [inject] else fi))
              ([], []) uniforms in
      when (bool_decide (0 < length vs_injections))
           (modify_this (fun p =>
              set_computed_vertex_shader
                (join [LF] vs_injections ++ computed_vertex_shader p) p)) >>>
      when (bool_decide (0 < length fs_injections))
           (modify_this (fun p =>
              set_computed_fragment_shader
                (join [LF] fs_injections ++ computed_fragment_shader p) p))
  end.

(** *** [updateUniform], [uniform], [refreshUniforms], [refreshAttributes] *)

Definition updateUniform (name : text) : M unit :=
  let* p := get_this in
  if negb (compiled p) then ret tt
  else
    match Obj.get (uniforms p) name with
    | None => ret tt
    | Some uniform =>
        match uniform_location uniform with
        | None => ret tt
        | Some location =>
            use >>>
            if gl_has_method (uniform_method uniform)
            then call (Call_uniform (uniform_method uniform) location (uniform_values uniform))
            else throw (TypeError_not_a_function (uniform_method uniform))
        end
    end.

Definition uniform (method : text) (name : text) (values : list Value) : M unit :=
  let* p := get_this in
  if negb (compiled p) then ret tt
  else
    let old_location := Obj.get (uniforms p) name ≫= uniform_location in
    let* location :=
      match old_location with
      | Some l => ret (Some l)
      | None =>
          call (Call_getUniformLocation (program p) name) >>>
          ret (gl_getUniformLocation (program p) name)
      end in
    modify_this (fun p =>
      set_uniforms
        (Obj.set (uniforms p) name
           {| uniform_name := name; uniform_location := location;
              uniform_method := t<"uniform"> ++ method;
              uniform_values := values |}) p) >>>
    updateUniform name.

Definition refreshUniforms : M unit :=
  let* p := get_this in
  if negb (compiled p) then ret tt
  else
    for_each (Obj.keys (uniforms p))
      (fun u _ =>
         let* p := get_this in
         call (Call_getUniformLocation (program p) u) >>>
         modify_this (fun p =>
           match Obj.get (uniforms p) u with
           | Some e =>
               set_uniforms
                 (Obj.set (uniforms p) u
                    {| uniform_name := uniform_name e;
                       uniform_location := gl_getUniformLocation (program p) u;
                       uniform_method := uniform_method e;
                       uniform_values := uniform_values e |}) p
           | None => p
           end) >>>
         updateUniform u)
      tt.

Definition refreshAttributes : M unit :=
  modify_this (set_attribs []).

(** *** [setTextureUniform], [setUniforms] *)

Definition setTextureUniform (uniform_name : text) (texture_name : Value) : M unit :=
  let* w := get_world in
  when (negb (GLTexture_textures (gl w) texture_name))
       (call (Call_newTexture texture_name) >>> call (Call_loadTexture texture_name)) >>>
  let* p := get_this in
  call (Call_bindTexture texture_name (texture_unit p)) >>>
  uniform t<"1i"> uniform_name [Value_of_number (texture_unit p)] >>>
  modify_this (fun p => set_texture_unit (S (texture_unit p)) p).

Definition setUniforms (uniforms : Obj.t Value) (texture_unit : option nat) : M unit :=
  let* p := get_this in
  if negb (compiled p) then ret tt
  else
    modify_this (set_texture_unit (default 0 texture_unit)) >>>
    let parsed := GLSL_parseUniforms uniforms in
    for_each parsed
      (fun uniform_ _ =>
         if bool_decide (parsed_type uniform_ = t<"sampler2D">)
         then setTextureUniform (parsed_name uniform_) (parsed_value uniform_)
         else uniform (parsed_method uniform_) (parsed_name uniform_) [parsed_value uniform_])
      tt.

(** *** [compile] *)

(** The pattern [new RegExp('^\\s*#pragma\\s+tangram:\\s+' + key + '\\s*$', 'm')].
    The key is spliced into the pattern source; a key free of the
    metacharacters of the pattern language (see [regexp_literal]) stands
    for its own characters, and those are the keys the embedding covers. *)
Definition pragma_regexp (key : text) : RegExp.regexp :=
  [RegExp.Star RegExp.ClassSpace] ++ RegExp.lits t<"#pragma">
  ++ [RegExp.Plus RegExp.ClassSpace] ++ RegExp.lits t<"tangram:">
  ++ [RegExp.Plus RegExp.ClassSpace] ++ RegExp.lits key
  ++ [RegExp.Star RegExp.ClassSpace].

Definition regexp_metachar (c : ascii) : bool :=
  bool_decide (c ∈ t<"\^$.|?*+()[]{}">).

Definition regexp_literal (key : text) : bool :=
  forallb (fun c => negb (regexp_metachar c)) key.

(** The pattern [new RegExp('^\\s*#pragma\\s+tangram:\\s+\\w+\\s*$', 'gm')]. *)
Definition any_pragma_regexp : RegExp.regexp :=
  [RegExp.Star RegExp.ClassSpace] ++ RegExp.lits t<"#pragma">
  ++ [RegExp.Plus RegExp.ClassSpace] ++ RegExp.lits t<"tangram:">
  ++ [RegExp.Plus RegExp.ClassSpace] ++ [RegExp.Plus RegExp.ClassWord]
  ++ [RegExp.Star RegExp.ClassSpace].

(** [Array.prototype.reduce(callback)] without an initial value. *)
Definition reduce {A} (callback : A -> A -> A) (l : list A) : M A :=
  match l with
  | [] => throw TypeError_reduce_of_empty_array
  | x :: l' => ret (foldl callback x l')
  end.

(** [String.prototype.replace(' ', '_')]: the first space only. *)
Fixpoint replace_space (s : text) : text :=
  match s with
  | [] => []
  | c :: s' => if bool_decide (c = " "%char) then "_"%char :: s' else c :: replace_space s'
  end.

Definition transform_define (key : text) : text :=
  t<"TANGRAM_TRANSFORM_"> ++ toUpperCase (replace_space key).

(** The body of the loop [for (var key in transforms)].  [transform] is an
    array built by [buildShaderTransformList]; an array is truthy also when
    empty, so the guard [if (!transform) continue] lets every key through. *)
Definition inject_transform (entry : text * list text)
    (defines : Obj.t define_value) : M (Obj.t define_value) :=
  let '(key, transform) := entry in
  let regexp := pragma_regexp key in
  let* p := get_this in
  let inject_vertex := RegExp.matches regexp (computed_vertex_shader p) in
  let inject_fragment := RegExp.matches regexp (computed_fragment_shader p) in
  if negb inject_vertex && negb inject_fragment then ret defines
  else
    let* source := reduce (fun prev cur => prev ++ [LF] ++ cur) transform in
    when inject_vertex
         (modify_this (fun p =>
            set_computed_vertex_shader
              (RegExp.replace regexp source (computed_vertex_shader p)) p)) >>>
    when inject_fragment
         (modify_this (fun p =>
            set_computed_fragment_shader
              (RegExp.replace regexp source (computed_fragment_shader p)) p)) >>>
    ret (Obj.set defines (transform_define key) (DefBool true)).

(** Clean-up of the pragmas that were not replaced. *)
Definition strip_pragmas : M unit :=
  modify_this (fun p =>
    set_computed_vertex_shader
      (RegExp.remove_all any_pragma_regexp (computed_vertex_shader p)) p) >>>
  modify_this (fun p =>
    set_computed_fragment_shader
      (RegExp.remove_all any_pragma_regexp (computed_fragment_shader p)) p).

Definition prepend (prefix : text) : M unit :=
  modify_this (fun p =>
    set_computed_vertex_shader (prefix ++ computed_vertex_shader p) p) >>>
  modify_this (fun p =>
    set_computed_fragment_shader (prefix ++ computed_fragment_shader p) p).

(** [this.name ? (this.name + ' / id ' + this.id) : ('id ' + this.id)];
    the empty name is falsy. *)
Definition info (p : Program) : text :=
  match name p with
  | Some (c :: n) => (c :: n) ++ t<" / id "> ++ of_nat (id p)
  | Some [] | None => t<"id "> ++ of_nat (id p)
  end.

Definition compile : M unit :=
  let* p := get_this in
  if compiling p then throw (Error_already_compiling (id p) (name p))
  else
    modify_this (set_compiling true) >>>
    modify_this (set_compiled false) >>>
    (* Copy sources from pre-modified template *)
    modify_this (fun p => set_computed_vertex_shader (vertex_shader p) p) >>>
    modify_this (fun p => set_computed_fragment_shader (fragment_shader p) p) >>>
    (* Make list of defines to be injected later *)
    let* defines := buildDefineList in
    (* Gather and inject the transform code snippets *)
    let* transforms := buildShaderTransformList in
    let* defines := for_each transforms inject_transform defines in
    (* Clean-up any #pragmas that weren't replaced *)
    strip_pragmas >>>
    (* Build & inject defines *)
    prepend (buildDefineString defines) >>>
    (* Detect uniform definitions, inject any missing ones *)
    ensureUniforms (dependent_uniforms p) >>>
    (* Include program info useful for debugging *)
    prepend (t<"// Program: "> ++ info p ++ [LF]) >>>
    (* Compile & set uniforms to cached values *)
    try_catch
      (let* p := get_this in
       call (Call_updateProgram (program p) (computed_vertex_shader p)
                                (computed_fragment_shader p)) >>>
       match GL_updateProgram (program p) (computed_vertex_shader p)
                              (computed_fragment_shader p) with
       | Some linked =>
           modify_this (set_program (Some linked)) >>>
           modify_this (set_compiled true) >>>
           modify_this (set_compiling false)
       | None => throw Error_updateProgram
       end)
      (fun _ =>
         modify_this (set_program None) >>>
         modify_this (set_compiled false) >>>
         modify_this (set_compiling false) >>>
         let* p := get_this in
         throw (Error_compile (id p) (name p))) >>>
    use >>>
    refreshUniforms >>>
    refreshAttributes.


(** The phases of [compile], named for the statements about it:
    the reset and the injection loop, the rewriting of the computed
    sources that follows it, and the [try]/[catch] around
    [GL.updateProgram]. *)
Definition compile_inject : M (Obj.t define_value) :=
  modify_this (set_compiling true) >>>
  modify_this (set_compiled false) >>>
  modify_this (fun p => set_computed_vertex_shader (vertex_shader p) p) >>>
  modify_this (fun p => set_computed_fragment_shader (fragment_shader p) p) >>>
  let* defines := buildDefineList in
  let* transforms := buildShaderTransformList in
  for_each transforms inject_transform defines.

Definition compile_sources (p : Program) (defines : Obj.t define_value) : M unit :=
  strip_pragmas >>>
  prepend (buildDefineString defines) >>>
  ensureUniforms (dependent_uniforms p) >>>
  prepend (t<"// Program: "> ++ info p ++ [LF]).

Definition compile_link : M unit :=
  try_catch
    (let* p := get_this in
     call (Call_updateProgram (program p) (computed_vertex_shader p)
                              (computed_fragment_shader p)) >>>
     match GL_updateProgram (program p) (computed_vertex_shader p)
                            (computed_fragment_shader p) with
     | Some linked =>
         modify_this (set_program (Some linked)) >>>
         modify_this (set_compiled true) >>>
         modify_this (set_compiling false)
     | None => throw Error_updateProgram
     end)
    (fun _ =>
       modify_this (set_program None) >>>
       modify_this (set_compiled false) >>>
       modify_this (set_compiling false) >>>
       let* p := get_this in
       throw (Error_compile (id p) (name p))).

(** *** Vocabulary of the statements *)

Definition spaces (w : text) : Prop := Forall (fun c => is_space c = true) w.

(** An injection marker for [key]: [#pragma tangram: key], with white
    space where the pattern allows it. *)
Definition pragma_marker (key m : text) : Prop :=
  exists a b c d,
    m = a ++ t<"#pragma"> ++ b ++ t<"tangram:"> ++ c ++ key ++ d
    /\ spaces a /\ spaces b /\ b <> [] /\ spaces c /\ c <> [] /\ spaces d.

(** A key made of word characters, [\w+]. *)
Definition word_key (key : text) : Prop :=
  key <> [] /\ Forall (fun c => is_word c = true) key.

(** The declarations synthesized for the entries of [uniforms] that
    [shader] references without declaring, in the order of [uniforms]. *)
Definition declarations (shader : text) (uniforms : Obj.t Value) : list text :=
  omap (fun '(name, value) =>
          if missing_in shader name then Some (GLSL_defineUniform name value) else None)
       uniforms.

Definition prepend_declarations (decls : list text) (shader : text) : text :=
  match decls with
  | [] => shader
  | _ :: _ => join [LF] decls ++ shader
  end.

(** What a compilation is given: the templates, the registries and the
    identity of the program. *)
Definition inputs (w : World) :=
  (vertex_shader (this w), fragment_shader (this w), defines (this w),
   transforms (this w), dependent_uniforms (this w), id (this w), name (this w),
   GLProgram_defines w, GLProgram_transforms w).

Definition computed (w : World) : text * text :=
  (computed_vertex_shader (this w), computed_fragment_shader (this w)).


(** *** Reading [compile] on the computed sources

    The definitions below restate, on the pair of computed sources alone,
    what the injection loop and the steps after it do; the theorems relate
    them to [compile]. *)

Definition with_this (p : Program) (w : World) : World :=
  {| this := p; GLProgram_current := GLProgram_current w;
     GLProgram_defines := GLProgram_defines w;
     GLProgram_transforms := GLProgram_transforms w; gl := gl w |}.

Definition with_computed (vf : text * text) (w : World) : World :=
  with_this (set_computed_fragment_shader vf.2 (set_computed_vertex_shader vf.1 (this w))) w.

(** The callback of [reduce] in the injection loop. *)
Definition join_sources (prev cur : text) : text := prev ++ [LF] ++ cur.

Fixpoint inject_texts (l : list (text * list text)) (d : Obj.t define_value)
    (vf : text * text) : completion (Obj.t define_value) * (text * text) :=
  match l with
  | [] => (Normal d, vf)
  | (key, transform) :: l' =>
      let regexp := pragma_regexp key in
      if negb (RegExp.matches regexp vf.1) && negb (RegExp.matches regexp vf.2)
      then inject_texts l' d vf
      else
        match transform with
        | [] => (Throw TypeError_reduce_of_empty_array, vf)
        | x :: xs =>
            let source := foldl join_sources x xs in
            inject_texts l' (Obj.set d (transform_define key) (DefBool true))
              (RegExp.replace regexp source vf.1, RegExp.replace regexp source vf.2)
        end
  end.

Definition merged_defines (w : World) : Obj.t define_value :=
  foldl (fun acc '(d, v) => Obj.set acc d v)
        (foldl (fun acc '(d, v) => Obj.set acc d v) [] (GLProgram_defines w))
        (defines (this w)).

Definition merged_transforms (w : World) : Obj.t (list text) :=
  foldl (fun acc '(d, t) => Obj.set acc d (default [] (Obj.get acc d) ++ sources_of t))
        (foldl (fun acc '(d, t) => Obj.set acc d ([] ++ sources_of t))
               [] (GLProgram_transforms w))
        (transforms (this w)).

(** The sources registered under [key] in a table, none when absent. *)
Definition sources_at (o : Obj.t transform) (key : text) : list text :=
  default [] (sources_of <$> Obj.get o key).

(** The identifying comment put on top of both sources. *)
Definition comment (p : Program) : text := t<"// Program: "> ++ info p ++ [LF].

Definition finish_texts (p : Program) (d : Obj.t define_value)
    (vf : text * text) : text * text :=
  let v := buildDefineString d ++ RegExp.remove_all any_pragma_regexp vf.1 in
  let f := buildDefineString d ++ RegExp.remove_all any_pragma_regexp vf.2 in
  match dependent_uniforms p with
  | None => (comment p ++ v, comment p ++ f)
  | Some us =>
      (comment p ++ prepend_declarations (declarations (strip v) us) v,
       comment p ++ prepend_declarations (declarations (strip f) us) f)
  end.

(** The text [compile] leaves in front of the stripped template [body]:
    the program comment, the synthesized declarations, the defines. *)
Definition prefix_text (p : Program) (d : Obj.t define_value) (body : text) : text :=
  comment p
  ++ match dependent_uniforms p with
     | None => []
     | Some us =>
         match declarations (strip (buildDefineString d ++ body)) us with
         | [] => []
         | decls => join [LF] decls
         end
     end
  ++ buildDefineString d.

(** A line that the clean-up pattern matches. *)
Definition pragma_line (l : text) : bool :=
  bool_decide (is_Some (RegExp.match_here any_pragma_regexp l)).

(** A text that is empty or ends with a line terminator. *)
Definition ends_line (s : text) : bool :=
  match last s with
  | Some c => is_line_terminator c
  | None => true
  end.

(** A marker line for [key]: a marker [m] that starts where a line starts
    and ends where a line ends, [before] and [after] being the text around
    it. *)
Definition marker_at (key before m after : text) : Prop :=
  ends_line before = true /\ pragma_marker key m /\ RegExp.at_eol after = true.

(** [s] has a marker line for [key]. *)
Definition marker_line (key s : text) : Prop :=
  exists before m after, s = before ++ m ++ after /\ marker_at key before m after.

(** [s'] is [s] with its first marker line for [key] replaced by the
    substitution of [source]: no marker line for [key] starts before the
    one replaced, which is taken with the white space that the pattern
    takes from where it starts. *)
Definition first_marker_replaced (key source s s' : text) : Prop :=
  exists before m after,
    s = before ++ m ++ after
    /\ marker_at key before m after
    /\ (forall before' m' after',
          s = before' ++ m' ++ after' -> marker_at key before' m' after' ->
          length before <= length before')
    /\ RegExp.match_here (pragma_regexp key) (m ++ after) = Some (length m)
    /\ s' = before ++ RegExp.GetSubstitution m before after source ++ after.

(** A key that is no name of an inherited property: [transforms[key]] on
    a table without that key is [undefined]. *)
Definition own_name (key : text) : Prop :=
  inherited (string_of_list_ascii key) = false.

(** The keys of the two transform tables. *)
Definition transform_keys (w : World) : list text :=
  Obj.keys (GLProgram_transforms w) ++ Obj.keys (transforms (this w)).

(** Every key of the transform tables stands for its own characters in
    the pattern [compile] builds from it, and is no name of an inherited
    property. *)
Definition plain_keys (w : World) : Prop :=
  Forall (fun key => regexp_literal key = true /\ own_name key) (transform_keys w).

(** The world at the start of the injection loop. *)
Definition reset (w : World) : World :=
  with_computed (vertex_shader (this w), fragment_shader (this w))
    (with_this (set_compiled false (set_compiling true (this w))) w).

(** What [compile] runs once the sources are final. *)
Definition after_sources : M unit :=
  bind compile_link
    (fun _ => bind use (fun _ => bind refreshUniforms (fun _ => refreshAttributes))).

(** The part of the world that only the source rewriting of [compile]
    writes: the inputs, the computed sources and the [compiling] flag. *)
Definition texts (w : World) := (inputs w, computed w, compiling (this w)).

(** A computation that leaves a projection of the world as it found it. *)
Definition keeps {A B} (proj : World -> B) (m : M A) : Prop :=
  forall w, proj (m w).2 = proj w.

End Program.
End GLProgram.

(** ** A sample environment

    One instance of the imports and a few programs, for the examples. *)

Module Sample.
Import Text GLProgram.

(** [toUpperCase] on ASCII text. *)
Definition ascii_upper (c : ascii) : ascii :=
  if (97 <=? code c)%N && (code c <=? 122)%N then ascii_of_N (code c - 32) else c.

Fixpoint starts_with (prefix s : text) : bool :=
  match prefix, s with
  | [], _ => true
  | _ :: _, [] => false
  | a :: prefix', b :: s' => bool_decide (a = b) && starts_with prefix' s'
  end.

Fixpoint occurs (needle s : text) : bool :=
  starts_with needle s ||
  match s with
  | [] => false
  | _ :: s' => occurs needle s'
  end.

Definition imports : Imports := {|
  Value := Z;
  Value_of_number := Z.of_nat;
  strip := fun s => s;
  GLSL_isUniformDefined := fun name s => occurs (t<"uniform float "> ++ name) s;
  GLSL_isSymbolReferenced := fun name s => occurs name s;
  GLSL_defineUniform := fun name _ => t<"uniform float "> ++ name ++ t<";"> ++ [LF];
  GLSL_parseUniforms := fun us =>
    map (fun '(n, v) => {| parsed_type := t<"float">; parsed_method := t<"1f">;
                           parsed_name := n; parsed_value := v |}) us;
  GL_updateProgram := fun _ _ _ => Some 1;
  gl_getUniformLocation := fun _ _ => Some 0;
  gl_has_method := fun _ => true;
  GLTexture_textures := fun _ _ => false;
  toUpperCase := map ascii_upper;
|}.

#[local] Existing Instance imports.

(** A program as the constructor leaves it before its first [compile]. *)
Definition new_program (vertex fragment : text)
    (transforms_ : Obj.t transform) (uniforms_ : option (Obj.t Value)) : Program :=
  {| program := None; compiled := false; compiling := false;
     defines := []; transforms := transforms_; dependent_uniforms := uniforms_;
     uniforms := []; attribs := [];
     vertex_shader := vertex; fragment_shader := fragment;
     id := 0; name := None;
     computed_vertex_shader := []; computed_fragment_shader := [];
     texture_unit := 0 |}.

Definition world (p : @Program imports) (global_transforms : Obj.t transform)
    : World :=
  {| this := p; GLProgram_current := None; GLProgram_defines := [];
     GLProgram_transforms := global_transforms; gl := [] |}.

Definition main : text := t<"void main() { }">.

(** A program with no transform and no dependent uniform. *)
Definition plain : World := world (new_program main main [] None) [].

(** A program whose vertex template has the [globals] injection point, and
    one global transform registered for it. *)
Definition with_globals : World :=
  world (new_program (t<"#pragma tangram: globals"> ++ [LF] ++ main) main [] None)
        [(t<"globals">, TransformArray [t<"vec3 hsv2rgb(vec3 c);">])].

(** A program with a [fragment] transform of its own, and a template with
    that injection point and one without a transform. *)
Definition rainbow : World :=
  world (new_program
           (t<"#pragma tangram: vertex"> ++ [LF] ++ main)
           (t<"void main() {"> ++ [LF] ++ t<"  #pragma tangram: fragment"> ++ [LF] ++ t<"}">)
           [(t<"fragment">, TransformSource t<"color.rgb = hsv2rgb(c);">)] None) [].

(** A template marker whose key is not made of word characters. *)
Definition dashed : World :=
  world (new_program (t<"#pragma tangram: my-key"> ++ [LF] ++ main) main [] None) [].

(** A transform registered under a key with a space. *)
Definition spaced : World :=
  world (new_program (t<"#pragma tangram: my key">) main
           [(t<"my key">, TransformSource t<"x">)] None) [].

(** A dependent uniform referenced by the fragment template only. *)
Definition dots : World :=
  world (new_program main
           (t<"void main() { float s = u_dot_scale; }">)
           [] (Some [(t<"u_dot_scale">, 7%Z)])) [].

End Sample.

(** ** Tile *)

Module Tile.

(** The result of a call that may throw a [TypeError]. *)
Inductive outcome (A : Type) :=
| Returns (a : A)
| TypeError.
Arguments Returns {A}.
Arguments TypeError {A}.

Definition and_then {A B} (r : outcome A) (k : A -> outcome B) : outcome B :=
  match r with
  | Returns a => k a
  | TypeError => TypeError
  end.

Section Tile.
(** Numbers (draw order), coordinate payloads, feature properties, rule
    properties, parse contexts, parsed feature styles, growing vertex data
    and finished buffers are opaque to this file. *)
Context {Num Polygon Line Point Properties RuleProperties BaseContext
         StyleInfo VertexData Buffer RuleTree : Type}.
(** [a < b] on numbers. *)
Context (num_lt : Num -> Num -> bool).

Inductive Geometry :=
| GPolygon (coordinates : Polygon)
| GMultiPolygon (coordinates : list Polygon)
| GLineString (coordinates : Line)
| GMultiLineString (coordinates : list Line)
| GPoint (coordinates : Point)
| GMultiPoint (coordinates : list Point)
| GOther (type : string).

Record Feature := {
  properties : Properties;
  geometry : Geometry;
  layer : option string;
}.

(** A feature is an object: the loop of [buildGeometry] writes its [layer]
    property, and the features of [tile.layers] are the objects the tile
    holds.  They are kept by identity in [objects]; a collection of
    [tile.layers] lists the identities of its features. *)
Definition loc := nat.

Record SubLayer := {
  sublayer_type : string;
  sublayer_features : list loc;
}.

(** An element of [geom.features]: an object the tile holds, or an object
    that a filter function made. *)
Inductive FeatureRef :=
| Held (l : loc)
| Made (feature : Feature).

Record FeatureCollection := {
  type : string;
  features : list FeatureRef;
}.

(** [source.filter]: a string, a function over the raw layers (its result,
    or [None] for a falsy one), or anything else.  The function is given
    [tile.layers], which is [None] when the tile has none, and reads the
    features through [objects]. *)
Inductive Filter :=
| FilterString (name : string)
| FilterFunction (f : option (gmap string SubLayer) -> (loc -> Feature) ->
                      option FeatureCollection)
| FilterOther.

Record Source := { filter : Filter }.

(** [layers] is [None] on a tile whose source has not stored its data: the
    constructor sets no [layers]. *)
Record Tile := {
  key : string;
  layers : option (gmap string SubLayer);
  objects : loc -> Feature;
  debug_rendering : Z;
  debug_features : nat;
  order_min : Num;
  order_max : Num;
  vertex_data : gmap string Buffer;
}.

(** *** [Tile.getGeometryForSource] *)

Definition empty_collection : FeatureCollection :=
  {| type := "FeatureCollection"; features := [] |}.

(** The collection [tile.layers[name]], its features by identity. *)
Definition held (c : SubLayer) : FeatureCollection :=
  {| type := sublayer_type c; features := Held <$> sublayer_features c |}.

(** What [getGeometryForSource] returns: a feature collection, or, for a
    string filter that names no sub-layer but a property every object
    inherits, the inherited value (a function of [Object.prototype]). *)
Inductive Fetched :=
| Collection (c : FeatureCollection)
| Inherited (name : string).

Definition getGeometryForSource (tile : Tile) (source : option Source) : outcome Fetched :=
  and_then
    match source with
    | Some source =>
        match filter source with
        | FilterString name =>
            match layers tile with
            | None => TypeError  (* [tile.layers] is undefined *)
            | Some layers_ =>
                Returns
                  match layers_ !! name with
                  | Some c => Some (Collection (held c))
                  | None => if inherited name then Some (Inherited name) else None
                  end
            end
        | FilterFunction f => Returns (Collection <$> f (layers tile) (objects tile))
        | FilterOther => Returns None
        end
    | None => Returns None
    end
    (fun geom =>
       (* geom = geom || { type: 'FeatureCollection', features: [] } *)
       Returns (default (Collection empty_collection) geom)).

(** The descriptors [getGeometryForSource] resolves to a collection: a
    string filter asks for a tile that has its layers and for a name that
    is a sub-layer or is no inherited property; the others ask nothing. *)
Definition resolvable (tile : Tile) (source : option Source) : Prop :=
  match source with
  | Some {| filter := FilterString name |} =>
      exists layers_, layers tile = Some layers_
        /\ (is_Some (layers_ !! name) \/ inherited name = false)
  | _ => True
  end.

(** *** [Tile.buildGeometry] *)

Record Context := {
  base : BaseContext;
  style_properties : option RuleProperties;
}.

(** [rule.name]: absent, a string, or a function of the context. *)
Inductive RuleName :=
| NameAbsent
| NameString (s : string)
| NameFunction (f : Context -> option string).

Record MatchedRule := {
  visible : bool;
  rule_properties : RuleProperties;
  rule_name : RuleName;
}.

Record FeatureStyle := {
  order : Num;
  feature_style_layer : option Num;
  info : StyleInfo;
}.

(** A style: its name and the methods [buildGeometry] calls on it. *)
Record Style := {
  name : string;
  parseFeature : Feature -> MatchedRule -> Tile -> Context -> option FeatureStyle;
  createVertexData : VertexData;
  buildPolygons : list Polygon -> FeatureStyle -> VertexData -> VertexData;
  buildLines : list Line -> FeatureStyle -> VertexData -> VertexData;
  buildPoints : list Point -> FeatureStyle -> VertexData -> VertexData;
}.

Record Layer := { layer_geometry : option Source }.

(** [StyleParser.getFeatureParseContext], [StyleParser.defaults.style.name],
    [rule.matchFeature(context, matchedRules)] (the rules it leaves in
    [matchedRules]) and [vertex_data.end().buffer]. *)
Context (getFeatureParseContext : Feature -> Tile -> BaseContext)
        (default_style_name : string)
        (matchFeature : RuleTree -> Context -> list MatchedRule -> list MatchedRule)
        (end_buffer : VertexData -> Buffer).

Definition set_order_min v (t : Tile) : Tile :=
  {| key := key t; layers := layers t; objects := objects t;
     debug_rendering := debug_rendering t; debug_features := debug_features t;
     order_min := v; order_max := order_max t; vertex_data := vertex_data t |}.

Definition set_order_max v (t : Tile) : Tile :=
  {| key := key t; layers := layers t; objects := objects t;
     debug_rendering := debug_rendering t; debug_features := debug_features t;
     order_min := order_min t; order_max := v; vertex_data := vertex_data t |}.

Definition set_debug_features v (t : Tile) : Tile :=
  {| key := key t; layers := layers t; objects := objects t;
     debug_rendering := debug_rendering t; debug_features := v;
     order_min := order_min t; order_max := order_max t; vertex_data := vertex_data t |}.

Definition set_debug_rendering v (t : Tile) : Tile :=
  {| key := key t; layers := layers t; objects := objects t;
     debug_rendering := v; debug_features := debug_features t;
     order_min := order_min t; order_max := order_max t; vertex_data := vertex_data t |}.

Definition set_vertex_data v (t : Tile) : Tile :=
  {| key := key t; layers := layers t; objects := objects t;
     debug_rendering := debug_rendering t; debug_features := debug_features t;
     order_min := order_min t; order_max := order_max t; vertex_data := v |}.

Definition set_objects v (t : Tile) : Tile :=
  {| key := key t; layers := layers t; objects := v;
     debug_rendering := debug_rendering t; debug_features := debug_features t;
     order_min := order_min t; order_max := order_max t; vertex_data := vertex_data t |}.

(** What the loops of [buildGeometry] carry: the tile, the local
    [vertex_data] and, inside a feature, its parse context. *)
Record Build := {
  tile : Tile;
  build_vertex_data : gmap string VertexData;
}.

(** The style name of a matched rule: [rule.name], called when it is a
    function, and the default when the result is falsy. *)
Definition resolve_style_name (rule : MatchedRule) (context : Context) : string :=
  let style_name :=
    match rule_name rule with
    | NameAbsent => None
    | NameString s => Some s
    | NameFunction f => f context
    end in
  match style_name with
  | Some (String c s) => String c s
  | Some EmptyString | None => default_style_name
  end.

Definition build_geometry (style : Style) (g : Geometry) (fs : FeatureStyle)
    (v : VertexData) : VertexData :=
  match g with
  | GPolygon c => buildPolygons style [c] fs v
  | GMultiPolygon c => buildPolygons style c fs v
  | GLineString c => buildLines style [c] fs v
  | GMultiLineString c => buildLines style c fs v
  | GPoint c => buildPoints style [c] fs v
  | GMultiPoint c => buildPoints style c fs v
  | GOther _ => v
  end.

(** The body of [for (var rule of matchedRules)]. *)
Definition render_rule (styles : gmap string Style) (feature : Feature)
    (rule : MatchedRule) (st : Build * Context) : outcome (Build * Context) :=
  let '(b, context) := st in
  if negb (visible rule) then Returns st
  else
    let context := {| base := base context;
                      style_properties := Some (rule_properties rule) |} in
    let style_name := resolve_style_name rule context in
    match styles !! style_name with
    | None => TypeError  (* [style] is undefined: [style.parseFeature] throws *)
    | Some style =>
        match parseFeature style feature rule (tile b) context with
        | None => Returns (b, context)
        | Some feature_style =>
            let t := tile b in
            let t := if num_lt (order feature_style) (order_min t)
                     then set_order_min (order feature_style) t else t in
            let t := if num_lt (order_max t) (order feature_style)
                     then set_order_max (order feature_style) t else t in
            let vd := build_vertex_data b in
            let style_vertex_data :=
              default (createVertexData style) (vd !! name style) in
            let feature_style :=
              {| order := order feature_style;
                 feature_style_layer := Some (order feature_style);
                 info := info feature_style |} in
            let style_vertex_data :=
              build_geometry style (geometry feature) feature_style style_vertex_data in
            Returns ({| tile := t;
                        build_vertex_data := <[name style := style_vertex_data]> vd |},
                     context)
        end
    end.

Fixpoint render_rules (styles : gmap string Style) (feature : Feature)
    (matchedRules : list MatchedRule) (st : Build * Context) : outcome (Build * Context) :=
  match matchedRules with
  | [] => Returns st
  | rule :: rest =>
      and_then (render_rule styles feature rule st) (render_rules styles feature rest)
  end.

(** The rules matched by a feature: every rule tree of the layer adds its
    matches. *)
Definition match_rules (layer_rules : list RuleTree) (context : Context) : list MatchedRule :=
  foldl (fun matchedRules r => matchFeature r context matchedRules) [] layer_rules.

(** The objects with the one at [l] replaced. *)
Definition store (l : loc) (feature : Feature) (objects : loc -> Feature) : loc -> Feature :=
  fun l' => if bool_decide (l' = l) then feature else objects l'.

Definition set_layer (name : string) (feature : Feature) : Feature :=
  {| properties := properties feature; geometry := geometry feature;
     layer := Some name |}.

(** [feature = geom.features[f]; feature.layer = name]: the feature as the
    rest of the turn reads it, and the tile once the property is written.
    Writing it on an object the tile holds changes the tile. *)
Definition label_feature (name : string) (r : FeatureRef) (t : Tile) : Feature * Tile :=
  match r with
  | Held l =>
      let feature := set_layer name (objects t l) in
      (feature, set_objects (store l feature (objects t)) t)
  | Made feature => (set_layer name feature, t)
  end.

(** The body of the loop over the features of a layer. *)
Definition build_feature (styles : gmap string Style) (layer_rules : list RuleTree)
    (name : string) (r : FeatureRef) (b : Build) : outcome Build :=
  let feature := (label_feature name r (tile b)).1 in
  let t := (label_feature name r (tile b)).2 in
  let context := {| base := getFeatureParseContext feature t;
                    style_properties := None |} in
  let matchedRules := match_rules layer_rules context in
  and_then (render_rules styles feature matchedRules
              ({| tile := t; build_vertex_data := build_vertex_data b |}, context))
    (fun '(b, _) =>
       Returns {| tile := set_debug_features (S (debug_features (tile b))) (tile b);
                  build_vertex_data := build_vertex_data b |}).

Fixpoint build_features (styles : gmap string Style) (layer_rules : list RuleTree)
    (name : string) (fs : list FeatureRef) (b : Build) : outcome Build :=
  match fs with
  | [] => Returns b
  | feature :: rest =>
      and_then (build_feature styles layer_rules name feature b)
               (build_features styles layer_rules name rest)
  end.

(** The body of the loop over the layers. *)
Definition build_layer (rules : gmap string (list RuleTree)) (styles : gmap string Style)
    (entry : string * Layer) (b : Build) : outcome Build :=
  let '(name, layer) := entry in
  match layer_geometry layer with
  | None => Returns b  (* Skip layers with no geometry defined *)
  | Some source =>
      and_then (getGeometryForSource (tile b) (Some source))
        (fun geom =>
           match geom with
           | Collection geom =>
               (* in reverse order - aka top to bottom *)
               build_features styles (default [] (rules !! name)) name
                 (rev (features geom)) b
           | Inherited _ => TypeError  (* [geom.features] is undefined *)
           end)
  end.

Fixpoint build_layers (rules : gmap string (list RuleTree)) (styles : gmap string Style)
    (ls : list (string * Layer)) (b : Build) : outcome Build :=
  match ls with
  | [] => Returns b
  | entry :: rest =>
      and_then (build_layer rules styles entry b) (build_layers rules styles rest)
  end.

(** [started] and [finished] are the two readings of the clock.  The source
    returns the constant [{ vertex_data: true }]; the embedding returns the
    tile as the call leaves it. *)
Definition buildGeometry (started finished : Z) (tile0 : Tile)
    (layers_ : list (string * Layer)) (rules : gmap string (list RuleTree))
    (styles : gmap string Style) : outcome Tile :=
  let t := set_debug_features 0 (set_debug_rendering started tile0) in
  and_then (build_layers rules styles layers_ {| tile := t; build_vertex_data := ∅ |})
    (fun b =>
       (* Finalize array buffer for each render style *)
       let t := set_vertex_data (end_buffer <$> build_vertex_data b) (tile b) in
       Returns (set_debug_rendering (finished - debug_rendering t)%Z t)).

(** The tile after the turns of the feature loop have written [layer] on
    the features [refs], whatever else the turns do. *)
Definition label_features (name : string) (refs : list FeatureRef) (t : Tile) : Tile :=
  foldl (fun t r => (label_feature name r t).2) t refs.

(** The number of features [buildGeometry] walks: those of every layer
    with a geometry source, each resolved on the tile as the layers before
    it leave it. *)
Fixpoint features_walked (t : Tile) (layers_ : list (string * Layer)) : nat :=
  match layers_ with
  | [] => 0
  | (name, layer) :: rest =>
      match layer_geometry layer with
      | None => features_walked t rest
      | Some source =>
          match getGeometryForSource t (Some source) with
          | Returns (Collection geom) =>
              length (features geom)
              + features_walked (label_features name (rev (features geom)) t) rest
          | _ => 0
          end
      end
  end.

(** *** [merge]

    [merge] treats the tile as a bag of properties; here the tile and the
    other object are the maps from their property names to the values. *)
Definition merge {V} (this other : gmap string V) : gmap string V :=
  map_fold (fun key v this =>
              if bool_decide (key ≠ "key"%string) then <[key:=v]> this else this)
           this other.

End Tile.
End Tile.

(** ** A sample tile *)

Module TileSample.
Import Tile.

Definition feature : @Feature unit unit (Z * Z) unit :=
  {| properties := tt; geometry := GPoint (3%Z, 4%Z); layer := None |}.

(** A tile with one feature, in its [roads] sub-layer. *)
Definition tile : @Tile.Tile Z unit unit (Z * Z) unit (list Z) :=
  {| key := "1/2/3";
     layers := Some {[ "roads"%string :=
                         {| sublayer_type := "FeatureCollection";
                            sublayer_features := [0] |} ]};
     objects := fun _ => feature;
     debug_rendering := 0%Z; debug_features := 0;
     order_min := 1000%Z; order_max := (-1000)%Z;
     vertex_data := ∅ |}.

(** The same tile before its source has stored the layers. *)
Definition unloaded : @Tile.Tile Z unit unit (Z * Z) unit (list Z) :=
  {| key := "1/2/3"; layers := None; objects := fun _ => feature;
     debug_rendering := 0%Z; debug_features := 0;
     order_min := 1000%Z; order_max := (-1000)%Z;
     vertex_data := ∅ |}.

(** Rule trees that match no feature. *)
Definition matchFeature (r : unit) (c : @Context unit unit)
    (matchedRules : list (@MatchedRule unit unit)) : list (@MatchedRule unit unit) :=
  matchedRules.

Definition getFeatureParseContext (f : @Feature unit unit (Z * Z) unit)
    (t : @Tile.Tile Z unit unit (Z * Z) unit (list Z)) : unit := tt.

(** No style is defined. *)
Definition styles : gmap string (@Style Z unit unit (Z * Z) unit unit unit unit (list Z) (list Z)) := ∅.

Definition build : @Build Z unit unit (Z * Z) unit (list Z) (list Z) :=
  {| Tile.tile := tile; build_vertex_data := ∅ |}.

End TileSample.

(** ** What the statements about the uniform cache and the calls observe *)

Module Observe.
Import Text GLProgram.

(** A define that [buildDefineString] leaves out. *)
Definition is_false (v : define_value) : bool :=
  match v with
  | DefBool false => true
  | _ => false
  end.

Section Observe.
Context `{Imports}.

(** A computation that keeps an invariant of the world, however it
    completes. *)
Definition maintains {A} (I : World -> Prop) (m : M A) : Prop :=
  forall w, I w -> I (m w).2.

(** The program is linked as [linked], compiled and current. *)
Definition linked_as (linked : WebGLProgram) (w : World) : Prop :=
  program (this w) = Some linked /\ compiled (this w) = true
  /\ compiling (this w) = false /\ GLProgram_current w = Some (id (this w)).

(** The call [use] makes on the graphics context, if any. *)
Definition use_calls (w : World) : list (GLCall Value) :=
  if bool_decide (GLProgram_current w = Some (id (this w))) then []
  else [Call_useProgram (program (this w))].

(** What [refreshUniforms] does not change in an entry of the cache. *)
Definition cached (u : Uniform) : text * text * list Value :=
  (uniform_name u, uniform_method u, uniform_values u).

(** The setter calls among the calls on the graphics context. *)
Definition pushed (c : GLCall Value) : option (text * WebGLUniformLocation * list Value) :=
  match c with
  | Call_uniform method location values => Some (method, location, values)
  | _ => None
  end.

(** The texture binds among the calls on the graphics context. *)
Definition bound (c : GLCall Value) : option (Value * nat) :=
  match c with
  | Call_bindTexture name unit => Some (name, unit)
  | _ => None
  end.

(** The body of the loop of [refreshUniforms]. *)
Definition refresh_entry (u : text) (_ : unit) : M unit :=
  bind get_this (fun p =>
  bind (call (Call_getUniformLocation (program p) u)) (fun _ =>
  bind (modify_this (fun p =>
          match Obj.get (uniforms p) u with
          | Some e =>
              set_uniforms
                (Obj.set (uniforms p) u
                   {| uniform_name := uniform_name e;
                      uniform_location := gl_getUniformLocation (program p) u;
                      uniform_method := uniform_method e;
                      uniform_values := uniform_values e |}) p
          | None => p
          end)) (fun _ =>
  updateUniform u))).

(** The body of the loop of [setUniforms]. *)
Definition set_parsed (uniform_ : ParsedUniform Value) (_ : unit) : M unit :=
  if bool_decide (parsed_type uniform_ = t<"sampler2D">)
  then setTextureUniform (parsed_name uniform_) (parsed_value uniform_)
  else uniform (parsed_method uniform_) (parsed_name uniform_) [parsed_value uniform_].

(** The sampler entries of a parsed uniform list. *)
Definition samplers (parsed : list (ParsedUniform Value)) : list (ParsedUniform Value) :=
  base.filter (fun u => parsed_type u = t<"sampler2D">) parsed.

(** The textures of the samplers, each with the unit it is bound to when
    the units are handed out from [first]. *)
Definition bound_units (first : nat) (l : list (ParsedUniform Value)) : list (Value * nat) :=
  zip (map parsed_value (samplers l)) (seq first (length (samplers l))).

(** What the source rewriting of [compile] leaves alone. *)
Definition kept (w : World) :=
  (program (this w), uniforms (this w), id (this w), name (this w),
   GLProgram_current w, gl w).

(** The part of the world that only the texture setters write. *)
Definition units (w : World) :=
  (compiled (this w), texture_unit (this w), omap bound (gl w)).

End Observe.
End Observe.

(** ** A second sample context

    A graphics context with textures, two setters, uniforms located by
    their [u_] prefix, and a linker that rejects a source with [#error]. *)

Module Studio.
Import Text GLProgram.

(** A uniform value: a number, or the name of a texture. *)
Inductive value :=
| Num (z : Z)
| Tex (name : text).

Definition same_value (a b : value) : bool :=
  match a, b with
  | Num x, Num y => bool_decide (x = y)
  | Tex n, Tex m => bool_decide (n = m)
  | _, _ => false
  end.

Definition imports : Imports := {|
  Value := value;
  Value_of_number := fun n => Num (Z.of_nat n);
  strip := fun s => s;
  GLSL_isUniformDefined := fun name s => Sample.occurs (t<"uniform float "> ++ name) s;
  GLSL_isSymbolReferenced := fun name s => Sample.occurs name s;
  GLSL_defineUniform := fun name _ => t<"uniform float "> ++ name ++ t<";"> ++ [LF];
  GLSL_parseUniforms := fun us =>
    map (fun '(n, v) =>
           match v with
           | Num _ => {| parsed_type := t<"float">; parsed_method := t<"1f">;
                         parsed_name := n; parsed_value := v |}
           | Tex _ => {| parsed_type := t<"sampler2D">; parsed_method := t<"1i">;
                         parsed_name := n; parsed_value := v |}
           end) us;
  GL_updateProgram := fun p _ f =>
    if Sample.occurs t<"#error"> f then None else Some (S (default 0 p));
  gl_getUniformLocation := fun _ name =>
    if Sample.starts_with t<"u_"> name then Some (length name) else None;
  gl_has_method := fun m => bool_decide (m ∈ [t<"uniform1f">; t<"uniform1i">]);
  GLTexture_textures := fun calls name =>
    existsb (fun c => match c with
                      | Call_newTexture n => same_value n name
                      | _ => false
                      end) calls;
  toUpperCase := map Sample.ascii_upper;
|}.

#[local] Existing Instance imports.

Definition new_program (fragment : text) : Program :=
  {| program := None; compiled := false; compiling := false;
     defines := []; transforms := []; dependent_uniforms := None;
     uniforms := []; attribs := [];
     vertex_shader := Sample.main; fragment_shader := fragment;
     id := 3; name := Some t<"points">;
     computed_vertex_shader := []; computed_fragment_shader := [];
     texture_unit := 0 |}.

Definition world (p : Program) : World :=
  {| this := p; GLProgram_current := None; GLProgram_defines := [];
     GLProgram_transforms := []; gl := [] |}.

(** A program that links, before its first [compile] and after it. *)
Definition fresh : World := world (new_program Sample.main).

Definition lit : World := (compile fresh).2.

(** A program whose fragment template the linker rejects. *)
Definition broken : World :=
  world (new_program (t<"#error unsupported"> ++ [LF] ++ Sample.main)).

(** The linked program with a uniform cached under a setter that the
    context does not have. *)
Definition unset : World := (uniform t<"9z"> t<"u_scale"> [Num 2] lit).2.

(** Two textures around a number. *)
Definition sprites : Obj.t value :=
  [(t<"u_sky">, Tex t<"sky.png">); (t<"u_time">, Num 7); (t<"u_sea">, Tex t<"sea.png">)].

End Studio.

(** A sample with defines and transforms in both the global tables and the
    program. *)
Module Palette.
Import Text GLProgram.
#[local] Existing Instance Sample.imports.

Definition world : World :=
  {| this :=
       {| program := None; compiled := false; compiling := false;
          defines := [(t<"LIGHTS">, DefInt 2)];
          transforms := [(t<"globals">, TransformSource t<"float ripple();">)];
          dependent_uniforms := None;
          uniforms := []; attribs := [];
          vertex_shader := Sample.main; fragment_shader := Sample.main;
          id := 0; name := None;
          computed_vertex_shader := []; computed_fragment_shader := [];
          texture_unit := 0 |};
     GLProgram_current := None;
     GLProgram_defines := [(t<"LIGHTS">, DefInt 1); (t<"FOG">, DefBool true)];
     GLProgram_transforms := [(t<"globals">, TransformArray [t<"vec3 hsv2rgb(vec3 c);">])];
     gl := [] |}.

End Palette.

(** ** The key of a tile, and the vocabulary of the statements on the build *)

Module TileTerms.
Import Text Tile.

(** [[this.coords.x, this.coords.y, this.coords.z].join('/')], on integer
    coordinates. *)
Definition coords_key (x y z : Z) : text :=
  join t<"/"> [of_Z x; of_Z y; of_Z z].

Definition slash : ascii := "/"%char.

Section TileTerms.
Context {Num Polygon Line Point Properties RuleProperties BaseContext
         StyleInfo VertexData Buffer : Type}.
Context (default_style_name : string).

(** The names the styles of a table give themselves. *)
Definition style_names
    (styles : gmap string
       (@Style Num Polygon Line Point Properties RuleProperties BaseContext StyleInfo
               VertexData Buffer))
    (m : string) : Prop :=
  exists k style, styles !! k = Some style /\ name style = m.


(** The objects [objects'] are the objects [objects_], but for the [layer]
    property of some, which holds one of [names]. *)
Definition relabelled (names : list string)
    (objects_ objects' : loc -> @Feature Polygon Line Point Properties) : Prop :=
  forall l,
    properties (objects' l) = properties (objects_ l)
    /\ geometry (objects' l) = geometry (objects_ l)
    /\ (layer (objects' l) = layer (objects_ l)
        \/ exists name, name ∈ names /\ layer (objects' l) = Some name).

End TileTerms.
End TileTerms.

(** ** A sample scene: one style, one rule tree that matches every feature *)

Module Scene.
Import Tile.

(** A style that draws points; its vertex data is the list of the orders
    drawn. *)
Definition points : @Style Z unit unit (Z * Z) unit unit unit unit (list Z) (list Z) :=
  {| name := "points";
     parseFeature := fun _ _ _ _ =>
       Some {| order := 5%Z; feature_style_layer := None; info := tt |};
     createVertexData := [];
     buildPolygons := fun _ _ v => v;
     buildLines := fun _ _ v => v;
     buildPoints := fun ps fs v => v ++ map (fun _ => order fs) ps |}.

Definition styles : gmap string (@Style Z unit unit (Z * Z) unit unit unit unit (list Z) (list Z)) :=
  {[ "points"%string := points ]}.

(** A rule tree adds one visible rule without a style name. *)
Definition matchFeature (r : unit) (c : @Context unit unit)
    (matchedRules : list (@MatchedRule unit unit)) : list (@MatchedRule unit unit) :=
  matchedRules ++ [{| visible := true; rule_properties := tt; rule_name := NameAbsent |}].

Definition layers : list (string * @Layer unit unit (Z * Z) unit) :=
  [("roads"%string, {| layer_geometry := Some {| filter := FilterString "roads" |} |});
   ("labels"%string, {| layer_geometry := None |})].

Definition rules : gmap string (list unit) := {[ "roads"%string := [tt] ]}.

End Scene.

(** ** Events

    The event mixin of the scene: a [Map] from event names to [Set]s of
    listeners.  A set is the list of its elements in insertion order, which
    is the order [forEach] walks.  Listeners are functions, held by
    identity; a [trigger] is read as the calls it makes, and what a listener
    does when called is outside the embedding. *)

Module Events.
Section Events.
Context {Listener Data : Type} `{EqDecision Listener}.

(** [Set.prototype.add] *)
Definition set_add (listener : Listener) (set : list Listener) : list Listener :=
  if bool_decide (listener ∈ set) then set else set ++ [listener].

(** [Set.prototype.delete] *)
Definition set_delete (listener : Listener) (set : list Listener) : list Listener :=
  base.filter (fun l => l ≠ listener) set.

(** [on(event, listener)] *)
Definition on (event : string) (listener : Listener)
    (events : gmap string (list Listener)) : gmap string (list Listener) :=
  let events :=
    match events !! event with
    | Some _ => events
    | None => <[event := []]> events
    end in
  match events !! event with
  | Some set => <[event := set_add listener set]> events
  | None => events
  end.

(** [on(object)]: one [on] per property, in the order of [for .. in]. *)
Definition on_all (listeners : list (string * Listener))
    (events : gmap string (list Listener)) : gmap string (list Listener) :=
  foldl (fun events '(e, listener) => on e listener events) events listeners.

Definition off (event : string) (listener : Listener)
    (events : gmap string (list Listener)) : gmap string (list Listener) :=
  match events !! event with
  | Some set => <[event := set_delete listener set]> events
  | None => events
  end.

(** [trigger(event, ...data)]: the calls made, in order. *)
Definition trigger (event : string) (data : Data)
    (events : gmap string (list Listener)) : list (Listener * Data) :=
  match events !! event with
  | Some set => map (fun listener => (listener, data)) set
  | None => []
  end.

(** Every set of the registry holds a listener once. *)
Definition sets (events : gmap string (list Listener)) : Prop :=
  forall event set, events !! event = Some set -> NoDup set.

(** The listeners of an event, none when it has no set. *)
Definition listeners (event : string) (events : gmap string (list Listener)) : list Listener :=
  default [] (events !! event).

End Events.
End Events.

(** * Properties *)

(** ** The matcher against the denotation of a pattern *)

Section MatcherFacts.
Import Text RegExp.

Lemma star_sound p k s n :
  star p k s = Some n ->
  exists j, j <= n /\ j <= length s /\
    Forall (fun c => p c = true) (take j s) /\ k (drop j s) = Some (n - j).
Proof.
  revert n. induction s as [|c s IH]; intros n Hs; simpl in Hs.
  - exists 0. repeat split; [lia|simpl; lia|constructor|]. by rewrite Nat.sub_0_r.
  - destruct (p c) eqn:Hp.
    + destruct (star p k s) as [m|] eqn:Hm.
      * inversion Hs; subst. destruct (IH m eq_refl) as (j & Hj & Hjl & Hf & Hk).
        exists (S j). repeat split; [lia|simpl; lia|simpl; by constructor|done].
      * exists 0. repeat split; [lia|simpl; lia|constructor|]. by rewrite Nat.sub_0_r.
    + exists 0. repeat split; [lia|simpl; lia|constructor|]. by rewrite Nat.sub_0_r.
Qed.

Lemma take_split_at {A} (j n : nat) (s : list A) :
  j <= n -> take n s = take j s ++ take (n - j) (drop j s).
Proof.
  revert n s. induction j as [|j IH]; intros n s Hj.
  - simpl. by rewrite Nat.sub_0_r.
  - destruct n as [|n]; [lia|]. destruct s as [|c s]; simpl.
    + by rewrite take_nil.
    + f_equal. apply IH. lia.
Qed.

(** A successful match consumes a text of the pattern and stops where [$]
    holds. *)
Lemma match_here_sound r s n :
  match_here r s = Some n ->
  lang r (take n s) /\ at_eol (drop n s) = true /\ n <= length s.
Proof.
  revert s n. induction r as [|a r IH]; intros s n Hm; simpl in Hm.
  - destruct (at_eol s) eqn:He; [|done]. inversion Hm; subst. simpl.
    rewrite drop_0. split; [constructor|]. split; [done|lia].
  - destruct a as [c|k|k].
    + destruct s as [|c' s]; [done|]. case_bool_decide; [|done]. subst c'.
      destruct (match_here r s) as [m|] eqn:Hr; [|done]. simpl in Hm. inversion Hm; subst.
      destruct (IH _ _ Hr) as (Hl & He & Hn). simpl.
      split; [by constructor|]. split; [done|lia].
    + apply star_sound in Hm as (j & Hj & Hjl & Hf & Hk).
      destruct (IH _ _ Hk) as (Hl & He & Hn).
      rewrite drop_drop in He. rewrite length_drop in Hn.
      replace (j + (n - j)) with n in He by lia.
      split; [|split; [done|lia]].
      rewrite (take_split_at j n) by done. by constructor.
    + destruct s as [|c s]; [done|]. destruct (in_class k c) eqn:Hc; [|done].
      destruct (star (in_class k) (match_here r) s) as [m|] eqn:Hs; [|done].
      simpl in Hm. inversion Hm; subst.
      apply star_sound in Hs as (j & Hj & Hjl & Hf & Hk).
      destruct (IH _ _ Hk) as (Hl & He & Hn).
      rewrite drop_drop in He. rewrite length_drop in Hn.
      replace (j + (m - j)) with m in He by lia. simpl.
      split; [|split; [done|lia]].
      rewrite (take_split_at j m) by done. by constructor.
Qed.

Lemma star_complete p k w s :
  Forall (fun c => p c = true) w -> is_Some (k s) -> is_Some (star p k (w ++ s)).
Proof.
  intros Hw Hk. induction Hw as [|c w Hc Hw IH]; simpl.
  - destruct s as [|c s]; simpl; [done|].
    destruct (p c); [|done]. destruct (star p k s); [by eexists|done].
  - rewrite Hc. destruct IH as [n ->]. by eexists.
Qed.

(** Backtracking finds a match whenever one exists at the position. *)
Lemma match_here_complete r m s :
  lang r m -> at_eol s = true -> is_Some (match_here r (m ++ s)).
Proof.
  intros Hl He. induction Hl as [|c r m Hl IH|k r w m Hw Hl IH|k r c w m Hc Hw Hl IH]; simpl.
  - rewrite He. by eexists.
  - rewrite bool_decide_eq_true_2 by done. destruct IH as [n ->]. by eexists.
  - rewrite <- app_assoc. by apply star_complete.
  - rewrite Hc. rewrite <- app_assoc.
    destruct (star_complete (in_class k) (match_here r) w (m ++ s) Hw IH) as [n ->].
    by eexists.
Qed.

Lemma lang_nonempty r m : lang r m -> (exists c, Lit c ∈ r) -> m <> [].
Proof.
  intros Hl [c Hc]. induction Hl as [|c' r m Hl IH|k r w m Hw Hl IH|k r c' w m Hc' Hw Hl IH].
  - by apply elem_of_nil in Hc.
  - done.
  - apply elem_of_cons in Hc as [?|Hc]; [done|].
    intros Hn. apply app_eq_nil in Hn as [_ Hn]. by apply IH.
  - done.
Qed.

Lemma lang_lits_app s r m : lang r m -> lang (lits s ++ r) (s ++ m).
Proof. intros Hl. induction s as [|c s IH]; simpl; [done|]. by constructor. Qed.

Lemma lang_lits_inv s r m : lang (lits s ++ r) m -> exists m', m = s ++ m' /\ lang r m'.
Proof.
  revert m. induction s as [|c s IH]; intros m Hl; simpl in *.
  - by exists m.
  - inversion Hl; subst. destruct (IH _ H2) as (m' & -> & Hm'). by exists m'.
Qed.

Lemma lang_star_inv k r m :
  lang (Star k :: r) m ->
  exists w m', m = w ++ m' /\ Forall (fun c => in_class k c = true) w /\ lang r m'.
Proof. intros Hl. inversion Hl; subst. eauto. Qed.

Lemma lang_plus_inv k r m :
  lang (Plus k :: r) m ->
  exists w m', m = w ++ m' /\ w <> [] /\ Forall (fun c => in_class k c = true) w /\ lang r m'.
Proof.
  intros Hl. inversion Hl; subst. exists (c :: w), m0.
  split; [done|]. split; [done|]. split; [by constructor|done].
Qed.

Lemma lang_plus_app k r w m :
  w <> [] -> Forall (fun c => in_class k c = true) w -> lang r m -> lang (Plus k :: r) (w ++ m).
Proof.
  intros Hne Hw Hl. destruct w as [|c w]; [done|].
  inversion Hw; subst. simpl. by constructor.
Qed.

Lemma exec_from_sound r bol s i n :
  exec_from r bol s = Some (i, n) ->
  i + n <= length s /\ lang r (take n (drop i s)) /\ at_eol (drop (i + n) s) = true.
Proof.
  revert bol i. induction s as [|c s IH]; intros bol i Hx; simpl in Hx.
  - destruct (match_at r bol []) as [m|] eqn:Hm; [|done]. inversion Hx; subst.
    destruct bol; [|done]. apply match_here_sound in Hm as (Hl & He & Hn).
    rewrite drop_0. done.
  - destruct (match_at r bol (c :: s)) as [m|] eqn:Hm.
    + inversion Hx; subst. destruct bol; [|done].
      apply match_here_sound in Hm as (Hl & He & Hn). rewrite drop_0. done.
    + destruct (exec_from r (is_line_terminator c) s) as [[j m]|] eqn:Hj; [|done].
      simpl in Hx. inversion Hx; subst.
      destruct (IH _ _ Hj) as (Hle & Hl & He). simpl. split; [lia|done].
Qed.

Lemma split_at_match {A} (i n : nat) (s : list A) :
  s = take i s ++ take n (drop i s) ++ drop (i + n) s.
Proof. by rewrite <- drop_drop, !take_drop. Qed.

Lemma replace_no_match r source s : matches r s = false -> replace r source s = s.
Proof.
  unfold matches, replace. intros Hm. apply bool_decide_eq_false in Hm.
  destruct (exec r s) as [[i n]|]; [|done]. exfalso. apply Hm. by eexists.
Qed.

Lemma GetSubstitution_plain m b a source :
  "$"%char ∉ source -> GetSubstitution m b a source = source.
Proof.
  induction source as [|c r IH]; intros Hd; [done|].
  apply not_elem_of_cons in Hd as [Hc Hr]. simpl.
  rewrite bool_decide_eq_false_2 by done. by rewrite IH.
Qed.

(** *** Lines *)

Lemma lines_cons c s :
  lines (c :: s) =
    if is_line_terminator c then [] :: lines s
    else (c :: hd [] (lines s)) :: tail (lines s).
Proof.
  simpl. destruct (is_line_terminator c); [done|].
  destruct (lines s) eqn:Hl; [|done].
  destruct s; simpl in Hl; [done|]. destruct (is_line_terminator a); [done|].
  by destruct (lines s).
Qed.

Lemma lines_hd_tail s : lines s = hd [] (lines s) :: tail (lines s).
Proof.
  destruct s as [|c s]; [done|]. rewrite lines_cons. by destruct (is_line_terminator c).
Qed.

Lemma first_line_eol s : at_eol s = true -> hd [] (lines s) = [].
Proof.
  destruct s as [|c s]; [done|]. simpl at_eol. intros Hc. rewrite lines_cons, Hc. done.
Qed.

Lemma first_line_split s :
  exists rest, s = hd [] (lines s) ++ rest /\ at_eol rest = true.
Proof.
  induction s as [|c s (rest & Hs & He)].
  - exists []. done.
  - rewrite lines_cons. destruct (is_line_terminator c) eqn:Hc.
    + exists (c :: s). done.
    + exists rest. simpl. by rewrite <- Hs.
Qed.

Lemma lines_app_terminator a c b :
  is_line_terminator c = true -> lines (a ++ c :: b) = lines a ++ lines b.
Proof.
  intros Hc. induction a as [|x a IH].
  - simpl. by rewrite Hc.
  - rewrite <- app_comm_cons, !lines_cons, IH.
    destruct (is_line_terminator x); [done|].
    rewrite (lines_hd_tail a). done.
Qed.

(** Away from a line start nothing is matched: the first line survives. *)
Lemma remove_from_first_line r s :
  hd [] (lines (remove_from r false 0 s)) = hd [] (lines s).
Proof.
  destruct s as [|c s]; [done|]. simpl remove_from.
  rewrite !lines_cons. destruct (is_line_terminator c) eqn:Hc; [done|].
  simpl. f_equal. clear c Hc.
  induction s as [|c s IH]; [done|]. simpl remove_from.
  rewrite !lines_cons. destruct (is_line_terminator c) eqn:Hc; [done|].
  simpl. by f_equal.
Qed.

(** *** Removing every match *)

Section Remove.
Variable r : regexp.
Hypothesis r_nonempty : forall m, lang r m -> m <> [].

(** The invariant of the scan: the lines already closed are not texts of the
    pattern, and neither is the line being built when the scan stands at a
    line start or inside a match. *)
Lemma remove_from_lines s bol skip :
  skip = 0 \/ at_eol (drop skip s) = true ->
  let out := remove_from r bol skip s in
  Forall (fun l => ~ lang r l) (tail (lines out)) /\
  (bol = true \/ 0 < skip -> ~ lang r (hd [] (lines out))).
Proof.
  revert bol skip. induction s as [|c s IH]; intros bol skip Hskip out.
  - subst out. simpl. split; [constructor|]. intros _ Hl. by apply r_nonempty in Hl.
  - assert (Hdrop : forall k, at_eol (drop k s) = true ->
              Forall (fun l => ~ lang r l)
                     (tail (lines (remove_from r (is_line_terminator c) k s))) /\
              ~ lang r (hd [] (lines (remove_from r (is_line_terminator c) k s)))).
    { intros k Hk. destruct (IH (is_line_terminator c) k) as [HP HQ].
      { by right. }
      split; [done|].
      destruct (is_line_terminator c) eqn:Hc; [by apply HQ; left|].
      destruct k as [|k]; [|apply HQ; right; lia].
      rewrite remove_from_first_line, first_line_eol by done.
      intros Hl. by apply r_nonempty in Hl. }
    subst out. destruct skip as [|k].
    + simpl remove_from. destruct (match_at r bol (c :: s)) as [[|k]|] eqn:Hm.
      * exfalso. destruct bol; [|done]. simpl in Hm.
        apply match_here_sound in Hm as (Hl & _ & _). by apply r_nonempty in Hl.
      * destruct bol; [|done]. simpl in Hm.
        apply match_here_sound in Hm as (_ & He & _). simpl in He.
        destruct (Hdrop k He) as [HP HQ]. split; [done|]. intros _. done.
      * destruct (IH (is_line_terminator c) 0) as [HP HQ]; [by left|].
        rewrite lines_cons. destruct (is_line_terminator c) eqn:Hc.
        -- simpl. split.
           ++ rewrite lines_hd_tail. constructor; [by apply HQ; left|done].
           ++ intros _ Hl. by apply r_nonempty in Hl.
        -- simpl. split; [done|]. intros [->|?]; [|lia]. simpl in Hm.
           rewrite remove_from_first_line. intros Hl.
           destruct (first_line_split (c :: s)) as (rest & Hs & He).
           rewrite lines_cons, Hc in Hs. simpl hd in Hs.
           pose proof (match_here_complete _ _ _ Hl He) as [n Hn].
           rewrite <- Hs in Hn. congruence.
    + simpl remove_from. destruct Hskip as [?|Hk]; [done|]. simpl in Hk.
      destruct (Hdrop k Hk) as [HP HQ]. split; [done|]. intros _. done.
Qed.

Lemma remove_all_no_match s l : l ∈ lines (remove_all r s) -> ~ lang r l.
Proof.
  intros Hin. destruct (remove_from_lines s true 0) as [HP HQ]; [by left|].
  unfold remove_all in Hin. rewrite lines_hd_tail in Hin.
  apply elem_of_cons in Hin as [->|Hin].
  - apply HQ. by left.
  - by apply (proj1 (Forall_forall _ _) HP).
Qed.
End Remove.

End MatcherFacts.

(** ** Objects *)

Section ObjFacts.
Context {V : Type}.
Implicit Types (o : list (text * V)) (k : text) (v : V).

Lemma Obj_get_set_eq o k v : Obj.get (Obj.set o k v) k = Some v.
Proof.
  induction o as [|[k' v'] o IH]; simpl.
  - by rewrite bool_decide_eq_true_2.
  - case_bool_decide; simpl.
    + by rewrite bool_decide_eq_true_2.
    + by rewrite bool_decide_eq_false_2.
Qed.

Lemma Obj_get_set_ne o k k' v : k <> k' -> Obj.get (Obj.set o k v) k' = Obj.get o k'.
Proof.
  intros Hne. induction o as [|[k0 v0] o IH]; simpl.
  - rewrite bool_decide_eq_false_2; [done|congruence].
  - case_bool_decide; simpl.
    + subst k0. rewrite !(bool_decide_eq_false_2 (k' = k)) by congruence. done.
    + by rewrite IH.
Qed.

Lemma Obj_get_None o k : k ∉ Obj.keys o -> Obj.get o k = None.
Proof.
  induction o as [|[k' v'] o IH]; simpl; [done|]. intros Hk.
  apply not_elem_of_cons in Hk as [Hne Hk]. rewrite bool_decide_eq_false_2; auto.
Qed.
Lemma Obj_get_middle (before after : list (text * V)) k v :
  k ∉ Obj.keys before -> Obj.get (before ++ (k, v) :: after) k = Some v.
Proof.
  induction before as [|[k' v'] before IH]; intros Hk; cbn.
  - by rewrite bool_decide_eq_true_2.
  - apply not_elem_of_cons in Hk as [Hne Hk]. rewrite bool_decide_eq_false_2 by done.
    by apply IH.
Qed.

End ObjFacts.

Section ObjMore.
Import Text.
Context {V : Type}.
Implicit Types (o : list (text * V)) (k : text) (v : V).

Lemma Obj_keys_set_in o k v : k ∈ Obj.keys o -> Obj.keys (Obj.set o k v) = Obj.keys o.
Proof.
  induction o as [|[k' v'] o IH]; simpl; intros Hk.
  - by apply elem_of_nil in Hk.
  - destruct (decide (k = k')) as [->|Hne].
    + by rewrite bool_decide_eq_true_2.
    + rewrite bool_decide_eq_false_2 by done. simpl. f_equal. apply IH.
      apply elem_of_cons in Hk as [?|?]; done.
Qed.

Lemma Obj_keys_set_notin o k v : k ∉ Obj.keys o -> Obj.keys (Obj.set o k v) = Obj.keys o ++ [k].
Proof.
  induction o as [|[k' v'] o IH]; simpl; intros Hk; [done|].
  apply not_elem_of_cons in Hk as [Hne Hk].
  rewrite bool_decide_eq_false_2 by done. simpl. f_equal. by apply IH.
Qed.

Lemma Obj_wf_set o k v : Obj.wf o -> Obj.wf (Obj.set o k v).
Proof.
  unfold Obj.wf. intros Hwf. destruct (decide (k ∈ Obj.keys o)) as [Hin|Hnin].
  - by rewrite Obj_keys_set_in.
  - rewrite Obj_keys_set_notin by done. apply NoDup_app. split; [done|].
    split; [|apply NoDup_singleton].
    intros x Hx Hx'. apply list_elem_of_singleton in Hx'. by subst.
Qed.

Lemma Obj_set_set o k v v' : Obj.set (Obj.set o k v) k v' = Obj.set o k v'.
Proof.
  induction o as [|[k' v0] o IH]; simpl.
  - by rewrite bool_decide_eq_true_2.
  - destruct (decide (k = k')) as [->|Hne].
    + rewrite bool_decide_eq_true_2 by done. simpl. by rewrite bool_decide_eq_true_2.
    + rewrite bool_decide_eq_false_2 by done. simpl.
      rewrite bool_decide_eq_false_2 by done. by rewrite IH.
Qed.

Lemma Obj_get_Some_in o k v : Obj.get o k = Some v -> k ∈ Obj.keys o.
Proof.
  induction o as [|[k' v'] o IH]; simpl; [done|].
  case_bool_decide; intros Hg.
  - subst. by left.
  - right. by apply IH.
Qed.

Lemma fold_set_wf {A} (f : A -> text * V) (l : list A) acc :
  Obj.wf acc -> Obj.wf (foldl (fun acc x => Obj.set acc (f x).1 (f x).2) acc l).
Proof.
  revert acc. induction l as [|x l IH]; intros acc Hwf; [done|].
  simpl. apply IH. by apply Obj_wf_set.
Qed.

Lemma fold_set_get (l : list (text * V)) acc k :
  Obj.wf l ->
  Obj.get (foldl (fun acc '(d, v) => Obj.set acc d v) acc l) k =
    match Obj.get l k with
    | Some v => Some v
    | None => Obj.get acc k
    end.
Proof.
  revert acc. induction l as [|[d v] l IH]; intros acc Hwf; [done|].
  apply NoDup_cons in Hwf as [Hd Hwf]. cbn [foldl Obj.get]. rewrite IH by done.
  case_bool_decide as Hk.
  - subst d. rewrite Obj_get_None by done. by rewrite Obj_get_set_eq.
  - rewrite Obj_get_set_ne by congruence. done.
Qed.

Lemma fold_set_keys_wf (l : list (text * V)) acc :
  Obj.wf acc -> Obj.wf (foldl (fun acc '(d, v) => Obj.set acc d v) acc l).
Proof.
  revert acc. induction l as [|[d v] l IH]; intros acc Hwf; [done|].
  simpl. apply IH. by apply Obj_wf_set.
Qed.
End ObjMore.

(** ** GLProgram: markers *)

Section MarkerFacts.
Import Text RegExp GLProgram.

Lemma pragma_regexp_eq key :
  pragma_regexp key =
    Star ClassSpace :: (lits t<"#pragma"> ++ Plus ClassSpace ::
      (lits t<"tangram:"> ++ Plus ClassSpace :: (lits key ++ [Star ClassSpace]))).
Proof. reflexivity. Qed.

Lemma any_pragma_regexp_eq :
  any_pragma_regexp =
    Star ClassSpace :: (lits t<"#pragma"> ++ Plus ClassSpace ::
      (lits t<"tangram:"> ++ Plus ClassSpace :: Plus ClassWord :: [Star ClassSpace])).
Proof. reflexivity. Qed.

(** The pattern built for a key denotes the markers for that key. *)
Lemma pragma_marker_lang key m :
  pragma_marker key m <-> lang (pragma_regexp key) m.
Proof.
  rewrite pragma_regexp_eq. split.
  - intros (a & b & c & d & -> & Ha & Hb & Hbn & Hc & Hcn & Hd).
    apply lang_star; [done|].
    apply lang_lits_app. apply lang_plus_app; [done..|].
    apply lang_lits_app. apply lang_plus_app; [done..|].
    apply lang_lits_app. rewrite <- (app_nil_r d). apply lang_star; [done|]. constructor.
  - intros Hl.
    apply lang_star_inv in Hl as (a & m1 & -> & Ha & Hl).
    apply lang_lits_inv in Hl as (m2 & -> & Hl).
    apply lang_plus_inv in Hl as (b & m3 & -> & Hbn & Hb & Hl).
    apply lang_lits_inv in Hl as (m4 & -> & Hl).
    apply lang_plus_inv in Hl as (c & m5 & -> & Hcn & Hc & Hl).
    apply lang_lits_inv in Hl as (m6 & -> & Hl).
    apply lang_star_inv in Hl as (d & m7 & -> & Hd & Hl).
    inversion Hl; subst. rewrite app_nil_r.
    exists a, b, c, d. done.
Qed.

(** A marker with a word key is a text of the clean-up pattern. *)
Lemma pragma_marker_word key m :
  word_key key -> pragma_marker key m -> lang any_pragma_regexp m.
Proof.
  intros [Hkn Hk] (a & b & c & d & -> & Ha & Hb & Hbn & Hc & Hcn & Hd).
  rewrite any_pragma_regexp_eq.
  apply lang_star; [done|].
  apply lang_lits_app. apply lang_plus_app; [done..|].
  apply lang_lits_app. apply lang_plus_app; [done..|].
  apply lang_plus_app; [done..|].
  rewrite <- (app_nil_r d). apply lang_star; [done|]. constructor.
Qed.

Lemma any_pragma_nonempty m : lang any_pragma_regexp m -> m <> [].
Proof.
  intros Hl. apply (lang_nonempty _ _ Hl). exists "#"%char.
  rewrite any_pragma_regexp_eq. apply elem_of_cons. right. by left.
Qed.

(** No marker with a word key is left on a line by the clean-up. *)
Lemma strip_pragmas_lines s key l :
  word_key key -> l ∈ lines (remove_all any_pragma_regexp s) -> ~ pragma_marker key l.
Proof.
  intros Hk Hl Hm.
  apply (remove_all_no_match any_pragma_regexp any_pragma_nonempty s l Hl).
  by apply (pragma_marker_word key).
Qed.

Lemma not_pragma_line key l :
  pragma_line l = false -> word_key key -> ~ pragma_marker key l.
Proof.
  unfold pragma_line. intros Hl Hk Hm. apply bool_decide_eq_false in Hl. apply Hl.
  rewrite <- (app_nil_r l). apply match_here_complete; [|done].
  by apply (pragma_marker_word key).
Qed.

(** A front text that ends a line and has no line matched by the clean-up
    pattern adds no marker line to a stripped body. *)
Lemma lines_front_body front body key l :
  ends_line front = true ->
  forallb (fun l => negb (pragma_line l)) (lines front) = true ->
  word_key key ->
  l ∈ lines (front ++ remove_all any_pragma_regexp body) ->
  ~ pragma_marker key l.
Proof.
  intros He Hf Hk Hl.
  assert (Hfront : forall l', l' ∈ lines front -> ~ pragma_marker key l').
  { intros l' Hin. apply not_pragma_line; [|done].
    rewrite forallb_forall in Hf. apply negb_true_iff, Hf. by apply list_elem_of_In. }
  destruct (decide (front = [])) as [->|Hne].
  { by apply (strip_pragmas_lines body key l). }
  destruct (exists_last Hne) as (front' & c & ->).
  unfold ends_line in He. rewrite last_snoc in He.
  rewrite <- app_assoc in Hl. simpl in Hl. rewrite lines_app_terminator in Hl by done.
  apply elem_of_app in Hl as [Hl|Hl].
  - apply Hfront. rewrite lines_app_terminator by done. apply elem_of_app. by left.
  - by apply (strip_pragmas_lines body key l).
Qed.

Lemma ends_line_cons c l : l <> [] -> ends_line (c :: l) = ends_line l.
Proof. by destruct l. Qed.

Lemma take_nonempty {A} (j : nat) (s : list A) : 0 < j -> j <= length s -> take j s <> [].
Proof. destruct j, s; simpl; intros; (lia || done). Qed.

(** A position where a line starts: the head of the text when [bol]
    holds, and behind a line terminator. *)
Lemma line_start_cons bol c s j :
  j <= length s ->
  match S j with 0 => bol = true | S _ => ends_line (take (S j) (c :: s)) = true end
  <-> match j with 0 => is_line_terminator c = true | S _ => ends_line (take j s) = true end.
Proof.
  intros Hj. destruct j as [|j]; [done|].
  change (take (S (S j)) (c :: s)) with (c :: take (S j) s).
  rewrite ends_line_cons; [done|]. apply take_nonempty; lia.
Qed.

(** [exec] finds the first position where a line starts and the pattern
    matches, and the length the matcher takes there. *)
Lemma exec_from_first r bol s i n :
  exec_from r bol s = Some (i, n) ->
  i <= length s
  /\ match_here r (drop i s) = Some n
  /\ match i with 0 => bol = true | S _ => ends_line (take i s) = true end
  /\ forall j, j < i ->
       match j with 0 => bol = true | S _ => ends_line (take j s) = true end ->
       match_here r (drop j s) = None.
Proof.
  revert bol i. induction s as [|c s IH]; intros bol i Hx; simpl in Hx.
  - destruct (match_at r bol []) as [m|] eqn:Hm; [|done]. injection Hx as <- <-.
    destruct bol; [|done]. split; [done|]. split; [done|]. split; [done|]. intros j Hj. lia.
  - destruct (match_at r bol (c :: s)) as [m|] eqn:Hm.
    + injection Hx as <- <-. destruct bol; [|done].
      split; [simpl; lia|]. split; [done|]. split; [done|]. intros j Hj. lia.
    + destruct (exec_from r (is_line_terminator c) s) as [[i' m]|] eqn:Hj; [|done].
      simpl in Hx. injection Hx as <- <-.
      destruct (IH _ _ Hj) as (Hle & Hh & Hs & Hfirst).
      split; [simpl; lia|]. split; [done|]. split; [by apply line_start_cons|].
      intros [|j] Hlt Hst.
      * subst bol. exact Hm.
      * apply Hfirst; [lia|]. apply (line_start_cons bol c s j); [lia|done].
Qed.

Lemma exec_from_complete r bol s j :
  j <= length s ->
  match j with 0 => bol = true | S _ => ends_line (take j s) = true end ->
  is_Some (match_here r (drop j s)) -> is_Some (exec_from r bol s).
Proof.
  revert bol j. induction s as [|c s IH]; intros bol j Hj Hst Hm.
  - destruct j; [|simpl in Hj; lia]. subst bol. simpl in *. destruct Hm as [n ->]. by eexists.
  - simpl. destruct (match_at r bol (c :: s)) as [m|] eqn:Hh; [by eexists|].
    destruct j as [|j]; [subst bol; simpl in *; rewrite Hh in Hm; by destruct Hm|].
    simpl in Hj. destruct (IH (is_line_terminator c) j) as [[i n] ->]; [lia| |done|by eexists].
    apply (line_start_cons bol c s j); [lia|done].
Qed.

Lemma marker_at_match key before m after :
  marker_at key before m after -> is_Some (match_here (pragma_regexp key) (m ++ after)).
Proof.
  intros (_ & Hm & He). apply match_here_complete; [|done]. by apply pragma_marker_lang.
Qed.

(** The test of the injection loop, [match(regexp) != null], holds on the
    texts that have a marker line for the key. *)
Lemma matches_marker_line key s :
  matches (pragma_regexp key) s = true <-> marker_line key s.
Proof.
  unfold matches, exec. rewrite bool_decide_eq_true. split.
  - intros [[i n] Hx]. apply exec_from_first in Hx as (Hi & Hh & Hst & _).
    apply match_here_sound in Hh as (Hl & He & Hn).
    exists (take i s), (take n (drop i s)), (drop (i + n) s).
    split; [apply split_at_match|]. split; [by destruct i|].
    split; [by apply pragma_marker_lang|]. by rewrite <- drop_drop.
  - intros (before & m & after & -> & Hat).
    apply (exec_from_complete _ true _ (length before)).
    + rewrite length_app. lia.
    + destruct (length before) eqn:Hb; [done|]. rewrite <- Hb.
      rewrite take_app_length. apply Hat.
    + rewrite drop_app_length. by apply (marker_at_match key before).
Qed.

Lemma not_matches_marker_line key s :
  matches (pragma_regexp key) s = false <-> ~ marker_line key s.
Proof. rewrite <- matches_marker_line. by destruct (matches _ _). Qed.

(** [replace] without the [g] flag rewrites the first marker line. *)
Lemma replace_first_marker key source s :
  marker_line key s ->
  first_marker_replaced key source s (replace (pragma_regexp key) source s).
Proof.
  intros Hm. apply matches_marker_line in Hm.
  unfold matches, replace, exec in *. apply bool_decide_eq_true in Hm as [[i n] Hx].
  rewrite Hx. apply exec_from_first in Hx as (Hi & Hh & Hst & Hfirst).
  destruct (match_here_sound _ _ _ Hh) as (Hl & He & Hn).
  exists (take i s), (take n (drop i s)), (drop (i + n) s).
  split; [apply split_at_match|]. split; [|split; [|split; [|done]]].
  - split; [by destruct i|]. split; [by apply pragma_marker_lang|]. by rewrite <- drop_drop.
  - intros before' m' after' Hs Hat. rewrite length_take, Nat.min_l by done.
    destruct (decide (i <= length before')) as [|Hlt]; [done|]. exfalso.
    assert (Hj : match_here (pragma_regexp key) (drop (length before') s) = None).
    { apply Hfirst; [lia|]. destruct (length before') eqn:Hb; [done|]. rewrite <- Hb.
      rewrite Hs, take_app_length. apply Hat. }
    rewrite Hs, drop_app_length in Hj.
    destruct (marker_at_match key before' m' after' Hat) as [? Hsome]. congruence.
  - rewrite <- drop_drop, take_drop, length_take, Nat.min_l by done. done.
Qed.

(** The relation names one text: the first marker line and what the
    pattern takes from it are determined. *)
Lemma first_marker_replaced_unique key source s s1 s2 :
  first_marker_replaced key source s s1 -> first_marker_replaced key source s s2 -> s1 = s2.
Proof.
  intros (b1 & m1 & a1 & Hs1 & Hat1 & Hf1 & Hx1 & ->) (b2 & m2 & a2 & Hs2 & Hat2 & Hf2 & Hx2 & ->).
  assert (Hlen : length b1 = length b2).
  { apply Nat.le_antisymm; [by apply (Hf1 b2 m2 a2)|by apply (Hf2 b1 m1 a1)]. }
  assert (Hb : b1 = b2).
  { rewrite <- (take_app_length b1 (m1 ++ a1)), <- Hs1, Hlen, Hs2. apply take_app_length. }
  subst b2. rewrite Hs1 in Hs2. apply app_inv_head in Hs2.
  rewrite Hs2 in Hx1. rewrite Hx1 in Hx2. injection Hx2 as Hm.
  assert (Hm1 : m1 = m2).
  { rewrite <- (take_app_length m1 a1), Hs2, Hm. apply take_app_length. }
  subst m2. apply app_inv_head in Hs2. by subst a2.
Qed.

End MarkerFacts.

(** ** GLProgram: running [compile] *)

Section CompileFacts.
Import Text RegExp GLProgram.
Context `{Imports}.

Lemma with_computed_id w : with_computed (computed w) w = w.
Proof. by destruct w as [[] ? ? ? ?]. Qed.

Lemma computed_with_computed vf w : computed (with_computed vf w) = vf.
Proof. by destruct vf. Qed.

Lemma foldl_join_sources x xs : foldl join_sources x xs = join [LF] (x :: xs).
Proof.
  revert x. induction xs as [|y ys IH]; intros x; [done|].
  cbn [foldl]. rewrite IH. unfold join_sources. cbn [join].
  destruct ys as [|z zs]; by rewrite <- ?app_assoc.
Qed.

Lemma replace_space_id key : " "%char ∉ key -> replace_space key = key.
Proof.
  induction key as [|c s IH]; intros Hs; [done|].
  apply not_elem_of_cons in Hs as [Hc Hs]. simpl.
  rewrite bool_decide_eq_false_2 by done. by rewrite IH.
Qed.

(** One turn of the injection loop. *)
Lemma inject_transform_run key transform d w :
  inject_transform (key, transform) d w =
    let regexp := pragma_regexp key in
    if negb (matches regexp (computed w).1) && negb (matches regexp (computed w).2)
    then (Normal d, w)
    else
      match transform with
      | [] => (Throw TypeError_reduce_of_empty_array, w)
      | x :: xs =>
          let source := foldl join_sources x xs in
          (Normal (Obj.set d (transform_define key) (DefBool true)),
           with_computed (replace regexp source (computed w).1,
                          replace regexp source (computed w).2) w)
      end.
Proof.
  unfold inject_transform, bind, get_this, computed. simpl.
  destruct (matches (pragma_regexp key) (computed_vertex_shader (this w))) eqn:Hv;
  destruct (matches (pragma_regexp key) (computed_fragment_shader (this w))) eqn:Hf;
    simpl; try done; destruct transform as [|x xs]; simpl; try done;
    rewrite ?(replace_no_match _ _ _ Hv), ?(replace_no_match _ _ _ Hf);
    f_equal; by destruct w as [[] ? ? ? ?].
Qed.

(** With an empty list and the marker in a computed source, the turn throws
    and leaves the world as it found it. *)
Lemma inject_transform_empty_throws key d w :
  matches (pragma_regexp key) (computed w).1 = true
  \/ matches (pragma_regexp key) (computed w).2 = true ->
  inject_transform (key, []) d w = (Throw TypeError_reduce_of_empty_array, w).
Proof.
  intros Hm. rewrite inject_transform_run. cbn zeta.
  destruct Hm as [-> | ->]; by rewrite ?andb_false_r.
Qed.

(** The injection loop is [inject_texts] on the computed sources. *)
Lemma for_each_inject_run l d w :
  for_each l inject_transform d w =
    let r := inject_texts l d (computed w) in (r.1, with_computed r.2 w).
Proof.
  revert d w. induction l as [|[key transform] l IH]; intros d w.
  - simpl. unfold ret. by rewrite with_computed_id.
  - cbn [for_each inject_texts]. unfold bind at 1. rewrite inject_transform_run.
    cbn zeta.
    destruct (negb (matches (pragma_regexp key) (computed w).1)
              && negb (matches (pragma_regexp key) (computed w).2)); [apply IH|].
    destruct transform as [|x xs].
    + simpl. by rewrite with_computed_id.
    + rewrite IH. cbn zeta. rewrite computed_with_computed. reflexivity.
Qed.

Lemma for_each_app {A S} (l1 l2 : list A) (body : A -> S -> M S) s w :
  for_each (l1 ++ l2) body s w =
    match for_each l1 body s w with
    | (Normal s', w') => for_each l2 body s' w'
    | (Throw e, w') => (Throw e, w')
    end.
Proof.
  revert s w. induction l1 as [|x l1 IH]; intros s w; [done|].
  cbn [app for_each]. unfold bind. destruct (body x s w) as [[s'|e] w']; [apply IH|done].
Qed.

(** A define that holds [true] holds it when the injection loop is
    through. *)
Lemma inject_texts_define l k : forall d vf d' vf',
  inject_texts l d vf = (Normal d', vf') ->
  Obj.get d k = Some (DefBool true) -> Obj.get d' k = Some (DefBool true).
Proof.
  induction l as [|[key transform] l IH]; intros d vf d' vf' Hi Hd; cbn [inject_texts] in Hi.
  - by injection Hi as <- _.
  - destruct (negb _ && negb _); [by eapply IH|].
    destruct transform as [|x xs]; [done|]. eapply IH; [exact Hi|].
    destruct (decide (transform_define key = k)) as [<-|Hne];
      [apply Obj_get_set_eq|by rewrite Obj_get_set_ne].
Qed.

Lemma for_each_inject_define l k d w d' w' :
  for_each l inject_transform d w = (Normal d', w') ->
  Obj.get d k = Some (DefBool true) -> Obj.get d' k = Some (DefBool true).
Proof.
  rewrite for_each_inject_run. cbn zeta.
  destruct (inject_texts l d (computed w)) as [c vf] eqn:Hi. cbn [fst snd].
  intros [= -> _]. by eapply inject_texts_define.
Qed.

(** *** What the later steps leave alone *)

Lemma keeps_ret {A B} (proj : World -> B) (a : A) : keeps proj (ret a).
Proof. done. Qed.

Lemma keeps_bind {A A' B} (proj : World -> B) (m : M A) (k : A -> M A') :
  keeps proj m -> (forall a, keeps proj (k a)) -> keeps proj (bind m k).
Proof.
  intros Hm Hk w. unfold bind. specialize (Hm w).
  destruct (m w) as [[a|e] w']; simpl in *; [|done]. by rewrite Hk.
Qed.

Lemma keeps_when {B} (proj : World -> B) b m : keeps proj m -> keeps proj (when b m).
Proof. by destruct b. Qed.

Lemma keeps_for_each {A S B} (proj : World -> B) (l : list A) (body : A -> S -> M S) s :
  (forall x s, keeps proj (body x s)) -> keeps proj (for_each l body s).
Proof.
  intros Hb. revert s. induction l as [|x l IH]; intros s; simpl.
  - apply keeps_ret.
  - apply keeps_bind; [apply Hb|]. intros s'. apply IH.
Qed.

Lemma keeps_modify_this (f : Program -> Program) :
  (forall w, texts (with_this (f (this w)) w) = texts w) -> keeps texts (modify_this f).
Proof. intros Hf w. apply Hf. Qed.

Lemma keeps_use : keeps texts use.
Proof.
  unfold use. apply keeps_bind; [done|]. intros p.
  destruct (negb (compiled p)); [done|].
  apply keeps_bind; [done|]. intros w'.
  apply keeps_bind; [apply keeps_when; done|]. intros _. done.
Qed.

Lemma keeps_updateUniform name : keeps texts (updateUniform name).
Proof.
  unfold updateUniform. apply keeps_bind; [done|]. intros p.
  destruct (negb (compiled p)); [done|].
  destruct (Obj.get (uniforms p) name) as [u|]; [|done].
  destruct (uniform_location u); [|done].
  apply keeps_bind; [apply keeps_use|]. intros _.
  destruct (gl_has_method _); done.
Qed.

Lemma keeps_refreshUniforms : keeps texts refreshUniforms.
Proof.
  unfold refreshUniforms. apply keeps_bind; [done|]. intros p.
  destruct (negb (compiled p)); [done|].
  apply keeps_for_each. intros u _.
  apply keeps_bind; [done|]. intros p'.
  apply keeps_bind; [done|]. intros _.
  apply keeps_bind; [|intros _; apply keeps_updateUniform].
  apply keeps_modify_this. intros w.
  by destruct (Obj.get (uniforms (this w)) u).
Qed.

Lemma keeps_refreshAttributes : keeps texts refreshAttributes.
Proof. done. Qed.

Lemma texts_eq w w' :
  texts w = texts w' <->
  inputs w = inputs w' /\ computed w = computed w' /\ compiling (this w) = compiling (this w').
Proof.
  unfold texts. split.
  - intros Ht. split; [exact (f_equal (fun t => t.1.1) Ht)|].
    split; [exact (f_equal (fun t => t.1.2) Ht)|exact (f_equal snd Ht)].
  - intros (-> & -> & ->). done.
Qed.

Lemma compile_link_texts w :
  inputs (compile_link w).2 = inputs w
  /\ computed (compile_link w).2 = computed w
  /\ compiling (this (compile_link w).2) = false.
Proof.
  unfold compile_link, try_catch, bind, get_this, call, modify_this, throw. simpl.
  destruct (GL_updateProgram _ _ _); simpl; done.
Qed.

Lemma after_sources_texts w :
  inputs (after_sources w).2 = inputs w
  /\ computed (after_sources w).2 = computed w
  /\ compiling (this (after_sources w).2) = false.
Proof.
  unfold after_sources.
  assert (Hk : keeps texts (bind use (fun _ => bind refreshUniforms (fun _ => refreshAttributes)))).
  { apply keeps_bind; [apply keeps_use|]. intros _.
    apply keeps_bind; [apply keeps_refreshUniforms|]. intros _.
    apply keeps_refreshAttributes. }
  set (k := bind use _) in *. unfold bind.
  destruct (compile_link_texts w) as (Hi & Hc & Hg).
  destruct (compile_link w) as [[[]|e] w1]; simpl in *; [|done].
  specialize (Hk w1). apply texts_eq in Hk as (Hi' & Hc' & Hg').
  rewrite Hi', Hc', Hg'. done.
Qed.

(** *** The steps after the injection loop *)

Lemma ensureUniforms_fold vs fs (us : Obj.t Value) vi fi :
  foldl (fun '(vi, fi) '(name, value) =>
           let inject := GLSL_defineUniform name value in
           (if missing_in vs name then vi ++ [inject] else vi,
            if missing_in fs name then fi ++ [inject] else fi))
        (vi, fi) us
  = (vi ++ declarations vs us, fi ++ declarations fs us).
Proof.
  revert vi fi. induction us as [|[name value] us IH]; intros vi fi; simpl.
  - unfold declarations. simpl. by rewrite !app_nil_r.
  - rewrite IH. unfold declarations. simpl.
    destruct (missing_in vs name), (missing_in fs name); simpl;
      by rewrite <- ?app_assoc.
Qed.

Lemma ensureUniforms_run us w :
  ensureUniforms us w =
    (Normal tt,
     match us with
     | None => w
     | Some us =>
         with_computed
           (prepend_declarations (declarations (strip (computed w).1) us) (computed w).1,
            prepend_declarations (declarations (strip (computed w).2) us) (computed w).2) w
     end).
Proof.
  destruct us as [us|]; [|done]. unfold ensureUniforms, bind, get_this. simpl.
  rewrite (ensureUniforms_fold _ _ us [] []). simpl.
  unfold computed. simpl.
  destruct (declarations _ us) as [|d1 l1]; destruct (declarations _ us) as [|d2 l2];
    simpl; f_equal; by destruct w as [[] ? ? ? ?].
Qed.

Lemma compile_sources_run p d w :
  compile_sources p d w = (Normal tt, with_computed (finish_texts p d (computed w)) w).
Proof.
  unfold compile_sources, strip_pragmas, prepend, bind, modify_this. simpl.
  rewrite ensureUniforms_run. unfold finish_texts, computed.
  destruct (dependent_uniforms p); simpl; f_equal; by destruct w as [[] ? ? ? ?].
Qed.

Lemma compile_inject_run w :
  compile_inject w =
    let r := inject_texts (merged_transforms w) (merged_defines w)
               (vertex_shader (this w), fragment_shader (this w)) in
    (r.1, with_computed r.2 (reset w)).
Proof.
  unfold compile_inject, bind, modify_this, buildDefineList, buildShaderTransformList,
    get_world, ret. simpl.
  rewrite for_each_inject_run. simpl. done.
Qed.

(** The injection loop of [compile] runs on the merged tables, from the
    world where the computed sources are the templates. *)
Lemma compile_inject_loop w :
  compile_inject w
  = for_each (merged_transforms w) inject_transform (merged_defines w) (reset w).
Proof. rewrite compile_inject_run, for_each_inject_run. reflexivity. Qed.

(** [compile] is its three phases in a row. *)
Lemma compile_run w :
  compile w =
    if compiling (this w) then (Throw (Error_already_compiling (id (this w)) (name (this w))), w)
    else
      match compile_inject w with
      | (Throw e, w1) => (Throw e, w1)
      | (Normal d, w1) => after_sources (compile_sources (this w) d w1).2
      end.
Proof.
  unfold compile. unfold bind at 1. unfold get_this.
  destruct (compiling (this w)) eqn:Hc; [done|].
  unfold compile_inject, compile_sources, after_sources, compile_link, strip_pragmas,
    prepend, try_catch, bind, modify_this, buildDefineList, buildShaderTransformList,
    get_world, get_this, ret, call, throw.
  cbn -[for_each ensureUniforms use refreshUniforms refreshAttributes].
  destruct (for_each _ _ _ _) as [[d|e] w1]; [|done].
  rewrite !ensureUniforms_run.
  cbn -[for_each ensureUniforms use refreshUniforms refreshAttributes].
  destruct (dependent_uniforms (this w));
    cbn -[for_each ensureUniforms use refreshUniforms refreshAttributes];
    destruct (GL_updateProgram _ _ _); reflexivity.
Qed.

(** The texts of the world after [compile]. *)
Lemma compile_texts w :
  let r := inject_texts (merged_transforms w) (merged_defines w)
             (vertex_shader (this w), fragment_shader (this w)) in
  texts (compile w).2 =
    if compiling (this w) then texts w
    else
      match r.1 with
      | Throw _ => (inputs w, r.2, true)
      | Normal d => (inputs w, finish_texts (this w) d r.2, false)
      end.
Proof.
  intros r. rewrite compile_run. destruct (compiling (this w)) eqn:Hc; [done|].
  rewrite compile_inject_run. fold r. cbn zeta. clearbody r.
  destruct r as [[d|e] [v f]]; cbn [fst snd]; [|done].
  rewrite compile_sources_run. cbn [snd].
  destruct (after_sources_texts
              (with_computed (finish_texts (this w) d (computed (with_computed (v, f) (reset w))))
                 (with_computed (v, f) (reset w)))) as (Hi & Hcm & Hg).
  unfold texts. rewrite Hi, Hcm, Hg. by rewrite !computed_with_computed.
Qed.

Lemma compile_computed w d w1 :
  compiling (this w) = false ->
  compile_inject w = (Normal d, w1) ->
  computed (compile w).2 = finish_texts (this w) d (computed w1).
Proof.
  intros Hc Hi. pose proof (compile_texts w) as Ht. cbn zeta in Ht.
  rewrite Hc in Ht. rewrite compile_inject_run in Hi. cbn zeta in Hi.
  destruct (inject_texts _ _ _) as [c vf]. cbn [fst snd] in *.
  injection Hi as -> <-. rewrite computed_with_computed.
  exact (f_equal (fun t => t.1.2) Ht).
Qed.

Lemma finish_texts_prefix p d vf :
  finish_texts p d vf =
    (prefix_text p d (remove_all any_pragma_regexp vf.1) ++ remove_all any_pragma_regexp vf.1,
     prefix_text p d (remove_all any_pragma_regexp vf.2) ++ remove_all any_pragma_regexp vf.2).
Proof.
  unfold finish_texts, prefix_text, prepend_declarations.
  destruct (dependent_uniforms p) as [us|]; simpl.
  - destruct (declarations _ us); destruct (declarations _ us); simpl;
      by rewrite <- ?app_assoc.
  - by rewrite <- !app_assoc.
Qed.

Lemma finish_texts_inputs w w' d vf :
  inputs w = inputs w' -> finish_texts (this w) d vf = finish_texts (this w') d vf.
Proof.
  unfold inputs, finish_texts, comment, info. intros Hi.
  injection Hi as Hv Hf Hd Ht Hu Hid Hn Hgd Hgt. by rewrite Hu, Hid, Hn.
Qed.

Lemma inject_texts_inputs w w' :
  inputs w = inputs w' ->
  inject_texts (merged_transforms w) (merged_defines w)
    (vertex_shader (this w), fragment_shader (this w))
  = inject_texts (merged_transforms w') (merged_defines w')
      (vertex_shader (this w'), fragment_shader (this w')).
Proof.
  unfold inputs, merged_transforms, merged_defines. intros Hi.
  injection Hi as Hv Hf Hd Ht Hu Hid Hn Hgd Hgt. by rewrite Hv, Hf, Hd, Ht, Hgd, Hgt.
Qed.

(** *** The merged transform table *)

Lemma fold_global_get (l : Obj.t transform) acc key :
  Obj.wf l ->
  Obj.get (foldl (fun acc '(d, t) => Obj.set acc d ([] ++ sources_of t)) acc l) key =
    match Obj.get l key with
    | Some t => Some (sources_of t)
    | None => Obj.get acc key
    end.
Proof.
  revert acc. induction l as [|[d t] l IH]; intros acc Hwf; [done|].
  apply NoDup_cons in Hwf as [Hd Hwf]. cbn [foldl Obj.get]. rewrite IH by done.
  case_bool_decide as Hk.
  - subst d. rewrite Obj_get_None by done. by rewrite Obj_get_set_eq.
  - rewrite Obj_get_set_ne by congruence. done.
Qed.

Lemma fold_program_get (l : Obj.t transform) acc key :
  Obj.wf l ->
  Obj.get (foldl (fun acc '(d, t) =>
                    Obj.set acc d (default [] (Obj.get acc d) ++ sources_of t)) acc l) key =
    match Obj.get l key with
    | Some t => Some (default [] (Obj.get acc key) ++ sources_of t)
    | None => Obj.get acc key
    end.
Proof.
  revert acc. induction l as [|[d t] l IH]; intros acc Hwf; [done|].
  apply NoDup_cons in Hwf as [Hd Hwf]. cbn [foldl Obj.get]. rewrite IH by done.
  case_bool_decide as Hk.
  - subst d. rewrite Obj_get_None by done. by rewrite Obj_get_set_eq.
  - rewrite Obj_get_set_ne by congruence. done.
Qed.

(** Global entries first, then the program's own. *)
Lemma merged_transforms_get w key :
  Obj.wf (GLProgram_transforms w) -> Obj.wf (transforms (this w)) ->
  Obj.get (merged_transforms w) key =
    match Obj.get (GLProgram_transforms w) key, Obj.get (transforms (this w)) key with
    | None, None => None
    | _, _ => Some (sources_at (GLProgram_transforms w) key
                    ++ sources_at (transforms (this w)) key)
    end.
Proof.
  intros Hg Hp. unfold merged_transforms, sources_at.
  rewrite fold_program_get, fold_global_get by done. simpl.
  destruct (Obj.get (GLProgram_transforms w) key), (Obj.get (transforms (this w)) key);
    simpl; by rewrite ?app_nil_r.
Qed.

Lemma fold_set_acc_wf {T V} (val : list (text * V) -> text -> T -> V)
    (l : list (text * T)) acc :
  Obj.wf acc -> Obj.wf (foldl (fun acc '(d, t) => Obj.set acc d (val acc d t)) acc l).
Proof.
  revert acc. induction l as [|[d t] l IH]; intros acc Hwf; [done|].
  cbn. apply IH. by apply Obj_wf_set.
Qed.

Lemma merged_transforms_wf w : Obj.wf (merged_transforms w).
Proof.
  unfold merged_transforms.
  apply (fold_set_acc_wf (fun acc d t => default [] (Obj.get acc d) ++ sources_of t)).
  apply (fold_set_acc_wf (fun acc d t => [] ++ sources_of t)).
  apply NoDup_nil_2.
Qed.

(** *** Declarations *)

Lemma declarations_app shader (l1 l2 : Obj.t Value) :
  declarations shader (l1 ++ l2) = declarations shader l1 ++ declarations shader l2.
Proof. unfold declarations. apply omap_app. Qed.

Lemma declarations_cons shader name value (l : Obj.t Value) :
  declarations shader ((name, value) :: l) =
    (if missing_in shader name then [GLSL_defineUniform name value] else [])
    ++ declarations shader l.
Proof. unfold declarations. simpl. by destruct (missing_in shader name). Qed.

Lemma missing_in_unreferenced shader name :
  GLSL_isSymbolReferenced name shader = false -> missing_in shader name = false.
Proof. unfold missing_in. intros ->. apply andb_false_r. Qed.

(** *** Claims about [compile] and the uniform cache *)

(** C1 (as amended).  On a program with [compiled = false], [uniform] and
    [setUniforms] return normally and leave the whole world as it was: no
    call reaches the graphics context and [this.uniforms] is unchanged, so
    the supplied values are not recorded.  What a later [refreshUniforms]
    pushes is therefore what was recorded while the program was compiled. *)
Theorem uniform_uncompiled_noop w method name values us first_unit :
  compiled (this w) = false ->
  uniform method name values w = (Normal tt, w)
  /\ setUniforms us first_unit w = (Normal tt, w).
Proof.
  intros Hc. unfold uniform, setUniforms, bind, get_this. by rewrite Hc.
Qed.

(** C3 (as amended).  When the injection loop of [compile] completes, each
    computed source is a front text (the program comment, the synthesized
    uniform declarations and the rendered defines) followed by the injected
    template with every match of the clean-up pattern removed.  No line of
    that stripped template is a marker [#pragma tangram: key] for a key made
    of word characters; and when the front text ends a line and has no line
    matched by the clean-up pattern, no line of the whole computed source is
    such a marker.  (Keys with other characters are outside this
    statement.) *)
Theorem compile_strips_word_pragmas w d w1 :
  compiling (this w) = false ->
  compile_inject w = (Normal d, w1) ->
  let body_v := remove_all any_pragma_regexp (computed w1).1 in
  let body_f := remove_all any_pragma_regexp (computed w1).2 in
  let front_v := prefix_text (this w) d body_v in
  let front_f := prefix_text (this w) d body_f in
  computed (compile w).2 = (front_v ++ body_v, front_f ++ body_f)
  /\ (forall key l,
        word_key key -> l ∈ lines body_v \/ l ∈ lines body_f -> ~ pragma_marker key l)
  /\ (ends_line front_v = true ->
      forallb (fun l => negb (pragma_line l)) (lines front_v) = true ->
      forall key l,
        word_key key -> l ∈ lines (computed (compile w).2).1 -> ~ pragma_marker key l)
  /\ (ends_line front_f = true ->
      forallb (fun l => negb (pragma_line l)) (lines front_f) = true ->
      forall key l,
        word_key key -> l ∈ lines (computed (compile w).2).2 -> ~ pragma_marker key l).
Proof.
  intros Hc Hi body_v body_f front_v front_f.
  assert (Hcomp : computed (compile w).2 = (front_v ++ body_v, front_f ++ body_f)).
  { rewrite (compile_computed w d w1 Hc Hi). apply finish_texts_prefix. }
  split; [done|]. split; [|split].
  - intros key l Hk [Hl|Hl]; by apply (strip_pragmas_lines _ key l Hk Hl).
  - intros He Hf key l Hk Hl. rewrite Hcomp in Hl.
    by apply (lines_front_body front_v (computed w1).1 key l).
  - intros He Hf key l Hk Hl. rewrite Hcomp in Hl.
    by apply (lines_front_body front_f (computed w1).2 key l).
Qed.

(** C4.  Let [name] be a dependent uniform, and [v], [f] the two sources when
    [ensureUniforms] runs (the rendered defines followed by the stripped
    template).  If [name] is referenced and not declared in the
    comment-stripped [f] and not referenced in the comment-stripped [v], the
    final fragment source is the program comment, then the declarations of
    the dependent uniforms in their order with exactly one for [name], then
    [f], which starts with the defines; the vertex source gets the
    declarations of the other dependent uniforms only.  The same holds with
    the two shaders exchanged. *)
Theorem ensureUniforms_declares_once w d w1 us l1 name value l2 :
  compiling (this w) = false ->
  compile_inject w = (Normal d, w1) ->
  dependent_uniforms (this w) = Some us ->
  Obj.wf us ->
  us = l1 ++ (name, value) :: l2 ->
  let v := buildDefineString d ++ remove_all any_pragma_regexp (computed w1).1 in
  let f := buildDefineString d ++ remove_all any_pragma_regexp (computed w1).2 in
  let decl := GLSL_defineUniform name value in
  (name ∉ Obj.keys (l1 ++ l2))
  /\ (missing_in (strip f) name = true ->
      GLSL_isSymbolReferenced name (strip v) = false ->
      computed (compile w).2 =
        (comment (this w)
           ++ prepend_declarations (declarations (strip v) l1 ++ declarations (strip v) l2) v,
         comment (this w)
           ++ join [LF] (declarations (strip f) l1 ++ [decl] ++ declarations (strip f) l2)
           ++ f))
  /\ (missing_in (strip v) name = true ->
      GLSL_isSymbolReferenced name (strip f) = false ->
      computed (compile w).2 =
        (comment (this w)
           ++ join [LF] (declarations (strip v) l1 ++ [decl] ++ declarations (strip v) l2)
           ++ v,
         comment (this w)
           ++ prepend_declarations (declarations (strip f) l1 ++ declarations (strip f) l2) f)).
Proof.
  intros Hc Hi Hu Hwf -> v f decl.
  assert (Hcomp : computed (compile w).2 =
            (comment (this w) ++ prepend_declarations
               (declarations (strip v) (l1 ++ (name, value) :: l2)) v,
             comment (this w) ++ prepend_declarations
               (declarations (strip f) (l1 ++ (name, value) :: l2)) f)).
  { rewrite (compile_computed w d w1 Hc Hi). unfold finish_texts. by rewrite Hu. }
  rewrite !declarations_app, !declarations_cons in Hcomp.
  split; [|split].
  - unfold Obj.wf, Obj.keys in *. rewrite fmap_app in Hwf. simpl in Hwf.
    apply NoDup_app in Hwf as (_ & Hn1 & Hn2). apply NoDup_cons in Hn2 as [Hn2 _].
    rewrite fmap_app. intros Hin. apply elem_of_app in Hin as [Hin|Hin]; [|done].
    apply (Hn1 _ Hin). by left.
  - intros Hf Hv. rewrite Hcomp, Hf, (missing_in_unreferenced _ _ Hv). simpl.
    f_equal. f_equal. unfold prepend_declarations.
    by destruct (declarations (strip f) l1).
  - intros Hv Hf. rewrite Hcomp, Hv, (missing_in_unreferenced _ _ Hf). simpl.
    f_equal. f_equal. unfold prepend_declarations.
    by destruct (declarations (strip v) l1).
Qed.

(** C5 (as amended).  Let the keys of the transform tables be free of
    pattern metacharacters and of names of inherited properties, and let
    [buildShaderTransformList] give the list [transform] for [key], after
    the keys [before] and ahead of the keys [after].  Then [transform] is
    the global sources of [key] followed by the program's own, a single
    source counting as a one-element list.  When it is not empty, the
    injection loop of [compile] has come through [before] and a computed
    source then has a marker line for [key], the turn of the loop for
    [key] completes normally: in each source that has a marker line it
    replaces the first one (with the white space the pattern takes) by the
    substitution of the newline-joined sources, it leaves the other source
    alone, and it sets to [true] the define named [TANGRAM_TRANSFORM_]
    followed by the upper-cased key in which the first space is replaced by
    an underscore.  When the loop then comes through [after], these are the
    sources that [compile] cleans of left-over pragmas and puts behind the
    defines, and the define is still [true] in the table it renders.  A key
    without a space is upper-cased as it is, and sources without [$] are
    substituted as they are written. *)
Theorem compile_replaces_first_marker w key before transform after d0 w0 :
  let source := join [LF] transform in
  let define := t<"TANGRAM_TRANSFORM_"> ++ toUpperCase (replace_space key) in
  let d1 := Obj.set d0 define (DefBool true) in
  compiling (this w) = false ->
  Obj.wf (GLProgram_transforms w) -> Obj.wf (transforms (this w)) ->
  plain_keys w ->
  buildShaderTransformList w = (Normal (before ++ (key, transform) :: after), w) ->
  transform <> [] ->
  for_each before inject_transform (merged_defines w) (reset w) = (Normal d0, w0) ->
  marker_line key (computed w0).1 \/ marker_line key (computed w0).2 ->
  transform = sources_at (GLProgram_transforms w) key ++ sources_at (transforms (this w)) key
  /\ (exists w1,
        inject_transform (key, transform) d0 w0 = (Normal d1, w1)
        /\ inputs w1 = inputs w0
        /\ (marker_line key (computed w0).1 ->
            first_marker_replaced key source (computed w0).1 (computed w1).1)
        /\ (~ marker_line key (computed w0).1 -> (computed w1).1 = (computed w0).1)
        /\ (marker_line key (computed w0).2 ->
            first_marker_replaced key source (computed w0).2 (computed w1).2)
        /\ (~ marker_line key (computed w0).2 -> (computed w1).2 = (computed w0).2)
        /\ (forall d w2,
              for_each after inject_transform d1 w1 = (Normal d, w2) ->
              compile_inject w = (Normal d, w2)
              /\ computed (compile w).2 = finish_texts (this w) d (computed w2)
              /\ Obj.get d define = Some (DefBool true)))
  /\ (" "%char ∉ key -> replace_space key = key)
  /\ ("$"%char ∉ source -> forall m b a, GetSubstitution m b a source = source).
Proof.
  intros source define d1 Hc Hg Hp _ Hlist Hne Hbefore Hm.
  assert (Hsplit : merged_transforms w = before ++ (key, transform) :: after).
  { assert (Hb : buildShaderTransformList w = (Normal (merged_transforms w), w)) by done.
    rewrite Hb in Hlist. by injection Hlist. }
  split; [|split; [|split]].
  - assert (Hget : Obj.get (merged_transforms w) key = Some transform).
    { rewrite Hsplit. apply Obj_get_middle.
      pose proof (merged_transforms_wf w) as Hwf. rewrite Hsplit in Hwf.
      unfold Obj.wf, Obj.keys in Hwf. rewrite fmap_app in Hwf.
      apply NoDup_app in Hwf as (_ & Hwf & _). intros Hin. apply (Hwf key Hin).
      cbn. apply list_elem_of_here. }
    rewrite merged_transforms_get in Hget by done.
    destruct (Obj.get (GLProgram_transforms w) key), (Obj.get (transforms (this w)) key);
      congruence.
  - assert (Hturn : inject_transform (key, transform) d0 w0
                    = (Normal d1,
                       with_computed (replace (pragma_regexp key) source (computed w0).1,
                                      replace (pragma_regexp key) source (computed w0).2) w0)).
    { rewrite inject_transform_run. cbn zeta.
      replace (negb (matches (pragma_regexp key) (computed w0).1)
               && negb (matches (pragma_regexp key) (computed w0).2)) with false.
      2:{ destruct Hm as [Hm|Hm]; apply matches_marker_line in Hm; rewrite Hm;
            by rewrite ?andb_false_r. }
      destruct transform as [|x xs]; [done|]. by rewrite foldl_join_sources. }
    eexists. split; [exact Hturn|]. split; [done|].
    rewrite computed_with_computed. cbn [fst snd].
    split; [by apply replace_first_marker|].
    split; [intros Hn; apply replace_no_match; by apply not_matches_marker_line|].
    split; [by apply replace_first_marker|].
    split; [intros Hn; apply replace_no_match; by apply not_matches_marker_line|].
    intros d w2 Hafter.
    assert (Hi : compile_inject w = (Normal d, w2)).
    { rewrite compile_inject_loop, Hsplit, for_each_app, Hbefore.
      cbn [for_each]. unfold bind. by rewrite Hturn. }
    split; [exact Hi|]. split; [by apply compile_computed|].
    eapply for_each_inject_define; [exact Hafter|]. apply Obj_get_set_eq.
  - apply replace_space_id.
  - intros Hd m b a. by apply GetSubstitution_plain.
Qed.

(** C6.  Take the world a first [compile] leaves, and any world that agrees
    with it on the inputs of a compilation (templates, program-level and
    global defines and transforms, dependent uniforms, id and name), on the
    computed sources and on the [compiling] flag; this covers calling
    [compile] again at once or after setting uniforms.  A second [compile]
    there leaves the very same computed vertex and fragment sources. *)
Theorem compile_twice_same_sources w w' :
  texts w' = texts (compile w).2 ->
  computed (compile w').2 = computed (compile w).2.
Proof.
  intros Ht.
  assert (Hgoal : texts (compile w').2 = texts (compile w).2);
    [|by apply texts_eq in Hgoal as (_ & ? & _)].
  pose proof (compile_texts w') as Hw'. cbn zeta in Hw'.
  pose proof (compile_texts w) as Hw. cbn zeta in Hw.
  rewrite Hw', <- Ht. rewrite Hw in Ht. clear Hw Hw'.
  destruct (compiling (this w)) eqn:Hc.
  - apply texts_eq in Ht as (Hi & Hcm & Hg). by rewrite Hg, Hc.
  - destruct ((inject_texts (merged_transforms w) (merged_defines w)
                 (vertex_shader (this w), fragment_shader (this w))).1) as [d|e] eqn:Hr.
    + assert (Hi : inputs w' = inputs w) by exact (f_equal (fun t => t.1.1) Ht).
      assert (Hg : compiling (this w') = false) by exact (f_equal snd Ht).
      rewrite Hg, (inject_texts_inputs w' w Hi), Hr.
      rewrite (finish_texts_inputs w' w _ _ Hi), Hi.
      assert (Hcm : computed w' = finish_texts (this w) d
                (inject_texts (merged_transforms w) (merged_defines w)
                   (vertex_shader (this w), fragment_shader (this w))).2)
        by exact (f_equal (fun t => t.1.2) Ht).
      unfold texts. by rewrite Hi, Hg, Hcm.
    + assert (Hg : compiling (this w') = true) by exact (f_equal snd Ht).
      by rewrite Hg.
Qed.

(** C7.  While [compiling] is set, [compile] throws at once and leaves the
    world, hence the computed sources and the [compiled] flag, as it was;
    nothing is queued. *)
Theorem compile_reentrant_rejected w :
  compiling (this w) = true ->
  compile w = (Throw (Error_already_compiling (id (this w)) (name (this w))), w).
Proof. intros Hc. rewrite compile_run. by rewrite Hc. Qed.

End CompileFacts.

(** ** GLProgram on the sample programs *)

Section CompileExamples.
Import Text RegExp GLProgram Sample.
#[local] Existing Instance Sample.imports.

Example exec_takes_blank_lines :
  exec (pragma_regexp t<"x">)
       (t<"a"> ++ [LF; LF] ++ t<"  #pragma   tangram:  x  "> ++ [LF; LF] ++ t<"b">)
  = Some (2, 27).
Proof. vm_compute. reflexivity. Qed.

Example compile_rainbow :
  (compile rainbow).1 = Normal tt
  /\ computed (compile rainbow).2 =
       (t<"// Program: id 0"> ++ [LF] ++ t<"#define TANGRAM_TRANSFORM_FRAGMENT"> ++ [LF]
          ++ [LF] ++ main,
        t<"// Program: id 0"> ++ [LF] ++ t<"#define TANGRAM_TRANSFORM_FRAGMENT"> ++ [LF]
          ++ t<"void main() {"> ++ [LF] ++ t<"color.rgb = hsv2rgb(c);"> ++ [LF] ++ t<"}">).
Proof. vm_compute. split; reflexivity. Qed.

Example compile_dots :
  (computed (compile dots).2).2 =
    t<"// Program: id 0"> ++ [LF] ++ t<"uniform float u_dot_scale;"> ++ [LF]
      ++ t<"void main() { float s = u_dot_scale; }">.
Proof. vm_compute. reflexivity. Qed.

(** C1, witness: [uniform] and [setUniforms] on the uncompiled sample. *)
Lemma uniform_uncompiled_noop_witness :
  compiled (this plain) = false
  /\ uniform t<"1f"> t<"u_time"> [7%Z] plain = (Normal tt, plain)
  /\ setUniforms [(t<"u_time">, 7%Z)] None plain = (Normal tt, plain).
Proof.
  split; [reflexivity|].
  apply (uniform_uncompiled_noop plain t<"1f"> t<"u_time"> [7%Z] [(t<"u_time">, 7%Z)] None).
  reflexivity.
Defined.

(** C1, counterexample to the claim as stated: a value given to [uniform]
    while the program is uncompiled is not in [this.uniforms] afterwards, and
    the next successful [compile] sets no uniform on the graphics context. *)
Lemma uniform_uncompiled_not_recorded :
  let w1 := (uniform t<"1f"> t<"u_time"> [7%Z] plain).2 in
  compiled (this plain) = false
  /\ Obj.get (uniforms (this w1)) t<"u_time"> = None
  /\ (compile w1).1 = Normal tt
  /\ compiled (this (compile w1).2) = true
  /\ gl (compile w1).2 =
       [Call_updateProgram None (computed (compile w1).2).1 (computed (compile w1).2).2;
        Call_useProgram (Some 1)].
Proof. vm_compute. repeat split. Qed.

(** C2, the failing input: after [GLProgram.removeTransform('globals')] the
    merged list for [globals] is the empty array; the template has the marker,
    and [compile] throws the [TypeError] of [reduce] on an empty array.  The
    marker is still in the computed source, [compiling] stays set, and the
    next [compile] is rejected as reentrant. *)
Theorem compile_after_removeTransform_throws :
  let w1 := (removeTransform t<"globals"> with_globals).2 in
  Obj.get (GLProgram_transforms w1) t<"globals"> = Some (TransformArray [])
  /\ (compile w1).1 = Throw TypeError_reduce_of_empty_array
  /\ computed (compile w1).2 = (t<"#pragma tangram: globals"> ++ [LF] ++ main, main)
  /\ compiling (this (compile w1).2) = true
  /\ (compile (compile w1).2).1 = Throw (Error_already_compiling 0 None).
Proof. vm_compute. repeat split. Qed.

(** C3, witness: the sample with a [fragment] transform and a [vertex] marker
    left without one. *)
Lemma compile_strips_word_pragmas_witness :
  let w := rainbow in
  let d := [(t<"TANGRAM_TRANSFORM_FRAGMENT">, DefBool true)] in
  let w1 := (compile_inject w).2 in
  let body_v := remove_all any_pragma_regexp (computed w1).1 in
  let front_v := prefix_text (this w) d body_v in
  compiling (this w) = false
  /\ compile_inject w = (Normal d, w1)
  /\ ends_line front_v = true
  /\ forallb (fun l => negb (pragma_line l)) (lines front_v) = true
  /\ forall key l,
      word_key key -> l ∈ lines (computed (compile w).2).1 -> ~ pragma_marker key l.
Proof.
  intros w d w1 body_v front_v.
  assert (Hc : compiling (this w) = false) by reflexivity.
  assert (Hi : compile_inject w = (Normal d, w1)) by (vm_compute; reflexivity).
  assert (He : ends_line front_v = true) by (vm_compute; reflexivity).
  assert (Hf : forallb (fun l => negb (pragma_line l)) (lines front_v) = true)
    by (vm_compute; reflexivity).
  repeat (split; [assumption|]).
  exact (proj1 (proj2 (proj2 (compile_strips_word_pragmas w d w1 Hc Hi))) He Hf).
Defined.

(** C3, counterexample to the claim as stated: a template marker with the key
    [my-key] and no transform registered is still a line of the computed
    vertex source after [compile]. *)
Lemma compile_keeps_dashed_pragma :
  (compile dashed).1 = Normal tt
  /\ t<"#pragma tangram: my-key"> ∈ lines (computed (compile dashed).2).1
  /\ pragma_marker t<"my-key"> t<"#pragma tangram: my-key">.
Proof.
  split; [vm_compute; reflexivity|]. split.
  - replace (lines (computed (compile dashed).2).1)
      with [t<"// Program: id 0">; t<"#pragma tangram: my-key">; main]
      by (vm_compute; reflexivity).
    apply elem_of_cons. right. apply elem_of_cons. by left.
  - exists [], t<" ">, t<" ">, []. split; [reflexivity|].
    repeat split; try discriminate; repeat constructor.
Qed.

(** C4, witness: [u_dot_scale] is referenced by the fragment template only. *)
Lemma ensureUniforms_declares_once_witness :
  let w := dots in
  let d : Obj.t define_value := [] in
  let w1 := (compile_inject w).2 in
  let name := t<"u_dot_scale"> in
  let value := 7%Z in
  let us := [(name, value)] in
  let v := buildDefineString d ++ remove_all any_pragma_regexp (computed w1).1 in
  let f := buildDefineString d ++ remove_all any_pragma_regexp (computed w1).2 in
  let decl := GLSL_defineUniform name value in
  compiling (this w) = false
  /\ compile_inject w = (Normal d, w1)
  /\ dependent_uniforms (this w) = Some us
  /\ Obj.wf us
  /\ missing_in (strip f) name = true
  /\ GLSL_isSymbolReferenced name (strip v) = false
  /\ computed (compile w).2 =
       (comment (this w)
          ++ prepend_declarations (declarations (strip v) [] ++ declarations (strip v) []) v,
        comment (this w)
          ++ join [LF] (declarations (strip f) [] ++ [decl] ++ declarations (strip f) [])
          ++ f).
Proof.
  intros w d w1 name value us v f decl.
  assert (Hc : compiling (this w) = false) by reflexivity.
  assert (Hi : compile_inject w = (Normal d, w1)) by (vm_compute; reflexivity).
  assert (Hu : dependent_uniforms (this w) = Some us) by reflexivity.
  assert (Hwf : Obj.wf us) by apply NoDup_singleton.
  assert (Hm : missing_in (strip f) name = true) by (vm_compute; reflexivity).
  assert (Hr : GLSL_isSymbolReferenced name (strip v) = false) by (vm_compute; reflexivity).
  repeat (split; [assumption|]).
  exact (proj1 (proj2 (ensureUniforms_declares_once w d w1 us [] name value []
                         Hc Hi Hu Hwf eq_refl)) Hm Hr).
Defined.

(** C5, witness: the [fragment] transform of the sample, the only key of
    its tables. *)
Lemma compile_replaces_first_marker_witness :
  let w := rainbow in
  let key := t<"fragment"> in
  let transform := [t<"color.rgb = hsv2rgb(c);">] in
  let d0 : Obj.t define_value := [] in
  let w0 := reset rainbow in
  let source := join [LF] transform in
  let define := t<"TANGRAM_TRANSFORM_"> ++ toUpperCase (replace_space key) in
  let d1 := Obj.set d0 define (DefBool true) in
  (compiling (this w) = false
   /\ Obj.wf (GLProgram_transforms w) /\ Obj.wf (transforms (this w))
   /\ plain_keys w
   /\ buildShaderTransformList w = (Normal ([] ++ (key, transform) :: []), w)
   /\ transform <> []
   /\ for_each [] inject_transform (merged_defines w) (reset w) = (Normal d0, w0)
   /\ (marker_line key (computed w0).1 \/ marker_line key (computed w0).2))
  /\ transform = sources_at (GLProgram_transforms w) key ++ sources_at (transforms (this w)) key
  /\ (exists w1,
        inject_transform (key, transform) d0 w0 = (Normal d1, w1)
        /\ inputs w1 = inputs w0
        /\ (marker_line key (computed w0).1 ->
            first_marker_replaced key source (computed w0).1 (computed w1).1)
        /\ (~ marker_line key (computed w0).1 -> (computed w1).1 = (computed w0).1)
        /\ (marker_line key (computed w0).2 ->
            first_marker_replaced key source (computed w0).2 (computed w1).2)
        /\ (~ marker_line key (computed w0).2 -> (computed w1).2 = (computed w0).2)
        /\ (forall d w2,
              for_each [] inject_transform d1 w1 = (Normal d, w2) ->
              compile_inject w = (Normal d, w2)
              /\ computed (compile w).2 = finish_texts (this w) d (computed w2)
              /\ Obj.get d define = Some (DefBool true)))
  /\ (" "%char ∉ key -> replace_space key = key)
  /\ ("$"%char ∉ source -> forall m b a, GetSubstitution m b a source = source).
Proof.
  intros w key transform d0 w0 source define d1.
  assert (Hc : compiling (this w) = false) by reflexivity.
  assert (Hg : Obj.wf (GLProgram_transforms w)) by apply NoDup_nil_2.
  assert (Hp : Obj.wf (transforms (this w))) by apply NoDup_singleton.
  assert (Hk : plain_keys w).
  { constructor; [|constructor]. split; reflexivity. }
  assert (Hl : buildShaderTransformList w = (Normal ([] ++ (key, transform) :: []), w))
    by reflexivity.
  assert (Hne : transform <> []) by discriminate.
  assert (Hb : for_each [] inject_transform (merged_defines w) (reset w) = (Normal d0, w0))
    by reflexivity.
  assert (Hm : marker_line key (computed w0).1 \/ marker_line key (computed w0).2).
  { right. apply matches_marker_line. vm_compute. reflexivity. }
  split; [done|].
  exact (compile_replaces_first_marker w key [] transform [] d0 w0 Hc Hg Hp Hk Hl Hne Hb Hm).
Defined.

(** The injection on the sample: the marker line of the fragment template
    goes with its indentation, the line terminator behind it stays. *)
Example compile_inject_rainbow :
  exists d w1,
    compile_inject rainbow = (Normal d, w1)
    /\ d = [(t<"TANGRAM_TRANSFORM_FRAGMENT">, DefBool true)]
    /\ computed w1 =
         (t<"#pragma tangram: vertex"> ++ [LF] ++ main,
          t<"void main() {"> ++ [LF] ++ t<"color.rgb = hsv2rgb(c);"> ++ [LF] ++ t<"}">).
Proof. eexists _, _. split; [vm_compute; reflexivity|]. split; reflexivity. Qed.

(** Of two marker lines the first is the one replaced: the text with the
    second one replaced is not related. *)
Example second_marker_not_replaced :
  let s := t<"#pragma tangram: x"> ++ [LF] ++ t<"#pragma tangram: x"> in
  first_marker_replaced t<"x"> t<"y"> s (t<"y"> ++ [LF] ++ t<"#pragma tangram: x">)
  /\ ~ first_marker_replaced t<"x"> t<"y"> s (t<"#pragma tangram: x"> ++ [LF] ++ t<"y">).
Proof.
  intros s.
  assert (Hm : marker_line t<"x"> s) by (apply matches_marker_line; vm_compute; reflexivity).
  pose proof (replace_first_marker t<"x"> t<"y"> s Hm) as Hr.
  split; [exact Hr|]. intros Hw.
  pose proof (first_marker_replaced_unique _ _ _ _ _ Hr Hw) as He.
  vm_compute in He. discriminate.
Qed.

(** C5, counterexample to the claim as stated: for the key [my key] the define
    set by the injection is [TANGRAM_TRANSFORM_MY_KEY]; none is named by the
    upper-cased key, [TANGRAM_TRANSFORM_MY KEY]. *)
Lemma compile_define_for_spaced_key :
  let r := compile_inject spaced in
  (exists d, r.1 = Normal d
             /\ Obj.get d (t<"TANGRAM_TRANSFORM_"> ++ toUpperCase t<"my key">) = None
             /\ Obj.get d t<"TANGRAM_TRANSFORM_MY_KEY"> = Some (DefBool true))
  /\ (computed r.2).1 = t<"x">
  /\ (computed (compile spaced).2).1 =
       t<"// Program: id 0"> ++ [LF] ++ t<"#define TANGRAM_TRANSFORM_MY_KEY"> ++ [LF] ++ t<"x">.
Proof.
  split; [|split; vm_compute; reflexivity].
  exists [(t<"TANGRAM_TRANSFORM_MY_KEY">, DefBool true)].
  split; vm_compute; [reflexivity|split; reflexivity].
Qed.

(** C6, witness: [compile] run twice in a row on the sample. *)
Lemma compile_twice_same_sources_witness :
  let w := rainbow in
  let w' := (compile w).2 in
  texts w' = texts (compile w).2
  /\ computed (compile w').2 = computed (compile w).2.
Proof.
  intros w w'. split; [reflexivity|].
  apply (compile_twice_same_sources w w'). reflexivity.
Defined.

(** C7, witness: the sample at the start of its injection loop, where
    [compiling] is set. *)
Lemma compile_reentrant_rejected_witness :
  let w := reset plain in
  compiling (this w) = true
  /\ compile w = (Throw (Error_already_compiling (id (this w)) (name (this w))), w).
Proof.
  intros w. split; [reflexivity|].
  apply (compile_reentrant_rejected w). reflexivity.
Defined.

End CompileExamples.

(** ** Tile *)

Section TileFacts.
Import Tile.
Context {Num Polygon Line Point Properties RuleProperties BaseContext
         StyleInfo VertexData Buffer RuleTree : Type}.
Context (num_lt : Num -> Num -> bool).
Context (getFeatureParseContext :
           @Feature Polygon Line Point Properties ->
           @Tile.Tile Num Polygon Line Point Properties Buffer -> BaseContext)
        (default_style_name : string)
        (matchFeature : RuleTree ->
                        @Context RuleProperties BaseContext ->
                        list (@MatchedRule RuleProperties BaseContext) ->
                        list (@MatchedRule RuleProperties BaseContext))
        (end_buffer : VertexData -> Buffer).

Implicit Types (t : @Tile.Tile Num Polygon Line Point Properties Buffer)
  (styles : gmap string
     (@Style Num Polygon Line Point Properties RuleProperties BaseContext StyleInfo
             VertexData Buffer))
  (b : @Build Num Polygon Line Point Properties VertexData Buffer).

(** C8 (as amended).  On a tile that has its layers, and for a string
    filter that names a sub-layer of the tile or no property that every
    object inherits, [getGeometryForSource] returns a feature collection and
    does not throw: with a string filter it is the sub-layer of that name,
    with a function filter the result of the function on the raw layers
    (whether the tile has them or not), and whenever that is missing or
    falsy, and for any other descriptor, it is the empty
    [FeatureCollection]. *)
Theorem getGeometryForSource_total t source :
  resolvable t source ->
  exists c,
    getGeometryForSource t source = Returns (Collection c)
    /\ match source with
       | Some {| filter := FilterString name |} =>
           c = default empty_collection (held <$> (layers t ≫= (.!! name)))
       | Some {| filter := FilterFunction f |} =>
           c = default empty_collection (f (layers t) (objects t))
       | Some {| filter := FilterOther |} | None => c = empty_collection
       end.
Proof.
  destruct source as [[[name|f|]]|]; cbn.
  - intros (layers_ & Hl & Hn). unfold getGeometryForSource. rewrite Hl. cbn.
    destruct (layers_ !! name) as [c|] eqn:Hc; cbn; [by eexists|].
    destruct Hn as [[? [=]]| ->]. by eexists.
  - intros _. unfold getGeometryForSource. cbn.
    destruct (f (layers t) (objects t)); by eexists.
  - by eexists.
  - by eexists.
Qed.


(** What [getGeometryForSource] gives depends on the layers and on the
    objects of the tile only. *)
Lemma getGeometryForSource_ext t t' source :
  layers t = layers t' -> objects t = objects t' ->
  getGeometryForSource t source = getGeometryForSource t' source.
Proof. unfold getGeometryForSource. by intros -> ->. Qed.

Lemma label_feature_fields name r t :
  key (label_feature name r t).2 = key t
  /\ layers (label_feature name r t).2 = layers t
  /\ debug_rendering (label_feature name r t).2 = debug_rendering t
  /\ debug_features (label_feature name r t).2 = debug_features t
  /\ order_min (label_feature name r t).2 = order_min t
  /\ order_max (label_feature name r t).2 = order_max t
  /\ vertex_data (label_feature name r t).2 = vertex_data t.
Proof. by destruct r. Qed.

Lemma label_feature_ext name r t t' :
  objects t = objects t' ->
  objects (label_feature name r t).2 = objects (label_feature name r t').2.
Proof. destruct r; cbn; by intros ->. Qed.

Lemma label_features_cons name r refs t :
  label_features name (r :: refs) t = label_features name refs (label_feature name r t).2.
Proof. done. Qed.

Lemma label_features_layers name refs t :
  layers (label_features name refs t) = layers t.
Proof.
  revert t. induction refs as [|r refs IH]; intros t; [done|].
  rewrite label_features_cons, IH. apply label_feature_fields.
Qed.

Lemma label_features_ext name refs t t' :
  objects t = objects t' ->
  objects (label_features name refs t) = objects (label_features name refs t').
Proof.
  revert t t'. induction refs as [|r refs IH]; intros t t' Ho; [done|].
  rewrite !label_features_cons. apply IH. by apply label_feature_ext.
Qed.

Lemma features_walked_ext t t' ls :
  layers t = layers t' -> objects t = objects t' ->
  features_walked t ls = features_walked t' ls.
Proof.
  revert t t'. induction ls as [|[name layer] ls IH]; intros t t' Hl Ho; [done|].
  cbn. destruct (layer_geometry layer) as [source|]; [|by apply IH].
  rewrite (getGeometryForSource_ext t t') by done.
  destruct (getGeometryForSource t' (Some source)) as [[geom|]|]; [|done|done].
  f_equal. apply IH.
  - by rewrite !label_features_layers.
  - by apply label_features_ext.
Qed.

(** The rules of a feature leave the layers, the objects and the counter
    of the tile as they are. *)
Lemma render_rules_layers styles feature rules st st' :
  render_rules num_lt default_style_name styles feature rules st = Returns st' ->
  layers (tile st'.1) = layers (tile st.1)
  /\ objects (tile st'.1) = objects (tile st.1)
  /\ debug_features (tile st'.1) = debug_features (tile st.1).
Proof.
  revert st. induction rules as [|rule rules IH]; intros st Hr; simpl in Hr.
  - by inversion Hr.
  - destruct (render_rule num_lt default_style_name styles feature rule st) as [st1|] eqn:H1;
      [|done]. simpl in Hr. destruct (IH _ Hr) as (Hl & Ho & Hd). rewrite Hl, Ho, Hd.
    clear IH Hr Hl Ho Hd.
    unfold render_rule in H1. destruct st as [b context].
    destruct (negb (visible rule)); [by inversion H1|].
    destruct (styles !! _) as [style|]; [|done].
    destruct (parseFeature style _ _ _ _) as [fs|]; [|by inversion H1].
    inversion H1; subst; simpl.
    destruct (num_lt (order fs) (order_min (tile b))); simpl;
      match goal with |- context [if ?c then _ else _] => destruct c end; done.
Qed.

Lemma build_feature_returns styles layer_rules name r b b' :
  build_feature num_lt getFeatureParseContext default_style_name matchFeature
    styles layer_rules name r b = Returns b' ->
  debug_features (tile b') = S (debug_features (tile b))
  /\ layers (tile b') = layers (tile b)
  /\ objects (tile b') = objects (label_feature name r (tile b)).2.
Proof.
  unfold build_feature. intros Hb.
  destruct (render_rules _ _ _ _ _ _) as [[b1 c1]|] eqn:Hr; [|done].
  simpl in Hb. inversion Hb; subst; simpl.
  apply render_rules_layers in Hr as (Hl & Ho & Hd). simpl in *.
  destruct (label_feature_fields name r (tile b)) as (_ & Hl' & _ & Hd' & _).
  by rewrite Hd, Hl, Ho, Hl', Hd'.
Qed.

Lemma build_features_returns styles layer_rules name fs b b' :
  build_features num_lt getFeatureParseContext default_style_name matchFeature
    styles layer_rules name fs b = Returns b' ->
  debug_features (tile b') = debug_features (tile b) + length fs
  /\ layers (tile b') = layers (tile b)
  /\ objects (tile b') = objects (label_features name fs (tile b)).
Proof.
  revert b. induction fs as [|r fs IH]; intros b Hb; simpl in Hb.
  - inversion Hb; subst. simpl. split; [lia|done].
  - destruct (build_feature _ _ _ _ styles layer_rules name r b) as [b1|] eqn:H1;
      [|done].
    simpl in Hb. apply build_feature_returns in H1 as (Hd & Hl & Ho).
    destruct (IH _ Hb) as (Hd' & Hl' & Ho'). rewrite Hd', Hl', Ho', Hd, Hl.
    split; [simpl; lia|]. split; [done|].
    rewrite (label_features_cons name r fs). by apply label_features_ext.
Qed.

Lemma build_layers_returns rules styles ls b b' :
  build_layers num_lt getFeatureParseContext default_style_name matchFeature
    rules styles ls b = Returns b' ->
  debug_features (tile b') = debug_features (tile b) + features_walked (tile b) ls
  /\ layers (tile b') = layers (tile b).
Proof.
  revert b. induction ls as [|[name layer] ls IH]; intros b Hb; cbn [build_layers] in Hb.
  - inversion Hb; subst. simpl. split; [lia|done].
  - destruct (build_layer _ _ _ _ _ _ _ b) as [b1|] eqn:H1; [|done]. simpl in Hb.
    destruct (IH _ Hb) as [Hd' Hl']. rewrite Hd', Hl'. clear IH Hb Hd' Hl'.
    unfold build_layer in H1. cbn [features_walked].
    destruct (layer_geometry layer) as [source|].
    + destruct (getGeometryForSource (tile b) (Some source)) as [[geom|]|]; [|done|done].
      cbn in H1. apply build_features_returns in H1 as (Hd & Hl & Ho).
      rewrite length_rev in Hd.
      rewrite (features_walked_ext (tile b1)
                 (label_features name (rev (features geom)) (tile b)))
        by (by rewrite ?label_features_layers).
      rewrite Hd, Hl. split; [lia|done].
    + inversion H1; subst. done.
Qed.

(** When [buildGeometry] returns, the counter is the number of features of
    the layers that have a geometry source. *)
Lemma buildGeometry_features_walked started finished tile0 layers_ rules styles t' :
  buildGeometry num_lt getFeatureParseContext default_style_name matchFeature end_buffer
    started finished tile0 layers_ rules styles = Returns t' ->
  debug_features t' = features_walked tile0 layers_.
Proof.
  unfold buildGeometry. intros Hb.
  destruct (build_layers _ _ _ _ _ _ _ _) as [b|] eqn:Hl; [|done].
  simpl in Hb. inversion Hb; subst. simpl.
  apply build_layers_returns in Hl as [Hd _]. simpl in Hd. rewrite Hd.
  by apply features_walked_ext.
Qed.

(** C9.  The turn of the feature loop of [buildGeometry] for one feature
    first writes the layer name on the feature; when it returns, it leaves
    the feature counter one higher; when no rule matches the feature it
    always returns, with the counter one higher and, the written layer name
    apart, the tile and the per-style vertex data untouched; and when
    [buildGeometry] returns, the counter is the number of features walked.
    (The turn does not return only when a matched, visible rule names a style
    that does not exist, which throws.) *)
Theorem build_feature_counts styles rules layer_rules name r b
    started finished tile0 layers_ :
  let feature := (label_feature name r (tile b)).1 in
  let t := (label_feature name r (tile b)).2 in
  let context := {| base := getFeatureParseContext feature t;
                    style_properties := None |} in
  match build_feature num_lt getFeatureParseContext default_style_name matchFeature
          styles layer_rules name r b with
  | Returns b' => debug_features (tile b') = S (debug_features (tile b))
  | TypeError => True
  end
  /\ (match_rules matchFeature layer_rules context = [] ->
      build_feature num_lt getFeatureParseContext default_style_name matchFeature
        styles layer_rules name r b =
        Returns {| tile := set_debug_features (S (debug_features (tile b))) t;
                   build_vertex_data := build_vertex_data b |})
  /\ match buildGeometry num_lt getFeatureParseContext default_style_name matchFeature
             end_buffer started finished tile0 layers_ rules styles with
     | Returns t' => debug_features t' = features_walked tile0 layers_
     | TypeError => True
     end.
Proof.
  intros feature t context. split; [|split].
  - destruct (build_feature _ _ _ _ styles layer_rules name r b) as [b'|] eqn:Hb;
      [|done].
    by apply build_feature_returns in Hb as [? _].
  - intros Hm. unfold build_feature. fold feature t context. rewrite Hm. cbn.
    destruct (label_feature_fields name r (tile b)) as (_ & _ & _ & Hd & _).
    fold t in Hd. by rewrite Hd.
  - destruct (buildGeometry _ _ _ _ _ _ _ _ _ _ _) as [t'|] eqn:Hb; [|done].
    by apply buildGeometry_features_walked in Hb.
Qed.

(** C10.  After [merge], a property other than [key] has the value it has in
    the other object when that one has it, and the value it had on the tile
    otherwise; [key] has the value it had on the tile.  The result is the
    tile itself, updated. *)
Theorem merge_copies_all_but_key {V} (this other : gmap string V) (k : string) :
  merge this other !! k =
    if bool_decide (k = "key"%string) then this !! "key"%string
    else match other !! k with
         | Some v => Some v
         | None => this !! k
         end.
Proof.
  unfold merge. revert k.
  apply (map_fold_weak_ind
           (fun r m => forall k, r !! k =
              if bool_decide (k = "key"%string) then this !! "key"%string
              else match m !! k with Some v => Some v | None => this !! k end)).
  - intros k. rewrite lookup_empty. case_bool_decide; by subst.
  - intros i x m r Hi IH k. specialize (IH k).
    destruct (bool_decide (i ≠ "key"%string)) eqn:Hik.
    + apply bool_decide_eq_true in Hik.
      destruct (decide (i = k)) as [->|Hne].
      * rewrite !lookup_insert_eq. by rewrite bool_decide_eq_false_2.
      * rewrite !lookup_insert_ne by done. done.
    + apply bool_decide_eq_false in Hik. apply dec_stable in Hik. subst i.
      rewrite IH. case_bool_decide as Hk; [done|].
      rewrite lookup_insert_ne by done. done.
Qed.

End TileFacts.

(** ** Tile on the sample *)

Section TileExamples.
Import Tile.

(** C8, counterexample: a tile gets no [layers] from its constructor, and
    a string filter on such a tile throws. *)
Lemma getGeometryForSource_throws_without_layers :
  getGeometryForSource TileSample.unloaded (Some {| filter := FilterString "roads" |})
  = TypeError.
Proof. reflexivity. Qed.

(** C8, witness: a layer filtered on [water], of which the sample tile has
    nothing. *)
Lemma getGeometryForSource_total_witness :
  resolvable TileSample.tile (Some {| filter := FilterString "water" |})
  /\ exists c,
       getGeometryForSource TileSample.tile (Some {| filter := FilterString "water" |})
       = Returns (Collection c)
       /\ c = default empty_collection
                (held <$> (layers TileSample.tile ≫= (.!! "water"%string))).
Proof.
  assert (Hr : resolvable TileSample.tile (Some {| filter := FilterString "water" |})).
  { eexists. split; [reflexivity|]. right. reflexivity. }
  split; [exact Hr|].
  exact (getGeometryForSource_total TileSample.tile
           (Some {| filter := FilterString "water" |}) Hr).
Defined.

(** C9, witness: the feature of the [roads] layer, which no rule matches. *)
Lemma build_feature_counts_witness :
  let b := TileSample.build in
  let feature := (label_feature "roads" (Held 0) (tile b)).1 in
  let t := (label_feature "roads" (Held 0) (tile b)).2 in
  let context := {| base := TileSample.getFeatureParseContext feature t;
                    style_properties := None |} in
  match_rules TileSample.matchFeature [tt] context = []
  /\ build_feature Z.ltb TileSample.getFeatureParseContext "polygons" TileSample.matchFeature
       TileSample.styles [tt] "roads" (Held 0) b =
       Returns {| tile := set_debug_features (S (debug_features (tile b))) t;
                  build_vertex_data := build_vertex_data b |}.
Proof.
  intros b feature t context. split; [reflexivity|].
  apply (proj1 (proj2 (build_feature_counts Z.ltb TileSample.getFeatureParseContext
                         "polygons" TileSample.matchFeature (fun v : list Z => v)
                         TileSample.styles ∅ [tt] "roads" (Held 0) b
                         0%Z 0%Z TileSample.tile []))).
  reflexivity.
Defined.

(** The sub-layer [roads] of the sample tile, and two names that are no
    sub-layer of it: [water], and [constructor], which every object
    inherits. *)
Example getGeometryForSource_sample :
  getGeometryForSource TileSample.tile (Some {| filter := FilterString "roads" |})
  = Returns (Collection {| type := "FeatureCollection"; features := [Held 0] |})
  /\ getGeometryForSource TileSample.tile (Some {| filter := FilterString "water" |})
     = Returns (Collection empty_collection)
  /\ getGeometryForSource TileSample.tile (Some {| filter := FilterString "constructor" |})
     = Returns (Inherited "constructor").
Proof. repeat split; reflexivity. Qed.

(** The turn for the feature of [roads] writes its layer name on the
    object the tile holds. *)
Example build_feature_labels :
  layer (objects TileSample.tile 0) = None
  /\ layer (objects (label_feature "roads" (Held 0) TileSample.tile).2 0)
     = Some "roads"%string.
Proof. split; reflexivity. Qed.

Example merge_keeps_key :
  merge (V:=Z) {[ "key"%string := 1%Z; "loaded"%string := 0%Z ]}
        {[ "key"%string := 2%Z; "loaded"%string := 1%Z; "error"%string := 5%Z ]}
  = {[ "key"%string := 1%Z; "loaded"%string := 1%Z; "error"%string := 5%Z ]}.
Proof. vm_compute. reflexivity. Qed.

End TileExamples.

(** * Further properties *)

Section Defines.
Import Text RegExp GLProgram Observe.
Context `{Imports}.

(** X1.  [buildDefineList] changes nothing and returns a table with one entry
    per name: a define of the program takes precedence over the global
    define of the same name, and a name only defined globally keeps its
    global value. *)
Theorem buildDefineList_program_wins w k :
  Obj.wf (GLProgram_defines w) -> Obj.wf (defines (this w)) ->
  exists merged,
    buildDefineList w = (Normal merged, w)
    /\ Obj.wf merged
    /\ Obj.get merged k =
         match Obj.get (defines (this w)) k with
         | Some v => Some v
         | None => Obj.get (GLProgram_defines w) k
         end.
Proof.
  intros Hg Hp. eexists. split; [reflexivity|]. split.
  - apply fold_set_keys_wf, fold_set_keys_wf. apply NoDup_nil_2.
  - rewrite !fold_set_get by done.
    destruct (Obj.get (defines (this w)) k); [done|].
    by destruct (Obj.get (GLProgram_defines w) k).
Qed.

Lemma buildDefineString_fold acc (d : Obj.t define_value) :
  foldl (fun define_str '(d, v) => define_str ++ define_line d v) acc d
  = acc ++ concat (map (fun e => define_line e.1 e.2) d).
Proof.
  revert acc. induction d as [|[k v] d IH]; intros acc; simpl.
  - by rewrite app_nil_r.
  - rewrite IH. by rewrite <- app_assoc.
Qed.

Lemma buildDefineString_concat d :
  buildDefineString d = concat (map (fun e => define_line e.1 e.2) d).
Proof. unfold buildDefineString. by rewrite buildDefineString_fold. Qed.

Lemma ends_line_app a b : ends_line a = true -> ends_line b = true -> ends_line (a ++ b) = true.
Proof.
  unfold ends_line. intros Ha Hb. destruct b as [|c b] using rev_ind.
  - by rewrite app_nil_r.
  - rewrite app_assoc, last_snoc. by rewrite last_snoc in Hb.
Qed.

Lemma ends_line_snoc a c : is_line_terminator c = true -> ends_line (a ++ [c]) = true.
Proof. unfold ends_line. by rewrite last_snoc. Qed.

Lemma ends_line_define_line k v : ends_line (define_line k v) = true.
Proof.
  destruct v as [[]|z|s]; unfold define_line; [|done|..];
    rewrite !app_assoc; by apply ends_line_snoc.
Qed.

Lemma ends_line_buildDefineString d : ends_line (buildDefineString d) = true.
Proof.
  rewrite buildDefineString_concat. induction d as [|[k v] d IH]; [done|].
  simpl. apply ends_line_app; [apply ends_line_define_line|done].
Qed.

(** X2.  The text of [buildDefineString] is empty or ends its last line, so
    what is put after it starts on a line of its own; the text for two
    tables in a row is the two texts in a row; and a define whose value is
    [false] leaves no trace in it. *)
Theorem buildDefineString_rendering d d' :
  ends_line (buildDefineString d) = true
  /\ buildDefineString (d ++ d') = buildDefineString d ++ buildDefineString d'
  /\ buildDefineString d = buildDefineString (filter (fun e => is_false e.2 = false) d).
Proof.
  split; [apply ends_line_buildDefineString|]. split.
  - by rewrite !buildDefineString_concat, map_app, concat_app.
  - rewrite !buildDefineString_concat. induction d as [|[k v] d IH]; [done|].
    destruct v as [[]|z|s]; cbn; cbn in IH; by rewrite IH.
Qed.
End Defines.

Section StripFacts.
Import Text RegExp GLProgram Observe.
(** Without a match anywhere, nothing is removed. *)
Lemma remove_from_no_match r bol s :
  exec_from r bol s = None -> remove_from r bol 0 s = s.
Proof.
  revert bol. induction s as [|c s IH]; intros bol Hx; [done|].
  simpl in Hx |- *. destruct (match_at r bol (c :: s)) as [n|]; [done|].
  destruct (exec_from r (is_line_terminator c) s) as [[i n]|] eqn:He; [done|].
  by rewrite IH.
Qed.

Lemma remove_all_no_match_id r s : matches r s = false -> remove_all r s = s.
Proof.
  unfold matches, remove_all, exec. intros Hm. apply bool_decide_eq_false in Hm.
  apply remove_from_no_match. destruct (exec_from r true s); [|done].
  exfalso. apply Hm. by eexists.
Qed.
End StripFacts.

Section PassThrough.
Import Text RegExp GLProgram Observe.
Context `{Imports}.

Lemma inject_texts_skip l d vf :
  Forall (fun e => matches (pragma_regexp e.1) vf.1 = false
                   /\ matches (pragma_regexp e.1) vf.2 = false) l ->
  inject_texts l d vf = (Normal d, vf).
Proof.
  induction 1 as [|[key transform] l [Hv Hf] Hl IH]; [done|].
  cbn [inject_texts]. simpl in Hv, Hf. by rewrite Hv, Hf.
Qed.

(** X3.  [compile] reads its inputs and never writes them: the two templates,
    the defines, transforms and dependent uniforms of the program, its id and
    name and the two global tables are after [compile] what they were
    before, however it completes. *)
Theorem compile_keeps_inputs w : inputs (compile w).2 = inputs w.
Proof.
  pose proof (compile_texts w) as Ht. cbn zeta in Ht.
  destruct (compiling (this w)).
  - by apply texts_eq in Ht as (? & _ & _).
  - destruct (inject_texts _ _ _) as [[d|e] vf]; cbn [fst snd] in Ht;
      exact (f_equal (fun t => t.1.1) Ht).
Qed.

(** X4.  Templates without markers go through [compile] as they are: when
    the registered keys are free of pattern metacharacters and of names
    of inherited properties, and no line of a template is the marker of a
    registered key or is matched by the clean-up pattern, each computed
    source is the template behind the program comment, the synthesized
    declarations and the defines. *)
Theorem compile_passes_unmarked_templates w :
  let v := vertex_shader (this w) in
  let f := fragment_shader (this w) in
  compiling (this w) = false ->
  plain_keys w ->
  Forall (fun key => matches (pragma_regexp key) v = false
                     /\ matches (pragma_regexp key) f = false)
         (Obj.keys (merged_transforms w)) ->
  matches any_pragma_regexp v = false ->
  matches any_pragma_regexp f = false ->
  computed (compile w).2 =
    (prefix_text (this w) (merged_defines w) v ++ v,
     prefix_text (this w) (merged_defines w) f ++ f).
Proof.
  intros v f Hc _ Hk Hv Hf.
  pose proof (compile_texts w) as Ht. cbn zeta in Ht. rewrite Hc in Ht.
  rewrite inject_texts_skip in Ht.
  2:{ unfold Obj.keys in Hk. rewrite Forall_fmap in Hk. exact Hk. }
  cbn [fst snd] in Ht. apply (f_equal (fun t => t.1.2)) in Ht. unfold texts in Ht.
  cbn [fst snd] in Ht.
  rewrite Ht, finish_texts_prefix. cbn [fst snd]. fold v f.
  by rewrite !remove_all_no_match_id.
Qed.
End PassThrough.

Section LinkFacts.
Import Text RegExp GLProgram Observe.
Context `{Imports}.

Lemma maintains_bind {A A'} (I : World -> Prop) (m : M A) (k : A -> M A') :
  maintains I m -> (forall a, maintains I (k a)) -> maintains I (bind m k).
Proof.
  intros Hm Hk w Hw. unfold bind. specialize (Hm w Hw).
  destruct (m w) as [[a|e] w']; simpl in *; [|done]. by apply Hk.
Qed.

Lemma maintains_for_each {A S} (I : World -> Prop) (l : list A) (body : A -> S -> M S) s :
  (forall x s, maintains I (body x s)) -> maintains I (for_each l body s).
Proof.
  intros Hb. revert s. induction l as [|x l IH]; intros s; simpl.
  - by intros w Hw.
  - apply maintains_bind; [apply Hb|]. intros s'. apply IH.
Qed.

Lemma maintains_when (I : World -> Prop) b m : maintains I m -> maintains I (when b m).
Proof. destruct b; [done|]. by intros _ w Hw. Qed.

Lemma maintains_use linked : maintains (linked_as linked) use.
Proof.
  intros w (Hp & Hc & Hg & Hu). unfold use, bind, get_this, get_world. rewrite Hc. simpl.
  rewrite Hu. rewrite bool_decide_eq_true_2 by done. simpl. done.
Qed.

Lemma maintains_updateUniform linked name : maintains (linked_as linked) (updateUniform name).
Proof.
  unfold updateUniform. apply maintains_bind; [by intros w Hw|]. intros p.
  destruct (negb (compiled p)); [by intros w Hw|].
  destruct (Obj.get (uniforms p) name) as [u|]; [|by intros w Hw].
  destruct (uniform_location u) as [loc|]; [|by intros w Hw].
  apply maintains_bind; [apply maintains_use|]. intros _.
  destruct (gl_has_method _); by intros w Hw.
Qed.

Lemma maintains_refreshUniforms linked : maintains (linked_as linked) refreshUniforms.
Proof.
  unfold refreshUniforms. apply maintains_bind; [by intros w Hw|]. intros p.
  destruct (negb (compiled p)); [by intros w Hw|].
  apply maintains_for_each. intros u _.
  apply maintains_bind; [by intros w Hw|]. intros p'.
  apply maintains_bind; [by intros w Hw|]. intros _.
  apply maintains_bind; [|intros _; apply maintains_updateUniform].
  intros w Hw. unfold modify_this. simpl.
  by destruct (Obj.get (uniforms (this w)) u).
Qed.

(** X5.  When [GL.updateProgram] throws, the program object is dropped, the
    program is left uncompiled and not compiling, and the error of [compile]
    is thrown; the sources stay as computed and no uniform is touched. *)
Theorem compile_link_failure w d w1 :
  compiling (this w) = false ->
  compile_inject w = (Normal d, w1) ->
  let vf := finish_texts (this w) d (computed w1) in
  GL_updateProgram (program (this w)) vf.1 vf.2 = None ->
  exists w',
    compile w = (Throw (Error_compile (id (this w)) (name (this w))), w')
    /\ program (this w') = None
    /\ compiled (this w') = false
    /\ compiling (this w') = false
    /\ computed w' = vf
    /\ uniforms (this w') = uniforms (this w)
    /\ GLProgram_current w' = GLProgram_current w
    /\ gl w' = gl w ++ [Call_updateProgram (program (this w)) vf.1 vf.2].
Proof.
  intros Hc Hi vf Hgl. rewrite compile_run, Hc, Hi, compile_sources_run. cbn [snd].
  rewrite compile_inject_run in Hi. cbn zeta in Hi. injection Hi as Hd <-.
  fold vf. unfold after_sources, compile_link, try_catch, bind, get_this, call. cbn.
  rewrite Hgl. cbn. eexists. split; [reflexivity|]. cbn.
  clearbody vf. by destruct vf.
Qed.

Lemma maintains_refreshAttributes linked : maintains (linked_as linked) refreshAttributes.
Proof. by intros w Hw. Qed.

(** X6.  When [GL.updateProgram] returns, the program is linked, compiled, not
    compiling and current at the end of [compile], whatever happens while
    the cached uniforms are pushed again; and when [compile] returns
    normally the attribute cache is empty. *)
Theorem compile_link_success w d w1 linked :
  compiling (this w) = false ->
  compile_inject w = (Normal d, w1) ->
  let vf := finish_texts (this w) d (computed w1) in
  GL_updateProgram (program (this w)) vf.1 vf.2 = Some linked ->
  let w' := (compile w).2 in
  linked_as linked w'
  /\ computed w' = vf
  /\ ((compile w).1 = Normal tt -> attribs (this w') = []).
Proof.
  intros Hc Hi vf Hgl w'.
  split; [|split; [by apply compile_computed|]].
  - subst w'. rewrite compile_run, Hc, Hi, compile_sources_run. cbn [snd].
    rewrite compile_inject_run in Hi. cbn zeta in Hi. injection Hi as Hd <-.
    fold vf. unfold after_sources.
    unfold bind at 1. unfold compile_link, try_catch, bind at 1, get_this, call. cbn.
    rewrite Hgl. cbn.
    match goal with |- linked_as _ (bind use ?k ?w0).2 =>
      assert (Hm : maintains (linked_as linked) (k tt));
      [|assert (Hu : linked_as linked (use w0).2)] end.
    + apply maintains_bind; [apply maintains_refreshUniforms|].
      intros _. apply maintains_refreshAttributes.
    + unfold use, bind, get_this, get_world. cbn. by destruct (negb _).
    + unfold bind at 1. match type of Hu with linked_as _ (use ?w0).2 =>
        destruct (use w0) as [[[]|e] w2] end; cbn in *; [by apply Hm|done].
  - subst w'. rewrite compile_run, Hc, Hi. unfold after_sources.
    set (w2 := (compile_sources _ _ _).2). unfold bind.
    destruct (compile_link w2) as [[[]|e] w3]; [|done].
    destruct (use w3) as [[[]|e] w4]; [|done].
    destruct (refreshUniforms w4) as [[[]|e] w5]; [|done]. done.
Qed.

(** X7.  [use] on a program that is not compiled does nothing; on a compiled one
    it makes the program current, calling [useProgram] only when another
    program (or none) was current; a second [use] in a row does nothing. *)
Theorem use_once w :
  (compiled (this w) = false -> use w = (Normal tt, w))
  /\ (compiled (this w) = true ->
        GLProgram_current (use w).2 = Some (id (this w))
        /\ this (use w).2 = this w
        /\ gl (use w).2 =
             gl w ++ (if bool_decide (GLProgram_current w = Some (id (this w))) then []
                      else [Call_useProgram (program (this w))]))
  /\ use (use w).2 = (Normal tt, (use w).2).
Proof.
  unfold use, bind, get_this, get_world, when, call, set_current, ret.
  destruct (compiled (this w)) eqn:Hc; cbn.
  - split; [done|]. split.
    + intros _. case_bool_decide; cbn; [by rewrite app_nil_r|done].
    + case_bool_decide as Hcur; cbn; rewrite Hc; cbn;
        rewrite bool_decide_eq_true_2 by done; cbn; done.
  - split; [by destruct w|]. split; [done|]. by rewrite Hc.
Qed.
End LinkFacts.

Section UniformFacts.
Import Text RegExp GLProgram Observe.
Context `{Imports}.

Lemma use_run w :
  compiled (this w) = true ->
  use w = (Normal tt,
           {| this := this w; GLProgram_current := Some (id (this w));
              GLProgram_defines := GLProgram_defines w;
              GLProgram_transforms := GLProgram_transforms w;
              gl := gl w ++ use_calls w |}).
Proof.
  intros Hc. unfold use, use_calls, bind, get_this, get_world, when, call, set_current, ret.
  rewrite Hc. cbn. case_bool_decide; cbn; [by rewrite app_nil_r|done].
Qed.

Lemma updateUniform_run w name :
  compiled (this w) = true ->
  updateUniform name w =
    match Obj.get (uniforms (this w)) name ≫= uniform_location,
          Obj.get (uniforms (this w)) name with
    | Some l, Some u =>
        if gl_has_method (uniform_method u)
        then (Normal tt,
              {| this := this w; GLProgram_current := Some (id (this w));
                 GLProgram_defines := GLProgram_defines w;
                 GLProgram_transforms := GLProgram_transforms w;
                 gl := gl w ++ use_calls w
                         ++ [Call_uniform (uniform_method u) l (uniform_values u)] |})
        else (Throw (TypeError_not_a_function (uniform_method u)),
              {| this := this w; GLProgram_current := Some (id (this w));
                 GLProgram_defines := GLProgram_defines w;
                 GLProgram_transforms := GLProgram_transforms w;
                 gl := gl w ++ use_calls w |})
    | _, _ => (Normal tt, w)
    end.
Proof.
  intros Hc. unfold updateUniform. unfold bind at 1. unfold get_this. rewrite Hc. cbn.
  destruct (Obj.get (uniforms (this w)) name) as [u|]; cbn; [|done].
  destruct (uniform_location u) as [l|]; cbn; [|done].
  unfold bind. rewrite use_run by done.
  destruct (gl_has_method _); cbn; [|done]. unfold call. cbn. by rewrite <- app_assoc.
Qed.

Lemma keeps_this_use : keeps this use.
Proof.
  unfold use. apply keeps_bind; [done|]. intros p.
  destruct (negb (compiled p)); [done|].
  apply keeps_bind; [done|]. intros w'.
  apply keeps_bind; [apply keeps_when; done|]. intros _. done.
Qed.

Lemma keeps_this_updateUniform name : keeps this (updateUniform name).
Proof.
  unfold updateUniform. apply keeps_bind; [done|]. intros p.
  destruct (negb (compiled p)); [done|].
  destruct (Obj.get (uniforms p) name) as [u|]; [|done].
  destruct (uniform_location u); [|done].
  apply keeps_bind; [apply keeps_this_use|]. intros _.
  by destruct (gl_has_method _).
Qed.

Lemma bind_modify_this {A} f (k : unit -> M A) w :
  bind (modify_this f) k w = k tt (with_this (f (this w)) w).
Proof. done. Qed.



End UniformFacts.

Section RefreshFacts.
Import Text RegExp GLProgram Observe.
Context `{Imports}.

Lemma refreshUniforms_loop w :
  compiled (this w) = true ->
  refreshUniforms w = for_each (Obj.keys (uniforms (this w))) refresh_entry tt w.
Proof. intros Hc. unfold refreshUniforms, bind at 1, get_this. by rewrite Hc. Qed.

Lemma refresh_entry_run u w :
  compiled (this w) = true ->
  refresh_entry u tt w =
    updateUniform u
      {| this := match Obj.get (uniforms (this w)) u with
                 | Some e =>
                     set_uniforms
                       (Obj.set (uniforms (this w)) u
                          {| uniform_name := uniform_name e;
                             uniform_location := gl_getUniformLocation (program (this w)) u;
                             uniform_method := uniform_method e;
                             uniform_values := uniform_values e |}) (this w)
                 | None => this w
                 end;
         GLProgram_current := GLProgram_current w;
         GLProgram_defines := GLProgram_defines w;
         GLProgram_transforms := GLProgram_transforms w;
         gl := gl w ++ [Call_getUniformLocation (program (this w)) u] |}.
Proof. done. Qed.

(** One round of the loop, when it returns. *)
Lemma refresh_entry_step u w w' :
  compiled (this w) = true ->
  refresh_entry u tt w = (Normal tt, w') ->
  compiled (this w') = true
  /\ program (this w') = program (this w)
  /\ (forall k, cached <$> Obj.get (uniforms (this w')) k
                = cached <$> Obj.get (uniforms (this w)) k)
  /\ (forall k, k <> u -> Obj.get (uniforms (this w')) k = Obj.get (uniforms (this w)) k)
  /\ (forall e, Obj.get (uniforms (this w')) u = Some e ->
        uniform_location e = gl_getUniformLocation (program (this w)) u)
  /\ omap pushed (gl w') =
       omap pushed (gl w)
       ++ from_option (fun c => [c]) []
            (Obj.get (uniforms (this w)) u ≫= fun e =>
             gl_getUniformLocation (program (this w)) u ≫= fun l =>
             Some (uniform_method e, l, uniform_values e)).
Proof.
  intros Hc. rewrite refresh_entry_run by done.
  set (w1 := {| this := _ |}).
  assert (Hc1 : compiled (this w1) = true).
  { subst w1. cbn. destruct (Obj.get _ _); [|done]. by destruct (this w). }
  assert (Hp1 : program (this w1) = program (this w)).
  { subst w1. cbn. destruct (Obj.get _ _); [|done]. by destruct (this w). }
  assert (Hu1 : uniforms (this w1) =
    match Obj.get (uniforms (this w)) u with
    | Some e => Obj.set (uniforms (this w)) u
                  {| uniform_name := uniform_name e;
                     uniform_location := gl_getUniformLocation (program (this w)) u;
                     uniform_method := uniform_method e;
                     uniform_values := uniform_values e |}
    | None => uniforms (this w)
    end).
  { subst w1. cbn. destruct (Obj.get _ _); [|done]. by destruct (this w). }
  assert (Hg1 : omap pushed (gl w1) = omap pushed (gl w)).
  { subst w1. cbn. rewrite omap_app. cbn. by rewrite app_nil_r. }
  rewrite updateUniform_run by done. rewrite <- Hg1. clear Hg1.
  assert (Hgl1 : gl w1 = gl w ++ [Call_getUniformLocation (program (this w)) u]) by done.
  clearbody w1.
  destruct (Obj.get (uniforms (this w)) u) as [e|] eqn:He; cbn; rewrite Hu1.
  - rewrite Obj_get_set_eq. cbn.
    assert (Hca : forall k,
      cached <$> Obj.get (Obj.set (uniforms (this w)) u
         {| uniform_name := uniform_name e;
            uniform_location := gl_getUniformLocation (program (this w)) u;
            uniform_method := uniform_method e;
            uniform_values := uniform_values e |}) k
      = cached <$> Obj.get (uniforms (this w)) k).
    { intros k. destruct (decide (u = k)) as [<-|Hne].
      - by rewrite Obj_get_set_eq, He.
      - by rewrite Obj_get_set_ne. }
    destruct (gl_getUniformLocation (program (this w)) u) as [l|] eqn:Hl; cbn.
    + destruct (gl_has_method (uniform_method e)); intros Hr; [|done].
      injection Hr as <-. cbn. rewrite Hu1.
      split; [done|]. split; [done|]. split; [done|]. split; [|split].
      * intros k Hne. by rewrite Obj_get_set_ne.
      * intros e'. rewrite Obj_get_set_eq. by intros [= <-].
      * rewrite !omap_app. cbn. unfold use_calls. by case_bool_decide.
    + intros [= <-]. rewrite Hu1. split; [done|]. split; [done|]. split; [done|].
      split; [|split].
      * intros k Hne. by rewrite Obj_get_set_ne.
      * intros e'. rewrite Obj_get_set_eq. by intros [= <-].
      * by rewrite app_nil_r.
  - rewrite He. cbn. intros [= <-]. rewrite Hu1.
    repeat split; try done; [by rewrite He|by rewrite app_nil_r].
Qed.

Lemma omap_ext_all {A B} (f g : A -> option B) (l : list A) :
  (forall x, f x = g x) -> omap f l = omap g l.
Proof. intros Hfg. induction l as [|x l IH]; [done|]. cbn. by rewrite Hfg, IH. Qed.

Lemma refresh_loop ks : forall w w',
  compiled (this w) = true ->
  for_each ks refresh_entry tt w = (Normal tt, w') ->
  compiled (this w') = true
  /\ program (this w') = program (this w)
  /\ (forall k, cached <$> Obj.get (uniforms (this w')) k
                = cached <$> Obj.get (uniforms (this w)) k)
  /\ (forall k, k ∉ ks -> Obj.get (uniforms (this w')) k = Obj.get (uniforms (this w)) k)
  /\ (forall k e, k ∈ ks -> Obj.get (uniforms (this w')) k = Some e ->
        uniform_location e = gl_getUniformLocation (program (this w)) k)
  /\ omap pushed (gl w') =
       omap pushed (gl w)
       ++ omap (fun k => Obj.get (uniforms (this w)) k ≫= fun e =>
                         gl_getUniformLocation (program (this w)) k ≫= fun l =>
                         Some (uniform_method e, l, uniform_values e)) ks.
Proof.
  induction ks as [|u ks IH]; intros w w' Hc Hr.
  - injection Hr as <-. repeat split; try done.
    + intros k e Hk. by apply elem_of_nil in Hk.
    + cbn. by rewrite app_nil_r.
  - cbn [for_each] in Hr. unfold bind in Hr.
    destruct (refresh_entry u tt w) as [[[]|err] w1] eqn:Hstep; [|done].
    destruct (refresh_entry_step u w w1 Hc Hstep) as (Hc1 & Hp1 & Hca1 & Hne1 & Hl1 & Hg1).
    destruct (IH w1 w' Hc1 Hr) as (Hc' & Hp' & Hca' & Hne' & Hl' & Hg').
    split; [done|]. split; [congruence|]. split; [|split; [|split]].
    + intros k. by rewrite Hca', Hca1.
    + intros k Hk. apply not_elem_of_cons in Hk as [Hku Hk]. rewrite Hne' by done.
      by apply Hne1.
    + intros k e Hk He. destruct (decide (k ∈ ks)) as [Hin|Hnin].
      * rewrite <- Hp1. by apply Hl'.
      * apply elem_of_cons in Hk as [->|Hk]; [|done]. rewrite Hne' in He by done.
        by apply Hl1.
    + rewrite Hg', Hg1, <- app_assoc. f_equal.
      assert (Hext : forall k,
        (Obj.get (uniforms (this w1)) k ≫= fun e =>
         gl_getUniformLocation (program (this w1)) k ≫= fun l =>
         Some (uniform_method e, l, uniform_values e))
        = (Obj.get (uniforms (this w)) k ≫= fun e =>
           gl_getUniformLocation (program (this w)) k ≫= fun l =>
           Some (uniform_method e, l, uniform_values e))).
      { intros k. specialize (Hca1 k).
        destruct (Obj.get (uniforms (this w1)) k) as [e1|],
                 (Obj.get (uniforms (this w)) k) as [e0|]; cbn in *; try done.
        injection Hca1 as Hn Hm Hv. by rewrite Hm, Hv, Hp1. }
      rewrite (omap_ext_all _ _ ks Hext).
      cbn [omap list_omap]. by destruct (Obj.get (uniforms (this w)) u ≫= _).
Qed.

(** X10.  When [refreshUniforms] returns on a compiled program, every entry has
    the name, method and values it had, no entry is added or removed, and
    the location of every entry is the one the graphics context gives for
    the current program. *)
Theorem refreshUniforms_relocates w w' :
  compiled (this w) = true ->
  refreshUniforms w = (Normal tt, w') ->
  program (this w') = program (this w)
  /\ (forall k, cached <$> Obj.get (uniforms (this w')) k
                = cached <$> Obj.get (uniforms (this w)) k)
  /\ (forall k e, Obj.get (uniforms (this w')) k = Some e ->
        uniform_location e = gl_getUniformLocation (program (this w)) k).
Proof.
  intros Hc Hr. rewrite refreshUniforms_loop in Hr by done.
  destruct (refresh_loop _ _ _ Hc Hr) as (_ & Hp & Hca & _ & Hl & _).
  split; [done|]. split; [done|]. intros k e He. apply Hl; [|done].
  specialize (Hca k). rewrite He in Hca.
  destruct (Obj.get (uniforms (this w)) k) as [e0|] eqn:He0; [|done].
  by eapply Obj_get_Some_in.
Qed.

(** X11.  When [refreshUniforms] returns on a compiled program, the setter calls
    it made are, in the order of the cache, one call per cached uniform
    that has a location in the current program, with the cached method and
    values; a cached uniform without a location is skipped. *)
Theorem refreshUniforms_pushes w w' :
  compiled (this w) = true ->
  refreshUniforms w = (Normal tt, w') ->
  omap pushed (gl w') =
    omap pushed (gl w)
    ++ omap (fun k => Obj.get (uniforms (this w)) k ≫= fun e =>
                      gl_getUniformLocation (program (this w)) k ≫= fun l =>
                      Some (uniform_method e, l, uniform_values e))
            (Obj.keys (uniforms (this w))).
Proof.
  intros Hc Hr. rewrite refreshUniforms_loop in Hr by done.
  by destruct (refresh_loop _ _ _ Hc Hr) as (_ & _ & _ & _ & _ & Hg).
Qed.

(** [refreshUniforms] throws only when the context lacks a cached setter. *)
Lemma refresh_loop_throws ks : forall w err w',
  compiled (this w) = true ->
  for_each ks refresh_entry tt w = (Throw err, w') ->
  exists k e, Obj.get (uniforms (this w)) k = Some e
    /\ gl_has_method (uniform_method e) = false
    /\ err = TypeError_not_a_function (uniform_method e).
Proof.
  induction ks as [|u ks IH]; intros w err w' Hc Hr; [done|].
  cbn [for_each] in Hr. unfold bind in Hr.
  destruct (refresh_entry u tt w) as [[[]|err1] w1] eqn:Hstep.
  - destruct (refresh_entry_step u w w1 Hc Hstep) as (Hc1 & _ & Hca1 & _).
    destruct (IH w1 err w' Hc1 Hr) as (k & e & He & Hm & ->).
    specialize (Hca1 k). rewrite He in Hca1.
    destruct (Obj.get (uniforms (this w)) k) as [e0|] eqn:He0; [|done].
    injection Hca1 as _ Hme _. exists k, e0. by rewrite <- Hme.
  - injection Hr as <- <-. rewrite refresh_entry_run in Hstep by done.
    rewrite updateUniform_run in Hstep
      by (cbn; destruct (Obj.get _ _); [by destruct (this w)|done]).
    cbn in Hstep. destruct (Obj.get (uniforms (this w)) u) as [e|] eqn:He.
    + replace (uniforms (set_uniforms _ _)) with
        (Obj.set (uniforms (this w)) u
           {| uniform_name := uniform_name e;
              uniform_location := gl_getUniformLocation (program (this w)) u;
              uniform_method := uniform_method e;
              uniform_values := uniform_values e |}) in Hstep
        by (by destruct (this w)).
      rewrite Obj_get_set_eq in Hstep. cbn in Hstep.
      destruct (gl_getUniformLocation _ _); [|done].
      destruct (gl_has_method (uniform_method e)) eqn:Hm; [done|].
      injection Hstep as <- _. by exists u, e.
    + rewrite He in Hstep. done.
Qed.
End RefreshFacts.

Section ErrorFacts.
Import Text RegExp GLProgram Observe.
Context `{Imports}.

Lemma kept_with_computed vf w : kept (with_computed vf w) = kept w.
Proof. by destruct w as [[] ? ? ? ?]. Qed.

Lemma kept_reset w : kept (reset w) = kept w.
Proof. by destruct w as [[] ? ? ? ?]. Qed.

Lemma flags_with_computed vf w :
  compiled (this (with_computed vf w)) = compiled (this w)
  /\ compiling (this (with_computed vf w)) = compiling (this w).
Proof. by destruct w as [[] ? ? ? ?]. Qed.

Lemma flags_reset w :
  compiled (this (reset w)) = false /\ compiling (this (reset w)) = true.
Proof. by destruct w as [[] ? ? ? ?]. Qed.

(** The [try]/[catch] around [GL.updateProgram]. *)
Lemma compile_link_run w :
  compile_link w =
    let linking :=
      {| this := this w; GLProgram_current := GLProgram_current w;
         GLProgram_defines := GLProgram_defines w;
         GLProgram_transforms := GLProgram_transforms w;
         gl := gl w ++ [Call_updateProgram (program (this w)) (computed w).1 (computed w).2] |} in
    match GL_updateProgram (program (this w)) (computed w).1 (computed w).2 with
    | Some linked =>
        (Normal tt,
         with_this (set_compiling false (set_compiled true
                      (set_program (Some linked) (this w)))) linking)
    | None =>
        (Throw (Error_compile (id (this w)) (name (this w))),
         with_this (set_compiling false (set_compiled false
                      (set_program None (this w)))) linking)
    end.
Proof.
  unfold compile_link, try_catch, bind, get_this, call, modify_this, throw, computed.
  cbn [fst snd this]. destruct (GL_updateProgram _ _ _); cbn; [done|].
  by destruct w as [[] ? ? ? ?].
Qed.

Lemma inject_texts_throws l : forall d vf err vf',
  inject_texts l d vf = (Throw err, vf') ->
  err = TypeError_reduce_of_empty_array
  /\ exists key, (key, []) ∈ l
       /\ (matches (pragma_regexp key) vf'.1 = true
           \/ matches (pragma_regexp key) vf'.2 = true).
Proof.
  induction l as [|[key transform] l IH]; intros d vf err vf' Hr; [done|].
  cbn [inject_texts] in Hr. cbn zeta in Hr.
  destruct (negb (matches (pragma_regexp key) vf.1)
            && negb (matches (pragma_regexp key) vf.2)) eqn:Hm.
  - destruct (IH _ _ _ _ Hr) as (-> & k & Hk & Hmk). split; [done|].
    exists k. split; [by right|done].
  - destruct transform as [|x xs].
    + injection Hr as <- <-. split; [done|]. exists key. split; [by left|].
      apply andb_false_iff in Hm as [Hm|Hm]; apply negb_false_iff in Hm; auto.
    + destruct (IH _ _ _ _ Hr) as (-> & k & Hk & Hmk). split; [done|].
      exists k. split; [by right|done].
Qed.

Lemma refreshUniforms_throws w err w' :
  refreshUniforms w = (Throw err, w') ->
  compiled (this w') = compiled (this w)
  /\ exists k e, Obj.get (uniforms (this w)) k = Some e
    /\ gl_has_method (uniform_method e) = false
    /\ err = TypeError_not_a_function (uniform_method e).
Proof.
  intros Hr. destruct (compiled (this w)) eqn:Hc.
  - split.
    + pose proof (maintains_refreshUniforms) as _.
      assert (Hk : keeps (fun w => compiled (this w)) refreshUniforms).
      { unfold refreshUniforms. apply keeps_bind; [done|]. intros p.
        destruct (negb (compiled p)); [done|].
        apply keeps_for_each. intros u _.
        apply keeps_bind; [done|]. intros p'.
        apply keeps_bind; [done|]. intros _.
        apply keeps_bind.
        - intros w0. unfold modify_this. cbn.
          destruct (Obj.get _ _); [|done]. by destruct (this w0).
        - intros _ w0. by rewrite keeps_this_updateUniform. }
      specialize (Hk w). rewrite Hr in Hk. cbn in Hk. congruence.
    + rewrite refreshUniforms_loop in Hr by done. by eapply refresh_loop_throws.
  - unfold refreshUniforms, bind, get_this in Hr. by rewrite Hc in Hr.
Qed.

(** X12.  The ways [compile] can throw when the registered keys are free
    of pattern metacharacters and of names of inherited properties.  It
    is rejected as reentrant and changes nothing; or the injection loop
    meets a marker whose merged transform list is empty, and the program
    stays flagged as compiling; or [GL.updateProgram] throws, and the
    program is left without a program object, uncompiled; or the program
    was linked but the context lacks the setter of a cached uniform. *)
Theorem compile_throws_only w err w' :
  plain_keys w ->
  compile w = (Throw err, w') ->
  (compiling (this w) = true
   /\ err = Error_already_compiling (id (this w)) (name (this w)) /\ w' = w)
  \/ (compiling (this w) = false
      /\ err = TypeError_reduce_of_empty_array
      /\ compiling (this w') = true /\ compiled (this w') = false
      /\ exists key, (key, []) ∈ merged_transforms w
           /\ (matches (pragma_regexp key) (computed w').1 = true
               \/ matches (pragma_regexp key) (computed w').2 = true))
  \/ (compiling (this w) = false
      /\ err = Error_compile (id (this w)) (name (this w))
      /\ program (this w') = None
      /\ compiled (this w') = false /\ compiling (this w') = false)
  \/ (compiling (this w) = false
      /\ compiled (this w') = true /\ compiling (this w') = false
      /\ exists k e, Obj.get (uniforms (this w)) k = Some e
           /\ gl_has_method (uniform_method e) = false
           /\ err = TypeError_not_a_function (uniform_method e)).
Proof.
  intros _. rewrite compile_run. destruct (compiling (this w)) eqn:Hc.
  { intros [= <- <-]. by left. }
  rewrite compile_inject_run. cbn zeta.
  destruct (inject_texts _ _ _) as [[d|e] vf] eqn:Hi; cbn [fst snd]; intros Hthrow; right;
    revert Hthrow.
  - rewrite compile_sources_run. cbn [snd].
    set (w2 := with_computed _ _).
    assert (Hk2 : kept w2 = kept w)
      by (subst w2; by rewrite !kept_with_computed, kept_reset).
    clearbody w2. injection Hk2 as Hp2 Hu2 Hid2 Hn2 Hcur2 Hg2.
    unfold after_sources. unfold bind at 1. rewrite compile_link_run. cbn zeta.
    destruct (GL_updateProgram _ _ _) as [linked|].
    + set (w3 := with_this _ _).
      assert (H3 : uniforms (this w3) = uniforms (this w2)
                   /\ compiled (this w3) = true /\ compiling (this w3) = false)
        by (subst w3; by destruct (this w2)).
      clearbody w3. destruct H3 as (Hu3 & Hc3 & Hg3).
      unfold bind at 1. rewrite use_run by done.
      set (w4 := {| this := this w3 |}).
      assert (Ht4 : this w4 = this w3) by done.
      clearbody w4. unfold bind at 1.
      destruct (refreshUniforms w4) as [[[]|e] w5] eqn:Hr; [done|].
      intros [= <- <-]. right. right. split; [done|].
      destruct (refreshUniforms_throws _ _ _ Hr) as (Hc5 & k & e0 & He & Hm & ->).
      assert (Hk : keeps (fun w => compiling (this w)) refreshUniforms).
      { intros w0. pose proof (keeps_refreshUniforms w0) as Ht.
        by apply texts_eq in Ht as (_ & _ & Ht). }
      specialize (Hk w4). rewrite Hr in Hk. cbn [snd] in Hk.
      rewrite Ht4 in *.
      split; [congruence|]. split; [congruence|]. exists k, e0.
      by rewrite <- Hu2, <- Hu3.
    + intros [= <- <-]. right. left. split; [done|].
      rewrite <- Hid2, <- Hn2. split; [done|]. by destruct (this w2).
  - intros [= <- <-]. left. split; [done|].
    destruct (inject_texts_throws _ _ _ _ _ Hi) as (-> & key & Hk & Hm).
    split; [done|].
    destruct (flags_with_computed vf (reset w)) as [-> ->].
    destruct (flags_reset w) as [-> ->].
    split; [done|]. split; [done|]. exists key. by rewrite computed_with_computed.
Qed.
End ErrorFacts.

Section TextureFacts.
Import Text RegExp GLProgram Observe.
Context `{Imports}.

Lemma keeps_units_use : keeps units use.
Proof.
  unfold use. apply keeps_bind; [done|]. intros p.
  destruct (negb (compiled p)); [done|].
  apply keeps_bind; [done|]. intros w'.
  apply keeps_bind; [apply keeps_when|]; [|done].
  intros w. unfold units, call. cbn. rewrite omap_app. cbn. by rewrite app_nil_r.
Qed.

Lemma keeps_units_updateUniform name : keeps units (updateUniform name).
Proof.
  unfold updateUniform. apply keeps_bind; [done|]. intros p.
  destruct (negb (compiled p)); [done|].
  destruct (Obj.get (uniforms p) name) as [u|]; [|done].
  destruct (uniform_location u) as [l|]; [|done].
  apply keeps_bind; [apply keeps_units_use|]. intros _.
  destruct (gl_has_method _); [|done].
  intros w. unfold units, call. cbn. rewrite omap_app. cbn. by rewrite app_nil_r.
Qed.

Lemma keeps_units_uniform method name values : keeps units (uniform method name values).
Proof.
  unfold uniform. apply keeps_bind; [done|]. intros p.
  destruct (negb (compiled p)); [done|].
  apply keeps_bind.
  { destruct (_ ≫= _); [done|]. apply keeps_bind; [|done].
    intros w. unfold units, call. cbn. rewrite omap_app. cbn. by rewrite app_nil_r. }
  intros loc. apply keeps_bind; [|intros _; apply keeps_units_updateUniform].
  intros w. unfold units, modify_this. cbn. by destruct (this w).
Qed.

Lemma setTextureUniform_units uniform_name texture_name w :
  units (setTextureUniform uniform_name texture_name w).2 =
    (compiled (this w),
     match (setTextureUniform uniform_name texture_name w).1 with
     | Normal _ => S (texture_unit (this w))
     | Throw _ => texture_unit (this w)
     end,
     omap bound (gl w) ++ [(texture_name, texture_unit (this w))]).
Proof.
  unfold setTextureUniform, bind, get_world, get_this, when, call, ret, modify_this.
  destruct (negb (GLTexture_textures (gl w) texture_name)); cbn -[uniform].
  - match goal with |- context [uniform ?m ?n ?v ?w2] =>
      pose proof (keeps_units_uniform m n v w2) as Hk;
      destruct (uniform m n v w2) as [[[]|e] w3] end; cbn in *;
      unfold units in *; cbn in *; rewrite !omap_app in Hk; cbn in Hk;
      rewrite !app_nil_r in Hk; injection Hk as -> -> ->; by destruct (this w3).
  - match goal with |- context [uniform ?m ?n ?v ?w2] =>
      pose proof (keeps_units_uniform m n v w2) as Hk;
      destruct (uniform m n v w2) as [[[]|e] w3] end; cbn in *;
      unfold units in *; cbn in *; rewrite !omap_app in Hk; cbn in Hk;
      injection Hk as -> -> ->; by destruct (this w3).
Qed.

Lemma bound_units_sampler first u l :
  parsed_type u = t<"sampler2D"> ->
  length (samplers (u :: l)) = S (length (samplers l))
  /\ bound_units first (u :: l) = (parsed_value u, first) :: bound_units (S first) l.
Proof.
  intros Hs. unfold bound_units, samplers. rewrite filter_cons_True by done. done.
Qed.

Lemma bound_units_other first u l :
  parsed_type u <> t<"sampler2D"> ->
  length (samplers (u :: l)) = length (samplers l)
  /\ bound_units first (u :: l) = bound_units first l.
Proof.
  intros Hs. unfold bound_units, samplers. rewrite filter_cons_False by done. done.
Qed.

Lemma set_parsed_loop l : forall w w',
  for_each l set_parsed tt w = (Normal tt, w') ->
  units w' =
    (compiled (this w), texture_unit (this w) + length (samplers l),
     omap bound (gl w) ++ bound_units (texture_unit (this w)) l).
Proof.
  induction l as [|u l IH]; intros w w' Hr.
  - injection Hr as <-. unfold units, bound_units. cbn. by rewrite Nat.add_0_r, app_nil_r.
  - cbn [for_each] in Hr. unfold bind in Hr.
    destruct (set_parsed u tt w) as [[[]|e] w1] eqn:Hstep; [|done].
    rewrite (IH _ _ Hr). unfold set_parsed in Hstep. case_bool_decide as Hs.
    + destruct (bound_units_sampler (texture_unit (this w)) u l Hs) as [-> ->].
      pose proof (setTextureUniform_units (parsed_name u) (parsed_value u) w) as Hu.
      rewrite Hstep in Hu. cbn in Hu. unfold units in Hu. injection Hu as -> -> ->.
      rewrite <- app_assoc. cbn. f_equal. f_equal. lia.
    + destruct (bound_units_other (texture_unit (this w)) u l Hs) as [-> ->].
      pose proof (keeps_units_uniform (parsed_method u) (parsed_name u) [parsed_value u] w) as Hu.
      rewrite Hstep in Hu. cbn in Hu. unfold units in Hu. by injection Hu as -> -> ->.
Qed.

(** X13.  When [setUniforms] returns on a compiled program, the texture unit
    counter has advanced from its start (the unit given, or 0) by the
    number of sampler uniforms, and the textures bound are those of the
    sampler uniforms, in order, on consecutive units from the start. *)
Theorem setUniforms_texture_units us first w w' :
  compiled (this w) = true ->
  setUniforms us first w = (Normal tt, w') ->
  let parsed := GLSL_parseUniforms us in
  texture_unit (this w') = default 0 first + length (samplers parsed)
  /\ omap bound (gl w') = omap bound (gl w) ++ bound_units (default 0 first) parsed.
Proof.
  intros Hc Hr parsed. unfold setUniforms in Hr. unfold bind at 1 in Hr. unfold get_this in Hr.
  rewrite Hc in Hr. cbn [negb] in Hr. rewrite bind_modify_this in Hr. fold parsed in Hr.
  apply set_parsed_loop in Hr. unfold units in Hr. cbn in Hr.
  injection Hr as _ Ht Hg. rewrite Ht, Hg. by destruct (this w).
Qed.
End TextureFacts.

Section TransformFacts.
Import Text RegExp GLProgram Observe.
Context `{Imports}.


(** X14.  [addTransform] appends to the array registered under the key, for
    a key that is no name of an inherited property.  On a key that holds a
    non-empty source string it throws and changes nothing; otherwise the
    key then holds the array it had (none when it was absent or held the
    empty string) followed by the new sources, and no other key and
    nothing of the program changes. *)
Theorem addTransform_appends w key new :
  own_name key ->
  let old := match Obj.get (GLProgram_transforms w) key with
             | Some (TransformArray l) => l
             | _ => []
             end in
  match Obj.get (GLProgram_transforms w) key with
  | Some (TransformSource (_ :: _)) =>
      addTransform key new w = (Throw (TypeError_not_a_function t<"push">), w)
  | _ =>
      exists w',
        addTransform key new w = (Normal tt, w')
        /\ Obj.get (GLProgram_transforms w') key = Some (TransformArray (old ++ new))
        /\ (forall other, other <> key ->
              Obj.get (GLProgram_transforms w') other = Obj.get (GLProgram_transforms w) other)
        /\ (Obj.wf (GLProgram_transforms w) -> Obj.wf (GLProgram_transforms w'))
        /\ this w' = this w /\ gl w' = gl w /\ GLProgram_defines w' = GLProgram_defines w
  end.
Proof.
  intros _. unfold addTransform, bind, get_world.
  destruct (Obj.get (GLProgram_transforms w) key) as [[[|c s]|l]|] eqn:Hg; cbn; [|done|..];
    (eexists; split; [reflexivity|]; cbn;
     split; [apply Obj_get_set_eq|];
     split; [intros other Hne; by apply Obj_get_set_ne|];
     split; [apply Obj_wf_set|done]).
Qed.

(** X15.  When [addTransform] returns, a second [addTransform] on the same
    key gives what a single call with both lists gives. *)
Theorem addTransform_twice w key new1 new2 :
  (addTransform key new1 w).1 = Normal tt ->
  addTransform key new2 (addTransform key new1 w).2 = addTransform key (new1 ++ new2) w.
Proof.
  unfold addTransform, bind, get_world.
  destruct (Obj.get (GLProgram_transforms w) key) as [[[|c s]|l]|] eqn:Hg; cbn; [|done|..];
    intros _; rewrite Obj_get_set_eq; unfold set_GLProgram_transforms; cbn;
    by rewrite Obj_set_set, ?app_assoc.
Qed.


End TransformFacts.

Section RepushFacts.
Import Text RegExp GLProgram Observe.
Context `{Imports}.

(** X18.  On tables whose keys are no names of inherited properties,
    [buildShaderTransformList] changes nothing and returns a table with
    one entry per key of either table: the sources registered globally
    under the key, then the sources of the program, a single source string
    counting as a one-element list.  (The entry is read under a [key] that
    is no such name either.) *)
Theorem buildShaderTransformList_global_then_program w key :
  Obj.wf (GLProgram_transforms w) -> Obj.wf (transforms (this w)) ->
  Forall own_name (transform_keys w) -> own_name key ->
  exists merged,
    buildShaderTransformList w = (Normal merged, w)
    /\ Obj.wf merged
    /\ Obj.get merged key =
         match Obj.get (GLProgram_transforms w) key, Obj.get (transforms (this w)) key with
         | None, None => None
         | _, _ => Some (sources_at (GLProgram_transforms w) key
                         ++ sources_at (transforms (this w)) key)
         end.
Proof.
  intros Hg Hp _ _. exists (merged_transforms w). split; [done|].
  split; [apply merged_transforms_wf|]. by apply merged_transforms_get.
Qed.

(** X19.  When [compile] returns, the program is linked and the setter calls made
    on the way are those of the uniform cache: one call per cached uniform
    that has a location in the linked program, in the order of the cache,
    with the cached method and values.  The cache keeps its names, methods
    and values. *)
Theorem compile_pushes_cache w w' :
  compile w = (Normal tt, w') ->
  exists linked,
    program (this w') = Some linked
    /\ compiled (this w') = true
    /\ omap pushed (gl w') =
         omap pushed (gl w)
         ++ omap (fun k => Obj.get (uniforms (this w)) k ≫= fun e =>
                           gl_getUniformLocation (Some linked) k ≫= fun l =>
                           Some (uniform_method e, l, uniform_values e))
                 (Obj.keys (uniforms (this w)))
    /\ (forall k, cached <$> Obj.get (uniforms (this w')) k
                  = cached <$> Obj.get (uniforms (this w)) k)
    /\ (forall k e, Obj.get (uniforms (this w')) k = Some e ->
          uniform_location e = gl_getUniformLocation (Some linked) k).
Proof.
  rewrite compile_run. destruct (compiling (this w)) eqn:Hc; [done|].
  rewrite compile_inject_run. cbn zeta.
  destruct (inject_texts _ _ _) as [[d|e] vf] eqn:Hi; cbn [fst snd]; [|done].
  rewrite compile_sources_run. cbn [snd].
  set (w2 := with_computed _ _).
  assert (Hk2 : kept w2 = kept w)
    by (subst w2; by rewrite !kept_with_computed, kept_reset).
  clearbody w2. injection Hk2 as Hp2 Hu2 Hid2 Hn2 Hcur2 Hg2.
  unfold after_sources. unfold bind at 1. rewrite compile_link_run. cbn zeta.
  destruct (GL_updateProgram _ _ _) as [linked|]; [|done].
  set (w3 := with_this _ _).
  assert (H3 : uniforms (this w3) = uniforms (this w2)
               /\ compiled (this w3) = true
               /\ omap pushed (gl w3) = omap pushed (gl w2)
               /\ program (this w3) = Some linked).
  { subst w3. cbn [with_this this gl]. rewrite omap_app. cbn [omap list_omap pushed].
    rewrite app_nil_r. by destruct (this w2). }
  clearbody w3. destruct H3 as (Hu3 & Hc3 & Hg3 & Hp3).
  unfold bind at 1. rewrite use_run by done.
  set (w4 := {| this := this w3 |}).
  assert (Hg4 : omap pushed (gl w4) = omap pushed (gl w3)).
  { subst w4. cbn [gl]. rewrite omap_app. unfold use_calls.
    case_bool_decide; cbn [omap list_omap pushed]; by rewrite app_nil_r. }
  assert (Ht4 : this w4 = this w3) by done.
  clearbody w4. unfold bind at 1.
  destruct (refreshUniforms w4) as [[[]|e] w5] eqn:Hr; [|done].
  intros [= <-]. exists linked.
  rewrite refreshUniforms_loop in Hr by (by rewrite Ht4).
  apply refresh_loop in Hr as (Hc5 & Hp5 & Hca5 & _ & Hl5 & Hg5); [|by rewrite Ht4].
  rewrite Ht4 in *. rewrite Hp3, Hu3, Hu2 in *.
  unfold refreshAttributes, modify_this. cbn [this gl].
  replace (program (set_attribs [] (this w5))) with (program (this w5)) by (by destruct (this w5)).
  replace (compiled (set_attribs [] (this w5))) with (compiled (this w5)) by (by destruct (this w5)).
  replace (uniforms (set_attribs [] (this w5))) with (uniforms (this w5)) by (by destruct (this w5)).
  split; [done|]. split; [done|]. split; [by rewrite Hg5, Hg4, Hg3, Hg2|].
  split; [done|]. intros k e He. apply Hl5; [|done].
  specialize (Hca5 k). rewrite He in Hca5.
  destruct (Obj.get (uniforms (this w)) k) as [e0|] eqn:He0; [|done].
  by eapply Obj_get_Some_in.
Qed.
End RepushFacts.

Section TileBuildFacts.
Import Tile TileTerms.
Context {Num Polygon Line Point Properties RuleProperties BaseContext
         StyleInfo VertexData Buffer RuleTree : Type}.
Context (num_lt : Num -> Num -> bool).
Context (getFeatureParseContext :
           @Feature Polygon Line Point Properties ->
           @Tile.Tile Num Polygon Line Point Properties Buffer -> BaseContext)
        (default_style_name : string)
        (matchFeature : RuleTree ->
                        @Context RuleProperties BaseContext ->
                        list (@MatchedRule RuleProperties BaseContext) ->
                        list (@MatchedRule RuleProperties BaseContext))
        (end_buffer : VertexData -> Buffer).

Implicit Types (t : @Tile.Tile Num Polygon Line Point Properties Buffer)
  (styles : gmap string
     (@Style Num Polygon Line Point Properties RuleProperties BaseContext StyleInfo
             VertexData Buffer))
  (b : @Build Num Polygon Line Point Properties VertexData Buffer)
  (rule : @MatchedRule RuleProperties BaseContext).

Lemma render_rule_keeps styles feature rule st st' :
  render_rule num_lt default_style_name styles feature rule st = Returns st' ->
  key (tile st'.1) = key (tile st.1)
  /\ debug_rendering (tile st'.1) = debug_rendering (tile st.1)
  /\ (forall m, is_Some (build_vertex_data st'.1 !! m) ->
        is_Some (build_vertex_data st.1 !! m) \/ style_names styles m).
Proof.
  unfold render_rule. destruct st as [b context].
  destruct (negb (visible rule)); [intros [= <-]; auto|].
  destruct (styles !! _) as [style|] eqn:Hs; [|done].
  destruct (parseFeature style _ _ _ _) as [fs|]; [|intros [= <-]; auto].
  intros [= <-]. cbn.
  split; [|split].
  - destruct (num_lt (order fs) (order_min (tile b))); cbn;
      match goal with |- context [if ?c then _ else _] => destruct c end; done.
  - destruct (num_lt (order fs) (order_min (tile b))); cbn;
      match goal with |- context [if ?c then _ else _] => destruct c end; done.
  - intros m Hm. destruct (decide (name style = m)) as [<-|Hne].
    + right. by eexists _, _.
    + left. by rewrite lookup_insert_ne in Hm.
Qed.

Lemma render_rules_keeps styles feature rules st st' :
  render_rules num_lt default_style_name styles feature rules st = Returns st' ->
  key (tile st'.1) = key (tile st.1)
  /\ debug_rendering (tile st'.1) = debug_rendering (tile st.1)
  /\ (forall m, is_Some (build_vertex_data st'.1 !! m) ->
        is_Some (build_vertex_data st.1 !! m) \/ style_names styles m).
Proof.
  revert st. induction rules as [|rule rules IH]; intros st Hr; cbn in Hr.
  - injection Hr as <-. auto.
  - destruct (render_rule _ _ _ _ rule st) as [st1|] eqn:H1; [|done]. cbn in Hr.
    destruct (IH _ Hr) as (Hk & Hd & Hv).
    destruct (render_rule_keeps _ _ _ _ _ H1) as (Hk1 & Hd1 & Hv1).
    split; [congruence|]. split; [congruence|].
    intros m Hm. destruct (Hv m Hm) as [Hm1|]; auto.
Qed.

Lemma relabelled_refl names (o : loc -> @Feature Polygon Line Point Properties) :
  relabelled names o o.
Proof. intros l. auto. Qed.

Lemma relabelled_trans names names' (o1 o2 o3 : loc -> @Feature Polygon Line Point Properties) :
  relabelled names o1 o2 -> relabelled names' o2 o3 -> relabelled (names ++ names') o1 o3.
Proof.
  intros H12 H23 l. destruct (H12 l) as (Hp & Hg & Hl), (H23 l) as (Hp' & Hg' & Hl').
  split; [congruence|]. split; [congruence|].
  destruct Hl' as [Hl'|(n & Hn & Hl')].
  - destruct Hl as [Hl|(n & Hn & Hl)]; [left; congruence|].
    right. exists n. split; [apply elem_of_app; by left|congruence].
  - right. exists n. split; [apply elem_of_app; by right|done].
Qed.

Lemma relabelled_label_feature name r t :
  relabelled [name] (objects t) (objects (label_feature name r t).2).
Proof.
  destruct r as [l0|feature]; [|apply relabelled_refl].
  intros l. cbn. unfold store. case_bool_decide as Hl; [subst l|by auto].
  cbn. split; [done|]. split; [done|]. right. exists name.
  split; [apply list_elem_of_here|done].
Qed.

Lemma relabelled_same names (o1 o2 : loc -> @Feature Polygon Line Point Properties) :
  relabelled (names ++ names) o1 o2 -> relabelled names o1 o2.
Proof.
  intros H l. destruct (H l) as (Hp & Hg & [Hl|(n & Hn & Hl)]); [by auto|].
  split; [done|]. split; [done|]. right. exists n.
  split; [by apply elem_of_app in Hn as [?|?]|done].
Qed.

Lemma relabelled_label_features name refs t :
  relabelled [name] (objects t) (objects (label_features name refs t)).
Proof.
  revert t. induction refs as [|r refs IH]; intros t; [apply relabelled_refl|].
  rewrite label_features_cons. apply relabelled_same.
  eapply relabelled_trans; [apply relabelled_label_feature|apply IH].
Qed.

Lemma build_feature_keeps styles layer_rules name feature b b' :
  build_feature num_lt getFeatureParseContext default_style_name matchFeature
    styles layer_rules name feature b = Returns b' ->
  key (tile b') = key (tile b)
  /\ debug_rendering (tile b') = debug_rendering (tile b)
  /\ (forall m, is_Some (build_vertex_data b' !! m) ->
        is_Some (build_vertex_data b !! m) \/ style_names styles m).
Proof.
  unfold build_feature. intros Hb.
  destruct (render_rules _ _ _ _ _ _) as [[b1 c1]|] eqn:Hr; [|done].
  cbn in Hb. injection Hb as <-. cbn.
  apply render_rules_keeps in Hr. cbn in Hr.
  destruct (label_feature_fields name feature (tile b)) as (Hk & _ & Hd & _).
  by rewrite Hk, Hd in Hr.
Qed.

Lemma build_features_keeps styles layer_rules name fs b b' :
  build_features num_lt getFeatureParseContext default_style_name matchFeature
    styles layer_rules name fs b = Returns b' ->
  key (tile b') = key (tile b)
  /\ debug_rendering (tile b') = debug_rendering (tile b)
  /\ (forall m, is_Some (build_vertex_data b' !! m) ->
        is_Some (build_vertex_data b !! m) \/ style_names styles m).
Proof.
  revert b. induction fs as [|feature fs IH]; intros b Hb; cbn in Hb.
  - injection Hb as <-. auto.
  - destruct (build_feature _ _ _ _ styles layer_rules name feature b) as [b1|] eqn:H1;
      [|done].
    cbn in Hb. destruct (IH _ Hb) as (Hk & Hd & Hv).
    destruct (build_feature_keeps _ _ _ _ _ _ H1) as (Hk1 & Hd1 & Hv1).
    split; [congruence|]. split; [congruence|].
    intros m Hm. destruct (Hv m Hm) as [Hm1|]; auto.
Qed.

Lemma build_layers_keeps rules styles ls b b' :
  build_layers num_lt getFeatureParseContext default_style_name matchFeature
    rules styles ls b = Returns b' ->
  key (tile b') = key (tile b)
  /\ debug_rendering (tile b') = debug_rendering (tile b)
  /\ relabelled ls.*1 (objects (tile b)) (objects (tile b'))
  /\ (forall m, is_Some (build_vertex_data b' !! m) ->
        is_Some (build_vertex_data b !! m) \/ style_names styles m).
Proof.
  revert b. induction ls as [|[name layer] ls IH]; intros b Hb; cbn [build_layers] in Hb.
  - injection Hb as <-. split; [done|]. split; [done|]. split; [apply relabelled_refl|auto].
  - destruct (build_layer _ _ _ _ _ _ _ b) as [b1|] eqn:H1; [|done]. cbn in Hb.
    destruct (IH _ Hb) as (Hk & Hd & Ho & Hv). unfold build_layer in H1.
    destruct (layer_geometry layer) as [source|].
    + destruct (getGeometryForSource (tile b) (Some source)) as [[geom|]|]; [|done|done].
      cbn in H1.
      destruct (build_features_keeps _ _ _ _ _ _ H1) as (Hk1 & Hd1 & Hv1).
      apply build_features_returns in H1 as (_ & _ & Ho1).
      split; [congruence|]. split; [congruence|]. split.
      * change (((name, layer) :: ls).*1) with ([name] ++ ls.*1).
        apply (relabelled_trans [name] ls.*1 _ (objects (tile b1))); [|done].
        rewrite Ho1. apply relabelled_label_features.
      * intros m Hm. destruct (Hv m Hm) as [Hm1|]; auto.
    + injection H1 as <-. split; [done|]. split; [done|]. split; [|done].
      change (((name, layer) :: ls).*1) with ([name] ++ ls.*1).
      apply (relabelled_trans [name] ls.*1 _ (objects (tile b))); [apply relabelled_refl|done].
Qed.

(** X20.  When [buildGeometry] returns, the tile has the key and the layers it
    had; the features it holds have the properties and the geometry they
    had, and each has the [layer] it had or the name of one of the layers
    of the call; the rendering time of the tile is the difference of the
    two clock readings; and the tile has a buffer only under names that
    styles of the table give themselves. *)
Theorem buildGeometry_buffers_of_styles started finished tile0 layers_ rules styles t' :
  buildGeometry num_lt getFeatureParseContext default_style_name matchFeature end_buffer
    started finished tile0 layers_ rules styles = Returns t' ->
  key t' = key tile0
  /\ layers t' = layers tile0
  /\ relabelled layers_.*1 (objects tile0) (objects t')
  /\ debug_rendering t' = (finished - started)%Z
  /\ (forall m, is_Some (vertex_data t' !! m) -> style_names styles m).
Proof.
  unfold buildGeometry. intros Hb.
  destruct (build_layers _ _ _ _ _ _ _ _) as [b|] eqn:Hl; [|done].
  cbn in Hb. injection Hb as <-. cbn.
  destruct (build_layers_keeps _ _ _ _ _ Hl) as (Hk & Hd & Ho & Hv).
  apply build_layers_returns in Hl as [_ Hla]. cbn in *.
  split; [done|]. split; [done|]. split; [done|]. split; [by rewrite Hd|].
  intros m Hm. rewrite lookup_fmap in Hm. apply fmap_is_Some in Hm.
  destruct (Hv m Hm) as [Hm0|]; [|done]. rewrite lookup_empty in Hm0. by destruct Hm0.
Qed.

(** X21.  A layer without a geometry source takes no part in
    [buildGeometry]: the call gives what it gives on the layers that have
    one. *)
Theorem buildGeometry_skips_layers_without_geometry started finished tile0 layers_ rules styles :
  buildGeometry num_lt getFeatureParseContext default_style_name matchFeature end_buffer
    started finished tile0 layers_ rules styles
  = buildGeometry num_lt getFeatureParseContext default_style_name matchFeature end_buffer
      started finished tile0
      (base.filter (fun entry : string * @Layer Polygon Line Point Properties =>
                 is_Some (layer_geometry entry.2)) layers_) rules styles.
Proof.
  unfold buildGeometry. f_equal.
  match goal with |- build_layers _ _ _ _ _ _ _ ?b0 = _ => generalize b0 end.
  induction layers_ as [|[name layer] ls IH]; intros b; [done|].
  destruct (layer_geometry layer) as [source|] eqn:Hg.
  - rewrite filter_cons_True by (cbn; by rewrite Hg). cbn [build_layers].
    destruct (build_layer _ _ _ _ _ _ _ b) as [b1|]; [|done]. cbn. apply IH.
  - rewrite filter_cons_False by (cbn; rewrite Hg; by intros [? ?]).
    cbn [build_layers]. unfold build_layer at 1. rewrite Hg. cbn. apply IH.
Qed.



(** [merge] as one map operation: the other object without its [key],
    over the tile. *)
Lemma merge_union {V} (this other : gmap string V) :
  merge this other = base.filter (fun kv => kv.1 ≠ "key"%string) other ∪ this.
Proof.
  unfold merge.
  apply (map_fold_weak_ind
           (fun r m => r = base.filter (fun kv => kv.1 ≠ "key"%string) m ∪ this)).
  - rewrite map_filter_empty. by rewrite (left_id_L ∅ (∪)).
  - intros i x m r Hi ->. case_bool_decide as Hk.
    + rewrite map_filter_insert_True by done. by rewrite insert_union_l.
    + rewrite map_filter_insert_False by (simpl; by intros []).
      rewrite delete_id by done. done.
Qed.

Lemma lookup_without_key {V} (m : gmap string V) (k : string) :
  base.filter (fun kv => kv.1 ≠ "key"%string) m !! k
  = if bool_decide (k = "key"%string) then None else m !! k.
Proof.
  case_bool_decide as Hk.
  - apply map_lookup_filter_None. right. intros x _. simpl. by intros [].
  - destruct (m !! k) as [x|] eqn:Hm.
    + by apply map_lookup_filter_Some.
    + apply map_lookup_filter_None. by left.
Qed.

(** X23.  Merging two objects in a row is merging the second over the first in
    one go; merging the same object again, or the empty object, changes
    nothing. *)
Theorem merge_compose {V} (this a b : gmap string V) :
  merge (merge this a) b = merge this (b ∪ a)
  /\ merge (merge this a) a = merge this a
  /\ merge this ∅ = this.
Proof.
  rewrite !merge_union. split; [|split].
  - apply map_eq. intros k. rewrite !lookup_union, !lookup_without_key, !lookup_union.
    case_bool_decide; [by destruct (this !! k)|].
    by destruct (b !! k), (a !! k), (this !! k).
  - apply map_eq. intros k. rewrite !lookup_union, !lookup_without_key.
    case_bool_decide; [by destruct (this !! k)|]. by destruct (a !! k), (this !! k).
  - rewrite map_filter_empty. by rewrite (left_id_L ∅ (∪)).
Qed.
End TileBuildFacts.

Section EventFacts.
Import Events.
Context {Listener Data : Type} `{EqDecision Listener}.
Implicit Types (events : gmap string (list Listener)) (l : Listener) (d : Data).

Lemma set_add_twice l (s : list Listener) : set_add l (set_add l s) = set_add l s.
Proof.
  unfold set_add. destruct (decide (l ∈ s)) as [Hin|Hnin].
  - rewrite (bool_decide_eq_true_2 (l ∈ s)) by done.
    by rewrite (bool_decide_eq_true_2 (l ∈ s)).
  - rewrite (bool_decide_eq_false_2 (l ∈ s)) by done.
    rewrite bool_decide_eq_true_2; [done|]. apply elem_of_app. right. by left.
Qed.

Lemma on_lookup event l events e :
  on event l events !! e =
    if bool_decide (e = event) then Some (set_add l (listeners event events))
    else events !! e.
Proof.
  unfold on, listeners. case_bool_decide as He.
  - subst e. destruct (events !! event) as [s|] eqn:Hs; cbn.
    + rewrite Hs. by rewrite lookup_insert_eq.
    + rewrite lookup_insert_eq. by rewrite lookup_insert_eq.
  - destruct (events !! event) as [s|] eqn:Hs; cbn.
    + rewrite Hs. by rewrite lookup_insert_ne.
    + rewrite lookup_insert_eq. by rewrite !lookup_insert_ne.
Qed.

Lemma off_lookup event l events e :
  off event l events !! e =
    if bool_decide (e = event) then set_delete l <$> events !! event
    else events !! e.
Proof.
  unfold off. case_bool_decide as He.
  - subst e. destruct (events !! event) as [s|] eqn:Hs; cbn; [|done].
    by rewrite lookup_insert_eq.
  - destruct (events !! event) as [s|] eqn:Hs; cbn; [|done].
    by rewrite lookup_insert_ne.
Qed.

(** X24.  After [on(event, listener)] a [trigger] of the event calls the
    listeners it called before, in the same order, and then the new
    listener; a listener that was subscribed already keeps its place and is
    not called twice.  Subscribing again changes nothing, and the calls of
    other events are unchanged. *)
Theorem on_subscribes_once event l events d :
  trigger event d (on event l events) =
    (if bool_decide (l ∈ listeners event events) then trigger event d events
     else trigger event d events ++ [(l, d)])
  /\ on event l (on event l events) = on event l events
  /\ (forall other, other <> event ->
        trigger other d (on event l events) = trigger other d events).
Proof.
  split; [|split].
  - unfold trigger. rewrite on_lookup, bool_decide_eq_true_2 by done.
    unfold set_add, listeners. destruct (events !! event) as [s|]; cbn.
    + case_bool_decide; [done|]. by rewrite map_app.
    + rewrite bool_decide_eq_false_2; [done|]. apply not_elem_of_nil.
  - apply map_eq. intros e. rewrite !on_lookup. case_bool_decide; [|done].
    f_equal. unfold listeners at 1. rewrite on_lookup, bool_decide_eq_true_2 by done. cbn.
    apply set_add_twice.
  - intros other Hne. unfold trigger. by rewrite on_lookup, bool_decide_eq_false_2.
Qed.

(** X25.  After [off(event, listener)] a [trigger] of the event makes the calls
    it made before except the one to that listener.  [off] of a listener
    that is not subscribed, or of an event without listeners, changes
    nothing, and the calls of other events are unchanged. *)
Theorem off_unsubscribes event l events d :
  trigger event d (off event l events)
    = base.filter (fun c => c.1 ≠ l) (trigger event d events)
  /\ (l ∉ listeners event events -> off event l events = events)
  /\ (forall other, other <> event ->
        trigger other d (off event l events) = trigger other d events).
Proof.
  split; [|split].
  - unfold trigger. rewrite off_lookup, bool_decide_eq_true_2 by done.
    destruct (events !! event) as [s|]; cbn; [|done].
    unfold set_delete. induction s as [|x s IH]; [done|].
    cbn [map]. rewrite !filter_cons. cbn [fst].
    destruct (decide (x ≠ l)); cbn [map]; by rewrite IH.
  - intros Hl. apply map_eq. intros e. rewrite off_lookup. case_bool_decide as He; [|done].
    subst e. unfold listeners in Hl. destruct (events !! event) as [s|]; cbn in *; [|done].
    f_equal. unfold set_delete. clear -Hl. induction s as [|x s IH]; [done|].
    apply not_elem_of_cons in Hl as [Hne Hl]. rewrite filter_cons_True by done.
    f_equal. by apply IH.
  - intros other Hne. unfold trigger. by rewrite off_lookup, bool_decide_eq_false_2.
Qed.

Lemma sets_on event l events : sets events -> sets (on event l events).
Proof.
  intros Hs e s. rewrite on_lookup. case_bool_decide as He; [|apply Hs].
  intros [= <-]. unfold set_add, listeners.
  destruct (events !! event) as [s0|] eqn:H0; cbn.
  - specialize (Hs _ _ H0). case_bool_decide as Hin; [done|].
    apply NoDup_app. split; [done|]. split; [|apply NoDup_singleton].
    intros x Hx Hx'. apply list_elem_of_singleton in Hx'. by subst.
  - rewrite bool_decide_eq_false_2 by apply not_elem_of_nil. apply NoDup_singleton.
Qed.

Lemma sets_off event l events : sets events -> sets (off event l events).
Proof.
  intros Hs e s. rewrite off_lookup. case_bool_decide as He; [|apply Hs].
  destruct (events !! event) as [s0|] eqn:H0; cbn; [|done].
  intros [= <-]. apply NoDup_filter. by eapply Hs.
Qed.

Lemma sets_on_all ls : forall events, sets events -> sets (on_all ls events).
Proof.
  induction ls as [|[e l] ls IH]; intros events Hs; [done|].
  cbn. apply IH. by apply sets_on.
Qed.

(** X26.  The registry starts empty, and [on], [on] with an object and [off]
    keep every listener at most once in a set; so a [trigger] calls no
    listener twice, and after [off] it does not call the listener at all. *)
Theorem trigger_calls_once event l ls events d :
  sets events ->
  sets (on event l events) /\ sets (off event l events) /\ sets (on_all ls events)
  /\ NoDup (trigger event d events).*1
  /\ l ∉ (trigger event d (off event l events)).*1.
Proof.
  intros Hs. split; [by apply sets_on|]. split; [by apply sets_off|].
  split; [by apply sets_on_all|]. split.
  - unfold trigger. destruct (events !! event) as [s|] eqn:H0; cbn; [|constructor].
    rewrite <- list_fmap_compose. cbn. rewrite list_fmap_id. by eapply Hs.
  - unfold trigger. rewrite off_lookup, bool_decide_eq_true_2 by done.
    destruct (events !! event) as [s|] eqn:H0; cbn; [|apply not_elem_of_nil].
    rewrite <- list_fmap_compose. cbn. rewrite list_fmap_id.
    unfold set_delete. intros Hin. apply list_elem_of_filter in Hin as [Hne _]. done.
Qed.

End EventFacts.

Section KeyFacts.
Import Text TileTerms.

Lemma of_Z_inj z z' : of_Z z = of_Z z' -> z = z'.
Proof.
  unfold of_Z. intros Hs.
  apply (f_equal string_of_list_ascii) in Hs.
  rewrite !string_of_list_ascii_of_string in Hs.
  assert (Hn : forall z, Z.to_int z <> Decimal.Pos Decimal.Nil /\ Z.to_int z <> Decimal.Neg Decimal.Nil).
  { intros [|p|p]; cbn; split; try discriminate; intros [= Hp];
      by apply DecimalPos.Unsigned.to_uint_nonnil in Hp. }
  apply (f_equal NilZero.int_of_string) in Hs.
  rewrite !NilZero.isi in Hs by apply Hn.
  injection Hs as Hs. by apply DecimalZ.to_int_inj.
Qed.

Lemma string_of_uint_no_slash d :
  slash ∉ list_ascii_of_string (NilEmpty.string_of_uint d).
Proof.
  induction d; cbn; [apply not_elem_of_nil|..];
    (apply not_elem_of_cons; split; [by intros [=]|done]).
Qed.

Lemma of_Z_no_slash z : slash ∉ of_Z z.
Proof.
  unfold of_Z. destruct (Z.to_int z) as [d|d]; cbn.
  - destruct d; try apply (string_of_uint_no_slash (Decimal.D0 _)) || idtac.
    all: try (cbn; apply not_elem_of_cons; split; [by intros [=]|]).
    all: try apply not_elem_of_nil.
    all: apply string_of_uint_no_slash.
  - apply not_elem_of_cons. split; [by intros [=]|].
    destruct d; cbn.
    all: try (apply not_elem_of_cons; split; [by intros [=]|]).
    all: try apply not_elem_of_nil.
    all: apply string_of_uint_no_slash.
Qed.

Lemma split_at_slash (a a' b b' : text) :
  slash ∉ a -> slash ∉ a' -> a ++ slash :: b = a' ++ slash :: b' -> a = a' /\ b = b'.
Proof.
  revert a'. induction a as [|c a IH]; intros [|c' a'] Ha Ha' He; cbn in He.
  - by injection He.
  - injection He as <- _. exfalso. apply Ha'. by left.
  - injection He as -> _. exfalso. apply Ha. by left.
  - injection He as -> He. apply not_elem_of_cons in Ha as [_ Ha].
    apply not_elem_of_cons in Ha' as [_ Ha'].
    destruct (IH _ Ha Ha' He) as [-> ->]. done.
Qed.

(** X27.  The key determines the coordinates: tiles with different integer
    coordinates have different keys. *)
Theorem coords_key_inj x y z x' y' z' :
  coords_key x y z = coords_key x' y' z' -> x = x' /\ y = y' /\ z = z'.
Proof.
  unfold coords_key. cbn [join]. change (t<"/"> ++ ?s) with (slash :: s).
  intros He.
  apply split_at_slash in He as [Hx He]; [|apply of_Z_no_slash..].
  apply split_at_slash in He as [Hy Hz]; [|apply of_Z_no_slash..].
  by rewrite (of_Z_inj _ _ Hx), (of_Z_inj _ _ Hy), (of_Z_inj _ _ Hz).
Qed.
End KeyFacts.

(** ** The further properties on the samples *)

Section DefineExamples.
Import Text RegExp GLProgram Observe Sample.
#[local] Existing Instance Sample.imports.

(** X1, witness: [LIGHTS] is defined globally and by the program. *)
Lemma buildDefineList_program_wins_witness :
  Obj.wf (GLProgram_defines Palette.world)
  /\ Obj.wf (defines (this Palette.world))
  /\ exists merged,
       buildDefineList Palette.world = (Normal merged, Palette.world)
       /\ Obj.wf merged
       /\ Obj.get merged t<"LIGHTS"> =
            match Obj.get (defines (this Palette.world)) t<"LIGHTS"> with
            | Some v => Some v
            | None => Obj.get (GLProgram_defines Palette.world) t<"LIGHTS">
            end.
Proof.
  assert (Hg : Obj.wf (GLProgram_defines Palette.world))
    by (apply NoDup_cons; split; [by intros Hin%list_elem_of_singleton|apply NoDup_singleton]).
  assert (Hp : Obj.wf (defines (this Palette.world))) by apply NoDup_singleton.
  split; [exact Hg|]. split; [exact Hp|].
  exact (buildDefineList_program_wins Palette.world t<"LIGHTS"> Hg Hp).
Defined.

Example buildDefineString_palette :
  (buildDefineList Palette.world).1
    = Normal [(t<"LIGHTS">, DefInt 2); (t<"FOG">, DefBool true)]
  /\ buildDefineString [(t<"LIGHTS">, DefInt 2); (t<"OFF">, DefBool false);
                        (t<"FOG">, DefBool true)]
     = t<"#define LIGHTS 2.0"> ++ [LF] ++ t<"#define FOG"> ++ [LF].
Proof. split; vm_compute; reflexivity. Qed.

(** X18, witness: [globals] is registered globally and by the program. *)
Lemma buildShaderTransformList_global_then_program_witness :
  Obj.wf (GLProgram_transforms Palette.world)
  /\ Obj.wf (transforms (this Palette.world))
  /\ Forall own_name (transform_keys Palette.world)
  /\ own_name t<"globals">
  /\ exists merged,
       buildShaderTransformList Palette.world = (Normal merged, Palette.world)
       /\ Obj.wf merged
       /\ Obj.get merged t<"globals"> =
            match Obj.get (GLProgram_transforms Palette.world) t<"globals">,
                  Obj.get (transforms (this Palette.world)) t<"globals"> with
            | None, None => None
            | _, _ => Some (sources_at (GLProgram_transforms Palette.world) t<"globals">
                            ++ sources_at (transforms (this Palette.world)) t<"globals">)
            end.
Proof.
  assert (Hg : Obj.wf (GLProgram_transforms Palette.world)) by apply NoDup_singleton.
  assert (Hp : Obj.wf (transforms (this Palette.world))) by apply NoDup_singleton.
  assert (Hk : Forall own_name (transform_keys Palette.world))
    by (repeat constructor).
  assert (Hn : own_name t<"globals">) by reflexivity.
  split; [exact Hg|]. split; [exact Hp|]. split; [exact Hk|]. split; [exact Hn|].
  exact (buildShaderTransformList_global_then_program Palette.world t<"globals"> Hg Hp Hk Hn).
Defined.

(** X14, witness: a source added to [globals], which holds an array. *)
Lemma addTransform_appends_witness :
  own_name t<"globals">
  /\ exists w',
       addTransform t<"globals"> [t<"float a();">] Palette.world = (Normal tt, w')
       /\ Obj.get (GLProgram_transforms w') t<"globals">
          = Some (TransformArray ([t<"vec3 hsv2rgb(vec3 c);">] ++ [t<"float a();">]))
       /\ (forall other, other <> t<"globals"> ->
             Obj.get (GLProgram_transforms w') other
             = Obj.get (GLProgram_transforms Palette.world) other)
       /\ (Obj.wf (GLProgram_transforms Palette.world) -> Obj.wf (GLProgram_transforms w'))
       /\ this w' = this Palette.world /\ gl w' = gl Palette.world
       /\ GLProgram_defines w' = GLProgram_defines Palette.world.
Proof.
  assert (Hn : own_name t<"globals">) by reflexivity.
  split; [exact Hn|].
  exact (addTransform_appends Palette.world t<"globals"> [t<"float a();">] Hn).
Defined.

(** X15, witness: two sources added to [globals] one after the other. *)
Lemma addTransform_twice_witness :
  (addTransform t<"globals"> [t<"float a();">] Palette.world).1 = Normal tt
  /\ addTransform t<"globals"> [t<"float b();">]
       (addTransform t<"globals"> [t<"float a();">] Palette.world).2
     = addTransform t<"globals"> ([t<"float a();">] ++ [t<"float b();">]) Palette.world.
Proof.
  assert (Ha : (addTransform t<"globals"> [t<"float a();">] Palette.world).1 = Normal tt)
    by reflexivity.
  split; [exact Ha|].
  exact (addTransform_twice Palette.world t<"globals"> [t<"float a();">] [t<"float b();">] Ha).
Defined.



Example addTransform_on_source_string :
  let w := (removeTransform t<"x"> Palette.world).2 in
  forall g,
    addTransform t<"k"> [t<"b">]
      {| this := this w; GLProgram_current := None; GLProgram_defines := [];
         GLProgram_transforms := [(t<"k">, TransformSource t<"a">)]; gl := g |}
    = (Throw (TypeError_not_a_function t<"push">),
       {| this := this w; GLProgram_current := None; GLProgram_defines := [];
          GLProgram_transforms := [(t<"k">, TransformSource t<"a">)]; gl := g |}).
Proof. intros w g. reflexivity. Qed.

(** X4, witness: the plain sample has neither marker nor transform. *)
Lemma compile_passes_unmarked_templates_witness :
  let w := plain in
  let v := vertex_shader (this w) in
  let f := fragment_shader (this w) in
  compiling (this w) = false
  /\ plain_keys w
  /\ Forall (fun key => matches (pragma_regexp key) v = false
                        /\ matches (pragma_regexp key) f = false)
            (Obj.keys (merged_transforms w))
  /\ matches any_pragma_regexp v = false
  /\ matches any_pragma_regexp f = false
  /\ computed (compile w).2 =
       (prefix_text (this w) (merged_defines w) v ++ v,
        prefix_text (this w) (merged_defines w) f ++ f).
Proof.
  intros w v f.
  assert (Hc : compiling (this w) = false) by reflexivity.
  assert (Hk : Forall (fun key => matches (pragma_regexp key) v = false
                                  /\ matches (pragma_regexp key) f = false)
                      (Obj.keys (merged_transforms w))) by constructor.
  assert (Hv : matches any_pragma_regexp v = false) by (vm_compute; reflexivity).
  assert (Hf : matches any_pragma_regexp f = false) by (vm_compute; reflexivity).
  assert (Hp : plain_keys w) by constructor.
  split; [exact Hc|]. split; [exact Hp|]. split; [exact Hk|]. split; [exact Hv|].
  split; [exact Hf|].
  exact (compile_passes_unmarked_templates w Hc Hp Hk Hv Hf).
Defined.

(** X6, witness: the plain sample links. *)
Lemma compile_link_success_witness :
  let w := plain in
  let d : Obj.t define_value := [] in
  let w1 := (compile_inject w).2 in
  let linked := 1 in
  let vf := finish_texts (this w) d (computed w1) in
  let w' := (compile w).2 in
  compiling (this w) = false
  /\ compile_inject w = (Normal d, w1)
  /\ GL_updateProgram (program (this w)) vf.1 vf.2 = Some linked
  /\ linked_as linked w'
  /\ computed w' = vf
  /\ ((compile w).1 = Normal tt -> attribs (this w') = []).
Proof.
  intros w d w1 linked vf w'.
  assert (Hc : compiling (this w) = false) by reflexivity.
  assert (Hi : compile_inject w = (Normal d, w1)) by (vm_compute; reflexivity).
  assert (Hl : GL_updateProgram (program (this w)) vf.1 vf.2 = Some linked) by reflexivity.
  split; [exact Hc|]. split; [exact Hi|]. split; [exact Hl|].
  exact (compile_link_success w d w1 linked Hc Hi Hl).
Defined.
End DefineExamples.

Section StudioExamples.
Import Text RegExp GLProgram Observe Studio.
#[local] Existing Instance Studio.imports.

(** A run completes as stated: only the completion is evaluated. *)
Ltac completes :=
  match goal with
  | |- ?m = (_, _) =>
      transitivity (m.1, m.2);
      [apply surjective_pairing | apply (f_equal (fun c => (c, m.2))); vm_compute; reflexivity]
  end.

Example studio_lit :
  (compile fresh).1 = Normal tt
  /\ program (this lit) = Some 1 /\ compiled (this lit) = true
  /\ GLProgram_current lit = Some 3
  /\ gl lit = [Call_updateProgram None (computed lit).1 (computed lit).2;
               Call_useProgram (Some 1)].
Proof. vm_compute. repeat split. Qed.

(** X5, witness: the linker rejects the fragment source of the sample. *)
Lemma compile_link_failure_witness :
  let w := broken in
  let d : Obj.t define_value := [] in
  let w1 := (compile_inject w).2 in
  let vf := finish_texts (this w) d (computed w1) in
  compiling (this w) = false
  /\ compile_inject w = (Normal d, w1)
  /\ GL_updateProgram (program (this w)) vf.1 vf.2 = None
  /\ exists w',
       compile w = (Throw (Error_compile (id (this w)) (name (this w))), w')
       /\ program (this w') = None
       /\ compiled (this w') = false
       /\ compiling (this w') = false
       /\ computed w' = vf
       /\ uniforms (this w') = uniforms (this w)
       /\ GLProgram_current w' = GLProgram_current w
       /\ gl w' = gl w ++ [Call_updateProgram (program (this w)) vf.1 vf.2].
Proof.
  intros w d w1 vf.
  assert (Hc : compiling (this w) = false) by reflexivity.
  assert (Hi : compile_inject w = (Normal d, w1)) by (vm_compute; reflexivity).
  assert (Hl : GL_updateProgram (program (this w)) vf.1 vf.2 = None)
    by (vm_compute; reflexivity).
  split; [exact Hc|]. split; [exact Hi|]. split; [exact Hl|].
  exact (compile_link_failure w d w1 Hc Hi Hl).
Defined.



Example uniform_on_lit :
  let r := uniform t<"1f"> t<"u_time"> [Num 7] lit in
  r.1 = Normal tt
  /\ gl r.2 = gl lit ++ [Call_getUniformLocation (Some 1) t<"u_time">;
                         Call_uniform t<"uniform1f"> 6 [Num 7]]
  /\ (uniform t<"1f"> t<"time"> [Num 7] lit).1 = Normal tt
  /\ gl (uniform t<"1f"> t<"time"> [Num 7] lit).2
     = gl lit ++ [Call_getUniformLocation (Some 1) t<"time">]
  /\ gl (uniform t<"1f"> t<"u_time"> [Num 8] r.2).2
     = gl r.2 ++ [Call_uniform t<"uniform1f"> 6 [Num 8]].
Proof. vm_compute. repeat split. Qed.

(** X10, witness: the cache of the linked sample holds [u_time] and
    [time], which has no location. *)
Lemma refreshUniforms_relocates_witness :
  let w := (uniform t<"1f"> t<"time"> [Num 1]
              (uniform t<"1f"> t<"u_time"> [Num 7] lit).2).2 in
  let w' := (refreshUniforms w).2 in
  compiled (this w) = true
  /\ refreshUniforms w = (Normal tt, w')
  /\ program (this w') = program (this w)
  /\ (forall k, cached <$> Obj.get (uniforms (this w')) k
                = cached <$> Obj.get (uniforms (this w)) k)
  /\ (forall k e, Obj.get (uniforms (this w')) k = Some e ->
        uniform_location e = gl_getUniformLocation (program (this w)) k).
Proof.
  intros w w'.
  assert (Hc : compiled (this w) = true) by reflexivity.
  assert (Hr : refreshUniforms w = (Normal tt, w')) by (subst w'; completes).
  split; [exact Hc|]. split; [exact Hr|].
  exact (refreshUniforms_relocates w w' Hc Hr).
Defined.

(** X11, witness: the same cache, seen from the graphics context. *)
Lemma refreshUniforms_pushes_witness :
  let w := (uniform t<"1f"> t<"time"> [Num 1]
              (uniform t<"1f"> t<"u_time"> [Num 7] lit).2).2 in
  let w' := (refreshUniforms w).2 in
  compiled (this w) = true
  /\ refreshUniforms w = (Normal tt, w')
  /\ omap pushed (gl w') =
       omap pushed (gl w)
       ++ omap (fun k => Obj.get (uniforms (this w)) k ≫= fun e =>
                         gl_getUniformLocation (program (this w)) k ≫= fun l =>
                         Some (uniform_method e, l, uniform_values e))
               (Obj.keys (uniforms (this w))).
Proof.
  intros w w'.
  assert (Hc : compiled (this w) = true) by reflexivity.
  assert (Hr : refreshUniforms w = (Normal tt, w')) by (subst w'; completes).
  split; [exact Hc|]. split; [exact Hr|].
  exact (refreshUniforms_pushes w w' Hc Hr).
Defined.

(** X12, witness: the cache holds a uniform under a setter that the
    context does not have; the program links and [compile] throws. *)
Lemma compile_throws_only_witness :
  let w := unset in
  let err := TypeError_not_a_function t<"uniform9z"> in
  let w' := (compile w).2 in
  plain_keys w
  /\ compile w = (Throw err, w')
  /\ ((compiling (this w) = true
       /\ err = Error_already_compiling (id (this w)) (name (this w)) /\ w' = w)
      \/ (compiling (this w) = false
          /\ err = TypeError_reduce_of_empty_array
          /\ compiling (this w') = true /\ compiled (this w') = false
          /\ exists key, (key, []) ∈ merged_transforms w
               /\ (matches (pragma_regexp key) (computed w').1 = true
                   \/ matches (pragma_regexp key) (computed w').2 = true))
      \/ (compiling (this w) = false
          /\ err = Error_compile (id (this w)) (name (this w))
          /\ program (this w') = None
          /\ compiled (this w') = false /\ compiling (this w') = false)
      \/ (compiling (this w) = false
          /\ compiled (this w') = true /\ compiling (this w') = false
          /\ exists k e, Obj.get (uniforms (this w)) k = Some e
               /\ gl_has_method (uniform_method e) = false
               /\ err = TypeError_not_a_function (uniform_method e))).
Proof.
  intros w err w'.
  assert (Hr : compile w = (Throw err, w')) by (subst w'; completes).
  assert (Hp : plain_keys w) by (repeat constructor).
  split; [exact Hp|]. split; [exact Hr|].
  exact (compile_throws_only w err w' Hp Hr).
Defined.

(** X13, witness: two textures and a number, set from unit 2. *)
Lemma setUniforms_texture_units_witness :
  let w := lit in
  let us := sprites in
  let first := Some 2 in
  let w' := (setUniforms us first w).2 in
  let parsed := GLSL_parseUniforms us in
  compiled (this w) = true
  /\ setUniforms us first w = (Normal tt, w')
  /\ texture_unit (this w') = default 0 first + length (samplers parsed)
  /\ omap bound (gl w') = omap bound (gl w) ++ bound_units (default 0 first) parsed.
Proof.
  intros w us first w' parsed.
  assert (Hc : compiled (this w) = true) by reflexivity.
  assert (Hr : setUniforms us first w = (Normal tt, w')) by (subst w'; completes).
  split; [exact Hc|]. split; [exact Hr|].
  exact (setUniforms_texture_units us first w w' Hc Hr).
Defined.

Example setUniforms_sprites :
  let w' := (setUniforms sprites None lit).2 in
  texture_unit (this w') = 2
  /\ omap bound (gl w') = [(Tex t<"sky.png">, 0); (Tex t<"sea.png">, 1)]
  /\ omap pushed (gl w') =
       [(t<"uniform1i">, 5, [Num 0]); (t<"uniform1f">, 6, [Num 7]);
        (t<"uniform1i">, 5, [Num 1])].
Proof. vm_compute. repeat split. Qed.

(** X19, witness: the linked sample with [u_time] cached is compiled
    again. *)
Lemma compile_pushes_cache_witness :
  let w := (uniform t<"1f"> t<"u_time"> [Num 7] lit).2 in
  let w' := (compile w).2 in
  compile w = (Normal tt, w')
  /\ exists linked,
       program (this w') = Some linked
       /\ compiled (this w') = true
       /\ omap pushed (gl w') =
            omap pushed (gl w)
            ++ omap (fun k => Obj.get (uniforms (this w)) k ≫= fun e =>
                              gl_getUniformLocation (Some linked) k ≫= fun l =>
                              Some (uniform_method e, l, uniform_values e))
                    (Obj.keys (uniforms (this w)))
       /\ (forall k, cached <$> Obj.get (uniforms (this w')) k
                     = cached <$> Obj.get (uniforms (this w)) k)
       /\ (forall k e, Obj.get (uniforms (this w')) k = Some e ->
             uniform_location e = gl_getUniformLocation (Some linked) k).
Proof.
  intros w w'.
  assert (Hr : compile w = (Normal tt, w')) by (subst w'; completes).
  split; [exact Hr|].
  exact (compile_pushes_cache w w' Hr).
Defined.
End StudioExamples.

Section SceneExamples.
Import Tile TileTerms.

Example buildGeometry_scene :
  let r := buildGeometry Z.ltb TileSample.getFeatureParseContext "points" Scene.matchFeature
             (fun v : list Z => v) 100 130 TileSample.tile Scene.layers Scene.rules
             Scene.styles in
  exists t', r = Returns t'
    /\ vertex_data t' = {[ "points"%string := [5%Z] ]}
    /\ order_min t' = 5%Z /\ order_max t' = 5%Z
    /\ debug_rendering t' = 30%Z /\ debug_features t' = 1.
Proof. intros r. eexists. split; [vm_compute; reflexivity|]. repeat split. Qed.

(** X20, witness: the sample scene builds one buffer, for [points]. *)
Lemma buildGeometry_buffers_of_styles_witness :
  let r := buildGeometry Z.ltb TileSample.getFeatureParseContext "points" Scene.matchFeature
             (fun v : list Z => v) 100 130 TileSample.tile Scene.layers Scene.rules
             Scene.styles in
  let t' := match r with Returns t' => t' | TypeError => TileSample.tile end in
  r = Returns t'
  /\ key t' = key TileSample.tile
  /\ layers t' = layers TileSample.tile
  /\ relabelled Scene.layers.*1 (objects TileSample.tile) (objects t')
  /\ debug_rendering t' = (130 - 100)%Z
  /\ (forall m, is_Some (vertex_data t' !! m) -> style_names Scene.styles m).
Proof.
  intros r t'.
  assert (Hr : r = Returns t') by (vm_compute; reflexivity).
  split; [exact Hr|].
  exact (buildGeometry_buffers_of_styles Z.ltb TileSample.getFeatureParseContext "points"
           Scene.matchFeature (fun v : list Z => v) 100 130 TileSample.tile Scene.layers
           Scene.rules Scene.styles t' Hr).
Defined.


(** The feature the tile holds in [roads] carries the layer name after
    the call. *)
Example buildGeometry_labels_features :
  match buildGeometry Z.ltb TileSample.getFeatureParseContext "points" Scene.matchFeature
          (fun v : list Z => v) 100 130 TileSample.tile Scene.layers Scene.rules
          Scene.styles with
  | Returns t' => layer (objects t' 0) = Some "roads"%string
  | TypeError => False
  end.
Proof. vm_compute. reflexivity. Qed.

(** On a tile without layers, and for a layer filtered on an inherited
    name, the call throws. *)
Example buildGeometry_unresolved :
  buildGeometry Z.ltb TileSample.getFeatureParseContext "points" Scene.matchFeature
    (fun v : list Z => v) 100 130 TileSample.unloaded Scene.layers Scene.rules Scene.styles
  = TypeError
  /\ buildGeometry Z.ltb TileSample.getFeatureParseContext "points" Scene.matchFeature
       (fun v : list Z => v) 100 130 TileSample.tile
       [("roads"%string, {| layer_geometry := Some {| filter := FilterString "toString" |} |})]
       Scene.rules Scene.styles
     = TypeError.
Proof. split; vm_compute; reflexivity. Qed.

Example buildGeometry_without_style :
  buildGeometry Z.ltb TileSample.getFeatureParseContext "polygons" Scene.matchFeature
    (fun v : list Z => v) 100 130 TileSample.tile Scene.layers Scene.rules Scene.styles
  = TypeError.
Proof. vm_compute. reflexivity. Qed.

(** X27, witness: a key with a negative coordinate. *)
Lemma coords_key_inj_witness :
  coords_key 17 (-4) 0 = coords_key 17 (-4) 0
  /\ 17%Z = 17%Z /\ (-4)%Z = (-4)%Z /\ 0%Z = 0%Z.
Proof.
  assert (He : coords_key 17 (-4) 0 = coords_key 17 (-4) 0) by reflexivity.
  split; [exact He|].
  exact (coords_key_inj 17 (-4) 0 17 (-4) 0 He).
Defined.

Example coords_key_sample :
  coords_key 1 2 3 = t<"1/2/3"> /\ coords_key 17 (-4) 0 = t<"17/-4/0">.
Proof. split; vm_compute; reflexivity. Qed.
End SceneExamples.

Section EventExamples.
Import Events.

(** X26, witness: a registry with two listeners of [load]. *)
Lemma trigger_calls_once_witness :
  let events : gmap string (list nat) := on "load" 2 (on "load" 1 ∅) in
  sets events
  /\ sets (on "load" 1 events) /\ sets (off "load" 1 events)
  /\ sets (on_all [("load"%string, 3); ("move"%string, 1)] events)
  /\ NoDup (trigger "load" 7%Z events).*1
  /\ 1 ∉ (trigger "load" 7%Z (off "load" 1 events)).*1.
Proof.
  intros events.
  assert (Hs : sets events).
  { apply sets_on, sets_on. intros e s He. by rewrite lookup_empty in He. }
  split; [exact Hs|].
  exact (trigger_calls_once "load" 1 [("load"%string, 3); ("move"%string, 1)] events 7%Z Hs).
Defined.

Example events_sample :
  let events : gmap string (list nat) :=
    on_all [("load"%string, 1); ("move"%string, 2)] (on "load" 3 ∅) in
  trigger "load" 0%Z events = [(3, 0%Z); (1, 0%Z)]
  /\ trigger "load" 0%Z (on "load" 3 events) = [(3, 0%Z); (1, 0%Z)]
  /\ trigger "load" 0%Z (off "load" 3 events) = [(1, 0%Z)]
  /\ trigger "zoom" 0%Z events = [].
Proof. intros events. repeat split; vm_compute; reflexivity. Qed.
End EventExamples.

